(** * Dr.Jit: indirect-call dispatcher, if-statement and while-loop state

    Shallow embedding of
      - extra/call.cpp   (ad_call, ad_call_getter, ad_call_record,
                          ad_call_reduce, ad_call_check_rv, CallOp),
      - src/python/if_stmt.cpp (if_stmt),
      - the while-loop state tracker (LoopState::traverse) and the loop
        driver (check_state, check_cond, while_loop),
    together with the properties of the specification that concern them.

    The IR backend and the AD engine are external to these files.  The IR is
    modelled as an append-only table of variables ([Var]); a handle is the
    1-based position of a variable in that table, and handle 0 is the
    empty/uninitialised array.  Reference counts are not modelled. *)

From Stdlib Require Import String ZArith Bool Lia List.
Import ListNotations.
Local Open Scope Z_scope.

(** ** Handles *)

(** [(uint32_t) x] *)
Definition lo32 (x : Z) : Z := Z.land x 4294967295.
(** [x >> 32] on a [uint64_t] *)
Definition hi32 (x : Z) : Z := Z.shiftr x 32.
(** [CallOp::combine] *)
Definition combine (ad_index jit_index : Z) : Z :=
  Z.shiftl ad_index 32 + jit_index.

(** ** The IR, as far as the dispatcher observes it *)

Inductive JitBackend := Backend_None | CUDA | LLVM.
Inductive VarType := VT_Void | VT_Bool | VT_Int32 | VT_UInt32 | VT_Float32 | VT_Float64.
Inductive VarState := Invalid | Literal | Unevaluated | Evaluated | Dirty | Symbolic.

Definition backend_eqb (a b : JitBackend) : bool :=
  match a, b with
  | Backend_None, Backend_None | CUDA, CUDA | LLVM, LLVM => true
  | _, _ => false
  end.

Definition type_eqb (a b : VarType) : bool :=
  match a, b with
  | VT_Void, VT_Void | VT_Bool, VT_Bool | VT_Int32, VT_Int32
  | VT_UInt32, VT_UInt32 | VT_Float32, VT_Float32 | VT_Float64, VT_Float64 => true
  | _, _ => false
  end.

Definition jit_type_size (t : VarType) : Z :=
  match t with
  | VT_Void => 0 | VT_Bool => 1
  | VT_Int32 | VT_UInt32 | VT_Float32 => 4
  | VT_Float64 => 8
  end.

(** How a variable was made.  [OpUser] stands for any variable created by
    code other than the dispatcher (user callables, the caller). *)
Inductive Op :=
| OpUser
| OpLiteral (value : Z)
| OpNeq (a b : Z)
| OpAnd (a b : Z)
| OpMemMap (ptr : Z)
| OpGather (src idx mask : Z)
| OpScatter (target value idx mask : Z)
| OpCallInput (h : Z)
| OpCallOutput (slot : nat)
| OpDefaultMask
| OpCallMask
| OpGrad (ad_index : Z).

Record Var := mkVar {
  v_op : Op;
  v_backend : JitBackend;
  v_type : VarType;
  v_state : VarState;
  v_size : Z
}.

(** The entry of handle 0 and of any handle that is not in the table. *)
Definition invalid_var : Var := mkVar OpUser Backend_None VT_Void Invalid 0.

Definition lookup (vars : list Var) (h : Z) : Var :=
  if h <=? 0 then invalid_var
  else nth (Z.to_nat (h - 1)) vars invalid_var.

(** ** Exceptions, outcomes and the world *)

Inductive Exn :=
| ModeConflict | ShapeMismatch | SymbolicModeRequired
| EmptyReturn (callable : nat)
| ReturnArityMismatch (callable : nat) (got expected : nat)
| ReturnTypeMismatch (callable : nat)
| ReturnBackendMismatch (callable : nat)
| ReturnNotScalar (callable : nat)
| InvalidVarState
| RegistryMiss (id : Z)
| External (msg : string).

(** [Undefined] is a read or write outside a [dr_vector]: undefined behaviour
    in C++, which no handler catches. *)
Inductive Res (A : Type) :=
| Ok (a : A)
| Throw (e : Exn)
| Undefined.
Arguments Ok {A} a.
Arguments Throw {A} e.
Arguments Undefined {A}.

Inductive Event :=
| EvFunc (ptr : Z) (args : list Z)
| EvCleanup (payload : Z)
| EvSelfPush (value index : Z)
| EvSelfPop (value index : Z)
| EvMaskPush (h : Z)
| EvMaskPop
| EvRecordBegin
| EvRecordEnd (cleanup : bool)
| EvEval
| EvSchedule (h : Z)
| EvAggregate (ptr : Z) (n : nat)
| EvCallOpNew (payload : Z)
| EvCallOpDelete (payload : Z)
| EvCall (n_inst : nat) (inst_id : list Z) (args3 rv3 : list Z)
| EvVarRead (h : Z)
| EvVarData (h : Z).

Record World := mkWorld {
  vars : list Var;
  ad_next : Z;
  mem_next : Z;
  self_value : Z;
  self_index : Z;
  log : list Event
}.

Definition M (A : Type) : Type := World -> Res A * World.

Definition ret {A} (a : A) : M A := fun w => (Ok a, w).
Definition bind {A B} (c : M A) (k : A -> M B) : M B :=
  fun w => match c w with
           | (Ok a, w') => k a w'
           | (Throw e, w') => (Throw e, w')
           | (Undefined, w') => (Undefined, w')
           end.
Definition raise {A} (e : Exn) : M A := fun w => (Throw e, w).
Definition undefined {A} : M A := fun w => (Undefined, w).

Notation "x <- c ;; k" := (bind c (fun x => k))
  (at level 61, c at next level, right associativity).
Notation "c ;;; k" := (bind c (fun _ => k))
  (at level 61, right associativity).

(** A scope that owns an RAII object: [leave] is the destructor, run on
    normal exit and while an exception unwinds. *)
Definition scoped {A} (leave : M unit) (body : M A) : M A :=
  fun w => match body w with
           | (Ok a, w') => match leave w' with
                           | (Ok _, w'') => (Ok a, w'')
                           | (Throw e, w'') => (Throw e, w'')
                           | (Undefined, w'') => (Undefined, w'')
                           end
           | (Throw e, w') => (Throw e, snd (leave w'))
           | (Undefined, w') => (Undefined, w')
           end.

(** [try { body } catch (...) { handler; throw; }] *)
Definition try_rethrow {A} (body : M A) (handler : M unit) : M A :=
  fun w => match body w with
           | (Throw e, w') => (Throw e, snd (handler w'))
           | r => r
           end.

Definition emit (e : Event) : M unit :=
  fun w => (Ok tt, mkWorld (vars w) (ad_next w) (mem_next w)
                           (self_value w) (self_index w) (log w ++ [e])).

Definition get_vars : M (list Var) := fun w => (Ok (vars w), w).

(** Create a variable; its handle is its position in the table.  Handles
    are 32 bits wide, so the table holds fewer than 2^32 variables. *)
Definition new_var (v : Var) : M Z :=
  fun w =>
    let h := Z.of_nat (length (vars w)) + 1 in
    if h <? 4294967296 then
      (Ok h, mkWorld (vars w ++ [v]) (ad_next w) (mem_next w)
                     (self_value w) (self_index w) (log w))
    else (Throw (External "variable index overflow"), w).

(** [dr_vector::operator[]] *)
Definition vget (v : list Z) (i : nat) : M Z :=
  match nth_error v i with
  | Some x => ret x
  | None => undefined
  end.

Fixpoint vset {A} (v : list A) (i : nat) (x : A) : option (list A) :=
  match v, i with
  | [], _ => None
  | _ :: t, O => Some (x :: t)
  | h :: t, S i' => option_map (cons h) (vset t i' x)
  end.

Fixpoint for_each {S A} (l : list A) (body : A -> S -> M S) (s : S) : M S :=
  match l with
  | [] => ret s
  | a :: t => s' <- body a s ;; for_each t body s'
  end.

(** ** IR and AD primitives used by the dispatcher

    Modelled from the spec: these are the interfaces the dispatcher consumes
    from the IR backend and from the AD engine, which are not part of these
    files.  Each operation that makes a variable appends it to the table
    and records how it was made. *)

Definition jit_var_size (h : Z) : M Z := vs <- get_vars ;; ret (v_size (lookup vs h)).
Definition jit_var_type (h : Z) : M VarType := vs <- get_vars ;; ret (v_type (lookup vs h)).
Definition jit_var_state (h : Z) : M VarState := vs <- get_vars ;; ret (v_state (lookup vs h)).
(** [jit_set_backend] returns the [VarInfo] of a variable. *)
Definition jit_set_backend (h : Z) : M Var := vs <- get_vars ;; ret (lookup vs h).

Definition jit_var_literal (b : JitBackend) (t : VarType) (value size : Z) : M Z :=
  new_var (mkVar (OpLiteral value) b t Literal size).
Definition jit_var_u32 (b : JitBackend) (value : Z) : M Z :=
  jit_var_literal b VT_UInt32 value 1.
Definition jit_var_bool (b : JitBackend) (value : bool) : M Z :=
  jit_var_literal b VT_Bool (if value then 1 else 0) 1.

Definition jit_var_is_zero_literal (h : Z) : M bool :=
  vs <- get_vars ;;
  ret (match v_op (lookup vs h), v_state (lookup vs h) with
       | OpLiteral 0, Literal => true
       | _, _ => false
       end).

Definition jit_var_neq (a b : Z) : M Z :=
  vs <- get_vars ;;
  new_var (mkVar (OpNeq a b) (v_backend (lookup vs a)) VT_Bool Unevaluated
                 (Z.max (v_size (lookup vs a)) (v_size (lookup vs b)))).

Definition jit_var_and (a b : Z) : M Z :=
  vs <- get_vars ;;
  new_var (mkVar (OpAnd a b) (v_backend (lookup vs b)) (v_type (lookup vs a)) Unevaluated
                 (Z.max (v_size (lookup vs a)) (v_size (lookup vs b)))).

Definition jit_var_mem_map (b : JitBackend) (t : VarType) (ptr size : Z) : M Z :=
  new_var (mkVar (OpMemMap ptr) b t Evaluated size).

Definition jit_var_gather (src idx mask : Z) : M Z :=
  vs <- get_vars ;;
  new_var (mkVar (OpGather src idx mask) (v_backend (lookup vs src))
                 (v_type (lookup vs src)) Unevaluated (v_size (lookup vs idx))).

(** [jit_var_read] reads an entry of a variable (here the bits of a
    literal).  [jit_var_data] returns the address of the data of a variable,
    which it evaluates first when it is not evaluated yet, and a reference
    to the variable.  The log records the two calls. *)
Definition jit_var_read (h : Z) : M unit := emit (EvVarRead h).
Definition jit_var_data (h : Z) : M Z := emit (EvVarData h) ;;; ret h.

Definition jit_var_call_input (h : Z) : M Z :=
  vs <- get_vars ;;
  let v := lookup vs h in
  new_var (mkVar (OpCallInput h) (v_backend v) (v_type v) Symbolic (v_size v)).

Definition jit_var_call_mask (b : JitBackend) : M Z :=
  new_var (mkVar OpCallMask b VT_Bool Symbolic 1).

Definition jit_var_mask_default (b : JitBackend) (size : Z) : M Z :=
  new_var (mkVar OpDefaultMask b VT_Bool Unevaluated size).

Definition jit_malloc : M Z :=
  fun w => (Ok (mem_next w),
            mkWorld (vars w) (ad_next w) (mem_next w + 1)
                    (self_value w) (self_index w) (log w)).

(** [ad_var_new]: a fresh AD node on top of an IR variable. *)
Definition ad_var_new (jit_index : Z) : M Z :=
  fun w => (Ok (combine (ad_next w) jit_index),
            mkWorld (vars w) (ad_next w + 1) (mem_next w)
                    (self_value w) (self_index w) (log w)).

(** The result of an AD-aware operation is tracked when an operand is. *)
Definition ad_tag (tracked : bool) (jit_index : Z) : M Z :=
  if tracked then ad_var_new jit_index else ret jit_index.

Definition ad_var_gather (src idx mask : Z) : M Z :=
  h <- jit_var_gather (lo32 src) idx mask ;;
  ad_tag (negb (hi32 src =? 0)) h.

Definition ad_var_scatter (target value idx mask : Z) : M Z :=
  vs <- get_vars ;;
  let v := lookup vs (lo32 target) in
  h <- new_var (mkVar (OpScatter (lo32 target) (lo32 value) idx mask)
                      (v_backend v) (v_type v) Unevaluated (v_size v)) ;;
  ad_tag (negb (hi32 target =? 0) || negb (hi32 value =? 0)) h.

(** [ad_grad]: the gradient variable of an AD node. *)
Definition ad_grad (b : JitBackend) (index : Z) : M Z :=
  new_var (mkVar (OpGrad (hi32 index)) b VT_Float32 Unevaluated 1).

(** ** User callables

    [ad_call_func] takes the payload, the instance pointer [self], the
    argument vector [args] and the output vector [rv].  A callable
    sees the variable table, may create variables and AD nodes, and either
    throws or leaves its return values in [rv]. *)

Record UserOut := mkUserOut {
  u_new : list Var;
  u_ad_new : Z;
  u_res : Res (list Z)
}.

Definition ad_call_func : Type :=
  Z -> Z -> list Z -> list Z -> list Var -> Z -> UserOut.

Definition call_func (func : ad_call_func) (payload ptr : Z) (args rv : list Z)
  : M (list Z) :=
  emit (EvFunc ptr args) ;;;
  fun w =>
    let o := func payload ptr args rv (vars w) (ad_next w) in
    (u_res o,
     mkWorld (vars w ++ u_new o) (ad_next w + u_ad_new o) (mem_next w)
             (self_value w) (self_index w) (log w)).

(** ** RAII helpers *)

(** [scoped_set_mask] *)
Definition scoped_set_mask {A} (index : Z) (body : M A) : M A :=
  emit (EvMaskPush index) ;;; scoped (emit EvMaskPop) body.

(** [scoped_record]: the destructor ends the recording with [cleanup], which
    is [true] unless [disarm()] was reached. *)
Definition scoped_record {A} (disarms : bool) (body : M A) : M A :=
  emit EvRecordBegin ;;;
  fun w => match body w with
           | (Ok a, w') =>
               (Ok a, snd (emit (EvRecordEnd (negb disarms)) w'))
           | (Throw e, w') => (Throw e, snd (emit (EvRecordEnd true) w'))
           | (Undefined, w') => (Undefined, w')
           end.

Definition jit_var_set_self (value index : Z) : M unit :=
  fun w => (Ok tt, mkWorld (vars w) (ad_next w) (mem_next w) value index (log w)).

(** [scoped_set_self] *)
Definition scoped_set_self {A} (value self_index0 : Z) (body : M A) : M A :=
  fun w =>
    let m_self_value := self_value w in
    let m_self_index := self_index w in
    (jit_var_set_self value self_index0 ;;;
     emit (EvSelfPush value self_index0) ;;;
     scoped (jit_var_set_self m_self_value m_self_index ;;;
             emit (EvSelfPop m_self_value m_self_index))
            body) w.

(** [v[i] = x] on a [dr_vector] *)
Definition vput {A} (v : list A) (i : nat) (x : A) : M (list A) :=
  match vset v i x with
  | Some v' => ret v'
  | None => undefined
  end.

(** ** External collaborators of a dispatch *)

Inductive CustomOpOutcome :=
| Attached            (* ad_custom_op returned true *)
| NotNeeded           (* ad_custom_op returned false *)
| Raises (e : Exn).   (* ad_custom_op threw *)

(** [CallBucket]: [id] is the callable id, [index] the permutation handle. *)
Record CallBucket := mkBucket { bucket_id : Z; bucket_index : Z }.

Record Env := mkEnv {
  (** [jit_registry_id_bound(backend, domain)] *)
  jit_registry_id_bound : nat;
  (** [jit_registry_ptr(backend, domain, id)]; 0 is [nullptr] *)
  jit_registry_ptr : Z -> Z;
  (** [jit_flag(JitFlag::VCallRecord)] and [jit_flag(JitFlag::Symbolic)] *)
  flag_vcall_record : bool;
  flag_symbolic : bool;
  (** the buckets [jit_var_call_reduce] finds: callable id and number of
      lanes, in the order it returns them *)
  call_buckets : list (Z * Z);
  (** [CustomOpBase::add_index(backend, ad_index, input)] *)
  add_index : Z -> bool -> bool;
  (** what [ad_custom_op] does with the operation *)
  custom_op : CustomOpOutcome
}.

(** ** ad_call_check_rv *)

Definition ad_call_check_rv (backend : JitBackend) (size : Z)
    (callable_index : nat) (rv rv2 : list Z) : M (list Z) :=
  if negb (length rv =? length rv2)%nat then
    if negb (length rv =? 0)%nat then
      raise (ReturnArityMismatch callable_index (length rv2) (length rv))
    else
      (* rv.resize(rv2.size()), then one zero literal per slot *)
      for_each rv2
        (fun x acc =>
           if x =? 0 then raise (EmptyReturn callable_index)
           else t <- jit_var_type (lo32 x) ;;
                h <- jit_var_literal backend t 0 size ;;
                ret (acc ++ [h]))
        []
  else
    for_each (List.combine rv rv2)
      (fun p (_ : unit) =>
         let '(i1, i2) := p in
         if i2 =? 0 then raise (EmptyReturn callable_index)
         else v1 <- jit_set_backend (lo32 i1) ;;
              v2 <- jit_set_backend (lo32 i2) ;;
              if negb (backend_eqb (v_backend v2) backend)
              then raise (ReturnBackendMismatch callable_index)
              else if negb (type_eqb (v_type v1) (v_type v2))
              then raise (ReturnTypeMismatch callable_index)
              else ret tt)
      tt ;;;
    ret rv.

(** ** Strategy 1: ad_call_getter *)

Record GetterSt := mkGetterSt {
  g_rv : list Z;
  g_rv2 : list Z;
  g_rv3 : list Z;
  g_rv_ad : list bool
}.

(** One iteration of the loop over the callables (lines 114-159). *)
Definition getter_callable (env : Env) (backend : JitBackend) (domain : option string)
    (size : Z) (callable_count : nat) (func : ad_call_func) (payload : Z)
    (i : nat) (st : GetterSt) : M GetterSt :=
  let args2 : list Z := [] in
  let skip := ret (mkGetterSt (g_rv st) [] (g_rv3 st) (g_rv_ad st)) in
  let run (ptr : Z) :=
    rv2 <- scoped_record false (call_func func payload ptr args2 []) ;;
    rv <- ad_call_check_rv backend size i (g_rv st) rv2 ;;
    let rv_ad := if (length (g_rv_ad st) =? 0)%nat
                 then repeat false (length rv2) else g_rv_ad st in
    acc <- for_each (List.combine (seq 0 (length rv2)) rv2)
             (fun p (acc : list Z * list bool) =>
                let '(j, index) := p in
                let '(rv3, rv_ad) := acc in
                match nth_error rv_ad j with
                | None => undefined
                | Some old =>
                    rv_ad' <- vput rv_ad j (old || negb (hi32 index =? 0)) ;;
                    if index =? 0 then raise (EmptyReturn i)
                    else sz <- jit_var_size (lo32 index) ;;
                         if negb (sz =? 1) then raise (ReturnNotScalar i)
                         else ret (rv3 ++ [lo32 index], rv_ad')
                end)
             (g_rv3 st, rv_ad) ;;
    ret (mkGetterSt rv rv2 (fst acc) (snd acc)) in
  match domain with
  | Some _ =>
      let ptr := jit_registry_ptr env (Z.of_nat i + 1) in
      if ptr =? 0 then skip else run ptr
  | None => run (Z.of_nat i)
  end.

(** The aggregation entry of callable [j] for slot [i] (lines 195-219): a
    literal is read, any other variable is evaluated and its data is taken.
    The vector [cleanup] only holds the references that [jit_var_data]
    returns. *)
Definition getter_entry (rv3 : list Z) (n_rv2 i : nat) (j : nat) (_ : unit) : M unit :=
  rv3_i <- vget rv3 (i + j * n_rv2) ;;
  state <- jit_var_state rv3_i ;;
  match state with
  | Literal => jit_var_read rv3_i
  | Unevaluated | Evaluated => _ <- jit_var_data rv3_i ;; ret tt
  | _ => raise InvalidVarState
  end.

(** Lines 167-171: do all callables return the same handle for slot [i]? *)
Definition getter_is_literal (callable_count : nat) (rv2 rv3 : list Z) (i : nat)
  : M bool :=
  for_each (seq 0 callable_count)
    (fun j (b : bool) =>
       x <- vget rv3 i ;;
       y <- vget rv3 (i + j * length rv2) ;;
       ret (if x =? y then b else false))
    true.

(** One iteration of the loop over the return slots (lines 161-223). *)
Definition getter_slot (backend : JitBackend) (index mask : Z)
    (callable_count : nat) (rv2 rv3 : list Z) (i : nat) (rv : list Z)
  : M (list Z) :=
  rv <- vput rv i 0 ;;
  is_literal <- getter_is_literal callable_count rv2 rv3 i ;;
  if (is_literal : bool) then
    x <- vget rv3 i ;; vput rv i x
  else
    rv2_i <- vget rv2 i ;;
    type <- jit_var_type (lo32 rv2_i) ;;
    ptr <- jit_malloc ;;
    buf <- jit_var_mem_map backend type ptr (Z.of_nat callable_count + 1) ;;
    _ <- jit_malloc ;;
    for_each (seq 0 callable_count) (getter_entry rv3 (length rv2) i) tt ;;;
    emit (EvAggregate ptr callable_count) ;;;
    g <- jit_var_gather buf index mask ;;
    vput rv i g.

(** Lines 103-105: the mask of the final gather. *)
Definition getter_mask (backend : JitBackend) (index mask_ : Z) : M Z :=
  null_instance <- jit_var_u32 backend 0 ;;
  is_non_null <- jit_var_neq index null_instance ;;
  jit_var_and mask_ is_non_null.

(** Lines 114-159: the loop over the callables. *)
Definition getter_collect (env : Env) (backend : JitBackend) (domain : option string)
    (size : Z) (callable_count : nat) (rv : list Z) (rv_ad : list bool)
    (func : ad_call_func) (payload : Z) : M GetterSt :=
  for_each (seq 0 callable_count)
    (getter_callable env backend domain size callable_count func payload)
    (mkGetterSt rv [] [] rv_ad).

Definition ad_call_getter (env : Env) (backend : JitBackend) (domain : option string)
    (name : string) (size index mask_ : Z) (callable_count : nat)
    (args rv : list Z) (rv_ad : list bool) (func : ad_call_func) (payload : Z)
  : M (list Z * list bool) :=
  mask <- getter_mask backend index mask_ ;;
  st <- getter_collect env backend domain size callable_count rv rv_ad func payload ;;
  rv' <- for_each (seq 0 (length (g_rv2 st)))
           (getter_slot backend index mask callable_count (g_rv2 st) (g_rv3 st))
           (g_rv st) ;;
  ret (rv', g_rv_ad st).

(** ** Strategy 2: ad_call_record *)

Record RecordSt := mkRecordSt {
  r_rv : list Z;
  r_rv3 : list Z;
  r_rv_ad : list bool;
  r_inst_id : list Z;
  r_callable_count_final : nat
}.

(** [rv_ad[j] |= (index >> 32) != 0; rv3.push_back_borrow((uint32_t) index)] *)
Definition record_collect (p : nat * Z) (acc : list Z * list bool)
  : M (list Z * list bool) :=
  let '(j, index) := p in
  let '(rv3, rv_ad) := acc in
  match nth_error rv_ad j with
  | None => undefined
  | Some old =>
      rv_ad' <- vput rv_ad j (old || negb (hi32 index =? 0)) ;;
      ret (rv3 ++ [lo32 index], rv_ad')
  end.

(** One iteration of the loop over the callables (lines 273-312). *)
Definition record_callable (env : Env) (backend : JitBackend) (domain : option string)
    (size : Z) (func : ad_call_func) (payload : Z) (args2 : list Z)
    (i : nat) (st : RecordSt) : M RecordSt :=
  let run (ptr : Z) :=
    scoped_set_self (Z.of_nat i + 1) 0
      (rv2 <- call_func func payload ptr args2 [] ;;
       inst_id <- vput (r_inst_id st) i (Z.of_nat i + 1) ;;
       rv <- ad_call_check_rv backend size i (r_rv st) rv2 ;;
       let rv_ad := if (length (r_rv_ad st) =? 0)%nat
                    then repeat false (length rv2) else r_rv_ad st in
       acc <- for_each (List.combine (seq 0 (length rv2)) rv2)
                record_collect (r_rv3 st, rv_ad) ;;
       ret (mkRecordSt rv (fst acc) (snd acc) inst_id
                       (S (r_callable_count_final st)))) in
  match domain with
  | Some _ =>
      let ptr := jit_registry_ptr env (Z.of_nat i + 1) in
      if ptr =? 0 then ret st else run ptr
  | None => run (Z.of_nat i)
  end.

(** Wrap the inputs as call inputs (lines 260-268): [(args2, args3)]. *)
Definition record_wrap_arg (a : Z) (acc : list Z * list Z) : M (list Z * list Z) :=
  let '(args2, args3) := acc in
  wrapped <- jit_var_call_input (lo32 a) ;;
  if negb (hi32 a =? 0)
  then x <- ad_var_new wrapped ;; ret (args2 ++ [x], args3 ++ [wrapped])
  else ret (args2 ++ [wrapped], args3 ++ [wrapped]).

(** Modelled from the spec: [jit_var_call] belongs to the IR backend; it
    emits the indirect call and "returns one fresh output handle per return
    slot" into [rv4], which was resized to [rv.size()]. *)
Definition jit_var_call (backend : JitBackend) (n_inst : nat) (inst_id args3 rv3 : list Z)
    (n_rv4 : nat) : M (list Z) :=
  emit (EvCall n_inst inst_id args3 rv3) ;;;
  for_each (seq 0 n_rv4)
    (fun i (rv4 : list Z) =>
       vs <- get_vars ;;
       let v := lookup vs (nth i rv3 0) in
       h <- new_var (mkVar (OpCallOutput i) backend (v_type v) Symbolic (v_size v)) ;;
       ret (rv4 ++ [h]))
    [].

Definition ad_call_record (env : Env) (backend : JitBackend) (domain : option string)
    (name : string) (size index mask_ : Z) (callable_count : nat)
    (args rv : list Z) (rv_ad : list bool) (func : ad_call_func) (payload : Z)
  : M (list Z * list bool) :=
  mask <- (if negb (mask_ =? 0) then ret mask_ else jit_var_bool backend true) ;;
  scoped_record true
    (a <- for_each args record_wrap_arg ([], []) ;;
     let '(args2, args3) := a in
     call_mask <- jit_var_call_mask backend ;;
     st <- scoped_set_mask call_mask
             (for_each (seq 0 callable_count)
                (record_callable env backend domain size func payload args2)
                (mkRecordSt rv [] rv_ad (repeat 0 callable_count) O)) ;;
     rv4 <- jit_var_call backend (r_callable_count_final st) (r_inst_id st)
              args3 (r_rv3 st) (length (r_rv st)) ;;
     ret (rv4, r_rv_ad st)).

(** ** Strategy 3: ad_call_reduce *)

(** [jit_var_call_reduce]: one permutation array per bucket. *)
Definition jit_var_call_reduce (env : Env) (backend : JitBackend) : M (list CallBucket) :=
  for_each (call_buckets env)
    (fun p (acc : list CallBucket) =>
       let '(id, lanes) := p in
       perm <- new_var (mkVar OpUser backend VT_UInt32 Evaluated lanes) ;;
       ret (acc ++ [mkBucket id perm]))
    [].

(** [rv[j] = ad_var_scatter(rv[j], rv2[j], index2, memop_mask, ...)] *)
Definition reduce_merge (index2 memop_mask : Z) (p : nat * Z) (rv : list Z)
  : M (list Z) :=
  let '(j, rv2_j) := p in
  rv_j <- vget rv j ;;
  idx <- ad_var_scatter rv_j rv2_j index2 memop_mask ;;
  vput rv j idx.

(** One iteration of the loop over the buckets (lines 366-423); the state
    is [rv] and [last_size]. *)
Definition reduce_bucket (env : Env) (backend : JitBackend) (domain : option string)
    (size index memop_mask : Z) (args : list Z) (func : ad_call_func) (payload : Z)
    (p : nat * CallBucket) (st : list Z * Z) : M (list Z * Z) :=
  let '(i, bucket) := p in
  let '(rv, last_size) := st in
  if bucket_id bucket =? 0 then ret st
  else
    let callable_index := bucket_id bucket - 1 in
    let index2 := bucket_index bucket in
    wavefront_size <- jit_var_size index2 ;;
    (if last_size =? wavefront_size then emit EvEval else ret tt) ;;;
    default_mask <- jit_var_mask_default backend wavefront_size ;;
    scoped_set_mask default_mask
      (args2 <- for_each args
                  (fun a (acc : list Z) =>
                     g <- ad_var_gather a index2 memop_mask ;; ret (acc ++ [g]))
                  [] ;;
       ptr <- match domain with
              | Some _ =>
                  let ptr := jit_registry_ptr env (bucket_id bucket) in
                  if ptr =? 0 then raise (RegistryMiss (bucket_id bucket))
                  else ret ptr
              | None => ret callable_index
              end ;;
       instance_id <- ad_var_gather index index2 memop_mask ;;
       scoped_set_self (Z.of_nat i + 1) (lo32 instance_id)
         (rv2 <- call_func func payload ptr args2 [] ;;
          rv <- ad_call_check_rv backend size i rv rv2 ;;
          rv <- for_each (List.combine (seq 0 (length rv2)) rv2)
                  (reduce_merge index2 memop_mask) rv ;;
          ret (rv, wavefront_size))).

Definition ad_call_reduce (env : Env) (backend : JitBackend) (domain : option string)
    (name : string) (size index_ mask : Z) (callable_count : nat)
    (args rv : list Z) (func : ad_call_func) (payload : Z) : M (list Z) :=
  index <- (if negb (mask =? 0) then jit_var_and index_ mask else ret index_) ;;
  emit (EvSchedule index) ;;;
  for_each args (fun a (_ : unit) => emit (EvSchedule (lo32 a))) tt ;;;
  buckets <- jit_var_call_reduce env backend ;;
  memop_mask <- jit_var_bool backend true ;;
  st <- for_each (List.combine (seq 0 (length buckets)) buckets)
          (reduce_bucket env backend domain size index memop_mask args func payload)
          (rv, 0) ;;
  for_each (fst st) (fun h (_ : unit) => emit (EvSchedule (lo32 h))) tt ;;;
  ret (fst st).

(** ** CallOp: the CustomOp that hooks a call into the AD graph *)

Record CallOp := mkCallOp {
  m_backend : JitBackend;
  m_name : string;
  m_domain : option string;
  m_index : Z;
  m_mask : Z;
  m_callable_count : nat;
  m_args : list Z;
  m_payload : Z;
  m_func : ad_call_func;
  (** [true] when the cleanup function pointer is not [nullptr] *)
  m_cleanup : bool;
  m_input_offsets : list nat;
  m_output_offsets : list nat;
  m_input_indices : list Z;
  m_output_indices : list Z;
  m_rv : list Z
}.

(** [CallOp::CallOp] *)
Definition CallOp_new (backend : JitBackend) (name : string) (domain : option string)
    (index mask : Z) (callable_count : nat) (args : list Z) (payload : Z)
    (func : ad_call_func) (cleanup : bool) : M CallOp :=
  emit (EvCallOpNew payload) ;;;
  ret (mkCallOp backend name domain index mask callable_count
                (map lo32 args) payload func cleanup [] [] [] [] []).

(** [CallOp::~CallOp] *)
Definition CallOp_delete (op : CallOp) : M unit :=
  emit (EvCallOpDelete (m_payload op)) ;;;
  if m_cleanup op then emit (EvCleanup (m_payload op)) else ret tt.

(** [CallOp::disable_deleter] *)
Definition disable_deleter (op : CallOp) : CallOp :=
  mkCallOp (m_backend op) (m_name op) (m_domain op) (m_index op) (m_mask op)
           (m_callable_count op) (m_args op) (m_payload op) (m_func op) false
           (m_input_offsets op) (m_output_offsets op) (m_input_indices op)
           (m_output_indices op) (m_rv op).

(** [CallOp::add_input] *)
Definition add_input (env : Env) (op : CallOp) (i : nat) (index : Z) : CallOp :=
  if add_index env (hi32 index) true then
    mkCallOp (m_backend op) (m_name op) (m_domain op) (m_index op) (m_mask op)
             (m_callable_count op) (m_args op) (m_payload op) (m_func op)
             (m_cleanup op) (m_input_offsets op ++ [i]) (m_output_offsets op)
             (m_input_indices op ++ [hi32 index]) (m_output_indices op) (m_rv op)
  else op.

(** [CallOp::add_output] *)
Definition add_output (env : Env) (op : CallOp) (i : nat) (index : Z) : CallOp :=
  if add_index env (hi32 index) false then
    mkCallOp (m_backend op) (m_name op) (m_domain op) (m_index op) (m_mask op)
             (m_callable_count op) (m_args op) (m_payload op) (m_func op)
             (m_cleanup op) (m_input_offsets op) (m_output_offsets op ++ [i])
             (m_input_indices op) (m_output_indices op ++ [hi32 index])
             (m_rv op ++ [Z.shiftl (hi32 index) 32])
  else op.

(** ** The dispatcher ad_call *)

(** Size unification of one more operand (lines 709-718 and 722-729). *)
Definition unify_size (size size_2 : Z) : M Z :=
  if size =? 1 then ret size_2
  else if negb (size =? size_2) && negb (size_2 =? 1) then raise ShapeMismatch
  else ret size.

(** The degenerate case (lines 734-746). *)
Definition ad_call_degenerate (backend : JitBackend) (size : Z) (args rv : list Z)
    (func : ad_call_func) (payload : Z) : M (bool * list Z) :=
  false_mask <- jit_var_bool backend false ;;
  scoped_set_mask false_mask
    (rv <- call_func func payload 0 args rv ;;
     rv <- for_each rv
             (fun i (acc : list Z) =>
                if negb (i =? 0) then
                  t <- jit_var_type (lo32 i) ;;
                  h <- jit_var_literal backend t 0 size ;;
                  ret (acc ++ [h])
                else ret (acc ++ [i]))
             [] ;;
     ret (true, rv)).

(** Promote the differentiable outputs (lines 798-807). *)
Definition ad_call_promote (env : Env) (rv_ad : list bool) (i : nat)
    (st : list Z * CallOp) : M (list Z * CallOp) :=
  let '(rv, op) := st in
  match nth_error rv_ad i with
  | None => undefined
  | Some false => ret st
  | Some true =>
      rv_i <- vget rv i ;;
      index <- ad_var_new (lo32 rv_i) ;;
      rv <- vput rv i index ;;
      ret (rv, add_output env op i index)
  end.

(** Detach the outputs again (lines 816-824). *)
Definition ad_call_detach (index : Z) : Z :=
  let index_d := Z.shiftr (Z.land (Z.shiftl index 32) 18446744073709551615) 32 in
  if index =? index_d then index else index_d.

(** The AD wrapping (lines 780-825): the result is what [ad_call] returns.
    The implicit dependencies that [ad_copy_implicit_deps] reports belong
    to the AD engine and are taken to be none. *)
Definition ad_call_wrap (env : Env) (backend : JitBackend) (domain : option string)
    (callable_count : nat) (name : string) (index mask : Z) (args rv : list Z)
    (rv_ad : list bool) (payload : Z) (func : ad_call_func) (cleanup : bool)
  : M (bool * list Z) :=
  let callable_count := match domain with Some _ => O | None => callable_count end in
  op <- CallOp_new backend name domain index mask callable_count args payload
          func cleanup ;;
  fun w =>
    let body :=
      (let op := fold_left (fun op p => add_input env op (fst p) (snd p))
                           (List.combine (seq 0 (length args)) args) op in
       st <- for_each (seq 0 (length rv)) (ad_call_promote env rv_ad) (rv, op) ;;
       match custom_op env with
       | Attached => ret (true, fst st)
       | Raises e => raise e
       | NotNeeded => ret (false, map ad_call_detach (fst st))
       end) in
    match body w with
    | (Ok (true, rv), w') =>
        (* attached: the AD graph holds the operation, "CallOp will
           eventually call cleanup()"; ad_call returns false *)
        (Ok (false, rv), w')
    | (Ok (false, rv), w') =>
        (* not needed: op goes out of scope with its deleter disabled;
           ad_call returns true *)
        (Ok (true, rv), snd (CallOp_delete (disable_deleter op) w'))
    | (Throw e, w') =>
        (* op goes out of scope while the exception unwinds *)
        (Throw e, snd (CallOp_delete op w'))
    | (Undefined, w') => (Undefined, w')
    end.

(** Lines 700-735: the checks, the unified size, whether an argument is
    differentiable and whether the call is degenerate. *)
Definition ad_call_prologue (env : Env) (domain : option string)
    (callable_count : nat) (index mask : Z) (args : list Z)
  : M (nat * Z * bool * bool) :=
  (if Bool.eqb (negb (callable_count =? 0)%nat)
               (match domain with Some _ => true | None => false end)
   then raise ModeConflict else ret tt) ;;;
  let callable_count :=
    match domain with Some _ => jit_registry_id_bound env | None => callable_count end in
  size <- jit_var_size index ;;
  size <- (if negb (mask =? 0)
           then size_2 <- jit_var_size mask ;; unify_size size size_2
           else ret size) ;;
  sn <- for_each args
          (fun arg_i (acc : Z * bool) =>
             size_2 <- jit_var_size (lo32 arg_i) ;;
             size <- unify_size (fst acc) size_2 ;;
             ret (size, snd acc || negb (hi32 arg_i =? 0)))
          (size, false) ;;
  zero_mask <- jit_var_is_zero_literal mask ;;
  ret (callable_count, fst sn, snd sn,
       (index =? 0) || (fst sn =? 0) || zero_mask || (callable_count =? 0)%nat).

(** Lines 748-775: strategy selection; the result is [rv], [rv_ad] and
    whether a CustomOp may still be needed. *)
Definition ad_call_strategy (env : Env) (backend : JitBackend) (domain : option string)
    (callable_count : nat) (name : string) (is_getter : bool) (size index mask : Z)
    (args rv : list Z) (payload : Z) (func : ad_call_func) (ad : bool)
  : M (list Z * list bool * bool) :=
  if is_getter then
    x <- ad_call_getter env backend domain name size index mask
           callable_count args rv [] func payload ;;
    ret (x, ad)
  else if flag_vcall_record env then
    x <- ad_call_record env backend domain name size index mask
           callable_count args rv [] func payload ;;
    ret (x, ad)
  else if flag_symbolic env then raise SymbolicModeRequired
  else
    rv <- ad_call_reduce env backend domain name size index mask
            callable_count args rv func payload ;;
    ret ((rv, []), false).

(** The body of the [try] block of [ad_call]. *)
Definition ad_call_body (env : Env) (backend : JitBackend) (domain : option string)
    (callable_count : nat) (name : string) (is_getter : bool) (index mask : Z)
    (args rv : list Z) (payload : Z) (func : ad_call_func) (cleanup : bool)
    (ad : bool) : M (bool * list Z) :=
  p <- ad_call_prologue env domain callable_count index mask args ;;
  let '(callable_count, size, needs_ad, degenerate) := p in
  if (degenerate : bool) then
    ad_call_degenerate backend size args rv func payload
  else
    r <- ad_call_strategy env backend domain callable_count name is_getter size
           index mask args rv payload func ad ;;
    let '((rv, rv_ad), ad) := r in
    let needs_ad := fold_left orb rv_ad needs_ad in
    if ad && needs_ad then
      ad_call_wrap env backend domain callable_count name index mask args rv
                   rv_ad payload func cleanup
    else ret (true, rv).

Definition ad_call (env : Env) (backend : JitBackend) (domain : option string)
    (callable_count : nat) (name : string) (is_getter : bool) (index mask : Z)
    (args rv : list Z) (payload : Z) (func : ad_call_func) (cleanup : bool)
    (ad : bool) : M (bool * list Z) :=
  try_rethrow
    (ad_call_body env backend domain callable_count name is_getter index mask
                  args rv payload func cleanup ad)
    (if cleanup then emit (EvCleanup payload) else ret tt).

(** ** CallOp::forward and CallOp::backward

    The callbacks are member functions; as an [ad_call_func] they run on the
    variable table they are given and report what they created. *)

Definition run_callback (c : M (list Z)) (vs : list Var) (adn : Z) : UserOut :=
  let r := c (mkWorld vs adn 0 0 0 []) in
  mkUserOut (skipn (length vs) (vars (snd r))) (ad_next (snd r) - adn) (fst r).

(** [ad_var_copy] *)
Definition ad_var_copy (index : Z) : M Z :=
  ad_tag (negb (hi32 index =? 0)) (lo32 index).

(** The common prologue of both callbacks (lines 581-593 and 624-636):
    [(m_args2, m_rv2)]. *)
Definition CallOp_run_body (op : CallOp) (self : Z) (args : list Z)
  : M (list Z * list Z) :=
  m_args2 <- for_each (seq 0 (length (m_args op)))
               (fun i (acc : list Z) => a <- vget args i ;; ret (acc ++ [a])) [] ;;
  m_args2 <- for_each (m_input_offsets op)
               (fun off (m_args2 : list Z) =>
                  index <- vget m_args2 off ;;
                  index_new <- ad_var_new (lo32 index) ;;
                  vput m_args2 off index_new)
               m_args2 ;;
  m_rv2 <- call_func (m_func op) (m_payload op) self m_args2 [] ;;
  ret (m_args2, m_rv2).

(** [CallOp::forward_cb] *)
Definition forward_cb (op : CallOp) : ad_call_func :=
  fun _ self args rv =>
    run_callback
      (b <- CallOp_run_body op self args ;;
       let '(m_args2, m_rv2) := b in
       for_each (List.combine (seq 0 (length (m_input_offsets op))) (m_input_offsets op))
         (fun p (_ : unit) =>
            _ <- vget m_args2 (snd p) ;;
            _ <- vget args (length (m_args op) + fst p) ;;
            ret tt) tt ;;;
       for_each (m_output_offsets op)
         (fun off (rv : list Z) =>
            x <- vget m_rv2 off ;;
            index <- ad_grad (m_backend op) x ;;
            ret (rv ++ [index]))
         rv).

(** [CallOp::backward_cb] *)
Definition backward_cb (op : CallOp) : ad_call_func :=
  fun _ self args rv =>
    run_callback
      (b <- CallOp_run_body op self args ;;
       let '(m_args2, m_rv2) := b in
       for_each (List.combine (seq 0 (length (m_output_offsets op))) (m_output_offsets op))
         (fun p (_ : unit) =>
            index <- vget m_rv2 (snd p) ;;
            _ <- ad_var_copy index ;;
            _ <- vget args (length (m_args op) + fst p) ;;
            ret tt) tt ;;;
       for_each (m_input_offsets op)
         (fun off (rv : list Z) =>
            x <- vget m_args2 off ;;
            index <- ad_grad (m_backend op) x ;;
            ret (rv ++ [index]))
         rv).

(** [args = m_args ++ grad(indices)] (lines 527-530 and 554-557) *)
Definition CallOp_args (op : CallOp) (n : nat) (indices : list Z) : M (list Z) :=
  for_each (seq 0 n)
    (fun i (acc : list Z) =>
       x <- vget indices i ;;
       g <- ad_grad (m_backend op) (combine x 0) ;;
       ret (acc ++ [g]))
    (m_args op).

(** [ad_assert(rv.size() == n)], then one [ad_accum_grad] per slot. *)
Definition CallOp_accum (n : nat) (indices rv : list Z) : M unit :=
  if negb (length rv =? n)%nat then raise (External "Size mismatch!")
  else for_each (seq 0 n)
         (fun i (_ : unit) =>
            _ <- vget indices i ;; _ <- vget rv i ;; ret tt) tt.

(** [CallOp::forward]; [this] is the address of the operation. *)
Definition CallOp_forward (env : Env) (this : Z) (op : CallOp) : M unit :=
  args <- CallOp_args op (length (m_input_offsets op)) (m_input_indices op) ;;
  r <- ad_call env (m_backend op) (m_domain op) (m_callable_count op)
         (m_name op ++ " [ad, fwd]")%string false (m_index op) (m_mask op)
         args [] this (forward_cb op) false false ;;
  CallOp_accum (length (m_output_offsets op)) (m_output_indices op) (snd r).

(** [CallOp::backward] *)
Definition CallOp_backward (env : Env) (this : Z) (op : CallOp) : M unit :=
  args <- CallOp_args op (length (m_output_offsets op)) (m_output_indices op) ;;
  r <- ad_call env (m_backend op) (m_domain op) (m_callable_count op)
         (m_name op ++ " [ad, bwd]")%string false (m_index op) (m_mask op)
         args [] this (backward_cb op) false false ;;
  CallOp_accum (length (m_input_offsets op)) (m_input_indices op) (snd r).

(** ** if_stmt (src/python/if_stmt.cpp) *)

(** The double quote of the messages. *)
Definition dquote : string := String (Ascii.ascii_of_nat 34) EmptyString.

(** What [if_stmt] inspects of the type of [cond]. *)
Record ArraySupplement := mkSupp {
  s_type : VarType;
  s_ndim : nat;
  s_backend : JitBackend
}.

Inductive PyObject :=
| PyBool (b : bool)                                (* type is PyBool_Type *)
| PyDrJit (s : ArraySupplement) (index : Z)        (* is_drjit_type(tp) *)
| PyOther.

Inductive PyExn :=
| PythonError (what : string)       (* nb::python_error *)
| StdException (what : string).     (* nb::raise, nb::cast_error *)

Inductive IfEvent :=
| IfTrueFn
| IfFalseFn
| IfAdCond (backend : JitBackend) (symbolic : Z) (cond_index : Z).

Section IfStmt.
(** the state tuple and the value a branch returns *)
Context {Args Rv : Type}.
(** [tuple_call(true_fn, args)] and [tuple_call(false_fn, args)] *)
Variable true_fn false_fn : Args -> PyExn + Rv.
(** [ad_cond] with the callbacks of this file: the branch calls it makes
    and the value it leaves in [is->rv] *)
Variable ad_cond : JitBackend -> Z -> Z -> Args -> list IfEvent * (PyExn + Rv).

(** [nb::cast<bool>(cond)], nanobind's conversion to [bool] *)
Variable cast_bool : PyObject -> PyExn + bool.

(** Lines 138-155: the condition of a non-scalar statement. *)
Definition if_stmt_cond (cond : PyObject) : PyExn + (JitBackend * Z) :=
  let found :=
    match cond with
    | PyDrJit s index =>
        if type_eqb (s_type s) VT_Bool && (s_ndim s =? 1)%nat
           && negb (backend_eqb (s_backend s) Backend_None)
        then
          let cond_index := lo32 index in
          if cond_index =? 0 then inl (StdException "'cond' cannot be empty.")
          else inr (s_backend s, cond_index)
        else inr (Backend_None, 0)
    | _ => inr (Backend_None, 0)
    end in
  match found with
  | inl e => inl e
  | inr (backend, cond_index) =>
      if cond_index =? 0
      then inl (StdException
                  "'cond' must either be a Jit-compiled 1D Boolean array or a Python 'bool'.")
      else inr (backend, cond_index)
  end.

(** The body of the [try] block (lines 128-195).  What follows [ad_cond]
    (lines 186-195: the result is uncopied and the state released) is part
    of [ad_cond] here. *)
Definition if_stmt_body (args : Args) (cond : PyObject) (mode : string)
  : list IfEvent * (PyExn + Rv) :=
  let is_auto := String.eqb mode "auto" in
  let is_scalar :=
    if is_auto then match cond with PyBool _ => true | _ => false end
    else String.eqb mode "scalar" in
  let checked :=
    if negb is_scalar then if_stmt_cond cond else inr (Backend_None, 0) in
  match checked with
  | inl e => ([], inl e)
  | inr (backend, cond_index) =>
      if is_scalar then
        match cast_bool cond with
        | inl e => ([], inl e)
        | inr true => ([IfTrueFn], true_fn args)
        | inr false => ([IfFalseFn], false_fn args)
        end
      else
        let symbolic :=
          if is_auto then inr (-1)
          else if String.eqb mode "symbolic" then inr 1
          else if String.eqb mode "evaluated" then inr 0
          else inl (StdException
                      ("invalid 'mode' argument (must equal "
                       ++ dquote ++ "auto" ++ dquote ++ ", "
                       ++ dquote ++ "scalar" ++ dquote ++ ", "
                       ++ dquote ++ "symbolic" ++ dquote ++ ", or "
                       ++ dquote ++ "evaluated" ++ dquote ++ ").")%string) in
        match symbolic with
        | inl e => ([], inl e)
        | inr symbolic =>
            let r := ad_cond backend symbolic cond_index args in
            (IfAdCond backend symbolic cond_index :: fst r, snd r)
        end
  end.

(** [if_stmt]: every exception leaves as a Python [RuntimeError]. *)
Definition if_stmt (args : Args) (cond : PyObject) (mode : string)
  : list IfEvent * (PyExn + Rv) :=
  let r := if_stmt_body args cond mode in
  (fst r,
   match snd r with
   | inl (PythonError _) =>
       inl (PythonError "dr.if_stmt(): encountered an exception (see above).")
   | inl (StdException what) =>
       inl (PythonError ("dr.if_stmt(): " ++ what)%string)
   | inr rv => inr rv
   end).
End IfStmt.

(** ** LoopState::traverse (the while-loop state tracker) *)

Inductive LoopExn :=
| LoopStateChanged (name : string)
| LoopSizeConflict (name : string) (s1 s2 : Z)
| LoopSizeIncompatible (name : string) (loop_size s2 : Z)
| InternalInvariant.

Record Entry := mkEntry {
  e_name : string;
  e_type : Z;
  e_id : Z;
  e_size : Z
}.

Record LoopState := mkLoopState {
  entries : list Entry;
  first_time : bool;
  entry_pos : nat;
  indices_pos : nat;
  loop_size : Z
}.

(** One object that the recursive walk visits, in the order of the walk:
    its path-derived name, its type and, for a Jit array ([s.index] is
    set), the index [s.index(inst_ptr(h))].  The walk itself (containers,
    the pointer stack that guards against cycles) is taken as done. *)
Record Visit := mkVisit {
  vis_name : string;
  vis_type : Z;
  vis_index : option Z
}.

Section LoopStateTraverse.
(** [jit_var_size] and [jit_var_is_dirty] *)
Variable var_size : Z -> Z.
Variable var_is_dirty : Z -> bool.
(** the template parameter [Write] and, for it, the argument [indices] *)
Variable Write : bool.
Variable indices : list Z.

(** Lines 414-458, on the entry [e] of the leaf.  [i1] is a copy of the
    entry's id, [s1] a reference to its size: only the size is stored.
    The result is the entry, [indices_pos], [loop_size] and the index
    appended to the output when reading. *)
Definition traverse_leaf (first : bool) (name : string) (e : Entry) (i2 : Z)
    (ipos : nat) (lsize : Z) : LoopExn + (Entry * nat * Z * option Z) :=
  let i1 := e_id e in
  let s1 := e_size e in
  let s2 := var_size (lo32 i2) in
  if negb first && negb (s1 =? s2) && negb (s1 =? 1) && negb (s2 =? 1) then
    inl (LoopSizeConflict name s1 s2)
  else
    let check_loop :=
      if negb (lsize =? s2) && negb (i1 =? i2) && negb (var_is_dirty (lo32 i2)) then
        if negb (lsize =? 1) && negb (s2 =? 1)
        then inl (LoopSizeIncompatible name lsize s2)
        else inr (Z.max lsize s2)
      else inr lsize in
    match check_loop with
    | inl x => inl x
    | inr lsize' =>
        if Write then
          match nth_error indices ipos with
          | None => inl InternalInvariant
          | Some i2' =>
              inr (mkEntry (e_name e) (e_type e) (e_id e) (var_size (lo32 i2')),
                   S ipos, lsize', None)
          end
        else
          inr (mkEntry (e_name e) (e_type e) (e_id e) s2, ipos, lsize', Some i2)
    end.

(** Lines 358-395 followed by the leaf case: one visited object. *)
Definition traverse_visit (v : Visit) (st : LoopState * list Z)
  : LoopExn + (LoopState * list Z) :=
  let '(ls, out) := st in
  let located :=
    if first_time ls then
      inr (length (entries ls),
           entries ls ++ [mkEntry (vis_name v) (vis_type v) 0 0], entry_pos ls)
    else
      let id := entry_pos ls in
      match nth_error (entries ls) id with
      | None => inl (LoopStateChanged (vis_name v))
      | Some e =>
          if negb (String.eqb (vis_name v) (e_name e))
          then inl (LoopStateChanged (e_name e))
          else if negb (vis_type v =? e_type e)
          then inl (LoopStateChanged (vis_name v))
          else inr (id, entries ls, S id)
      end in
  match located with
  | inl x => inl x
  | inr (id, ents, epos) =>
      match vis_index v with
      | None =>
          inr (mkLoopState ents (first_time ls) epos (indices_pos ls) (loop_size ls),
               out)
      | Some i2 =>
          match traverse_leaf (first_time ls) (vis_name v)
                  (nth id ents (mkEntry "" 0 0 0)) i2
                  (indices_pos ls) (loop_size ls) with
          | inl x => inl x
          | inr (e', ipos, lsize, pushed) =>
              inr (mkLoopState (firstn id ents ++ e' :: skipn (S id) ents)
                               (first_time ls) epos ipos lsize,
                   match pushed with Some i => out ++ [i] | None => out end)
          end
      end
  end.

Fixpoint traverse_visits (vs : list Visit) (st : LoopState * list Z)
  : LoopExn + (LoopState * list Z) :=
  match vs with
  | [] => inr st
  | v :: rest =>
      match traverse_visit v st with
      | inl x => inl x
      | inr st' => traverse_visits rest st'
      end
  end.

(** [LoopState::traverse<Write>(indices)] (lines 320-343) on the objects
    the walk of [state] visits. *)
Definition traverse (vs : list Visit) (ls : LoopState)
  : LoopExn + (LoopState * list Z) :=
  let ls0 := mkLoopState (entries ls) (first_time ls) 0
                         (if Write then O else indices_pos ls) (loop_size ls) in
  match traverse_visits vs (ls0, []) with
  | inl x => inl x
  | inr (ls', out) =>
      if Write && negb (indices_pos ls' =? length indices)%nat
      then inl InternalInvariant
      else inr (mkLoopState (entries ls') false (entry_pos ls')
                            (indices_pos ls') (loop_size ls'), out)
  end.
End LoopStateTraverse.

(** ** while_loop (the loop driver next to LoopState)

    [check_state], [check_cond] and [while_loop].  The condition and the
    body are Python callables on the state tuple; the scalar loop may run
    forever, so it takes the number of iterations it may make. *)

Inductive LoopEvent :=
| WlCond                                          (* tuple_call(cond, state) *)
| WlBody                                          (* tuple_call(body, state) *)
| WlAdLoop (backend : JitBackend) (symbolic : Z).

Section WhileLoop.
(** the state tuple *)
Context {State : Type}.
(** [nb::len] of a state tuple and [nb::type_name] of the type of an object *)
Variable len : State -> nat.
Variable type_name : PyObject -> string.
(** [tuple_call(cond, state)] *)
Variable cond : State -> PyExn + PyObject.
(** [tuple_call(body, state)]: a tuple, or [None] for any other object *)
Variable body : State -> PyExn + option State.
(** [nb::cast<bool>(cond_val)] *)
Variable cast_bool : PyObject -> PyExn + bool.
(** [ad_loop] with the callbacks of this file: the calls it makes and the
    state it leaves.  What follows [ad_loop] (the result is uncopied and
    the payload released) is part of [ad_loop] here. *)
Variable ad_loop : JitBackend -> Z -> State -> list LoopEvent * (PyExn + State).

Definition check_state (name : string) (o : option State) (old_state : State)
  : PyExn + State :=
  match o with
  | None =>
      inl (StdException ("the '" ++ name ++ "' function must return a tuple."))
  | Some o_t =>
      if negb (len o_t =? len old_state)%nat
      then inl (StdException
                  ("the '" ++ name
                   ++ "' function returned a tuple with an inconsistent size."))
      else inr o_t
  end%string.

Definition check_cond (h : PyObject) : PyExn + ArraySupplement :=
  let unsupported :=
    StdException
      ("the type of the loop condition ('" ++ type_name h
       ++ "') is not supported. You must either provide a 1D Dr.Jit boolean array or a Python 'bool' value.")%string in
  match h with
  | PyDrJit s _ =>
      if type_eqb (s_type s) VT_Bool && (s_ndim s =? 1)%nat then inr s
      else inl unsupported
  | _ => inl unsupported
  end.

(** The scalar loop; [fuel] bounds the iterations, and [None] is a loop
    that needs more. *)
Fixpoint while_loop_scalar (fuel : nat) (state : State) (cond_val : PyObject)
  : option (list LoopEvent * (PyExn + State)) :=
  match cast_bool cond_val with
  | inl e => Some ([], inl e)
  | inr false => Some ([], inr state)
  | inr true =>
      match fuel with
      | O => None
      | S fuel =>
          match body state with
          | inl e => Some ([WlBody], inl e)
          | inr o =>
              match check_state "body" o state with
              | inl e => Some ([WlBody], inl e)
              | inr state' =>
                  match cond state' with
                  | inl e => Some ([WlBody; WlCond], inl e)
                  | inr cond_val' =>
                      match while_loop_scalar fuel state' cond_val' with
                      | None => None
                      | Some r => Some (WlBody :: WlCond :: fst r, snd r)
                      end
                  end
              end
          end
      end
  end.

(** The body of the [try] block of [while_loop].  The copy of the state
    that precedes [check_cond] is taken to succeed. *)
Definition while_loop_body (fuel : nat) (state : State) (method : string)
  : option (list LoopEvent * (PyExn + State)) :=
  let auto_loop := String.eqb method "auto" in
  match cond state with
  | inl e => Some ([WlCond], inl e)
  | inr cond_val =>
      let scalar_loop :=
        if auto_loop
        then match cond_val with PyBool _ => true | _ => false end
        else String.eqb method "scalar" in
      if scalar_loop then
        match while_loop_scalar fuel state cond_val with
        | None => None
        | Some r => Some (WlCond :: fst r, snd r)
        end
      else
        match check_cond cond_val with
        | inl e => Some ([WlCond], inl e)
        | inr s =>
            let backend := s_backend s in
            let symbolic :=
              if auto_loop then inr (-1)
              else if String.eqb method "symbolic" then inr 1
              else if String.eqb method "evaluate" then inr 0
              else inl (StdException
                          ("invalid 'method' argument (must equal "
                           ++ dquote ++ "auto" ++ dquote ++ ", "
                           ++ dquote ++ "scalar" ++ dquote ++ ", "
                           ++ dquote ++ "symbolic" ++ dquote ++ ", or "
                           ++ dquote ++ "evaluate" ++ dquote ++ ").")%string) in
            match symbolic with
            | inl e => Some ([WlCond], inl e)
            | inr symbolic =>
                let r := ad_loop backend symbolic state in
                Some (WlCond :: WlAdLoop backend symbolic :: fst r, snd r)
            end
        end
  end.

(** [while_loop]: every exception leaves as a Python [RuntimeError]. *)
Definition while_loop (fuel : nat) (state : State) (method : string)
  : option (list LoopEvent * (PyExn + State)) :=
  match while_loop_body fuel state method with
  | None => None
  | Some r =>
      Some (fst r,
            match snd r with
            | inl (PythonError _) =>
                inl (PythonError
                       "dr.while_loop(): encountered an exception (see above).")
            | inl (StdException what) =>
                inl (PythonError ("dr.while_loop(): " ++ what)%string)
            | inr rv => inr rv
            end)
  end.
End WhileLoop.

(** * Vocabulary of the properties *)

(** [emits P c]: whatever the outcome, [c] only appends events that
    satisfy [P]. *)
Definition emits (P : Event -> Prop) {A} (c : M A) : Prop :=
  forall w, exists l, log (snd (c w)) = log w ++ l /\ Forall P l.

(** The events that come from the bookkeeping of a strategy. *)
Definition structural (e : Event) : Prop :=
  match e with
  | EvFunc _ _ | EvCleanup _ | EvCallOpNew _ | EvCallOpDelete _ => False
  | _ => True
  end.

Definition no_args_forwarded (e : Event) : Prop :=
  match e with
  | EvFunc _ args => args = []
  | _ => True
  end.

Definition not_CallOp_new (e : Event) : Prop :=
  match e with
  | EvCallOpNew _ => False
  | _ => True
  end.


(** How often [cleanup(payload)] ran. *)
Definition is_cleanup (payload : Z) (e : Event) : bool :=
  match e with
  | EvCleanup p => p =? payload
  | _ => false
  end.

Definition count_cleanup (payload : Z) (l : list Event) : nat :=
  length (filter (is_cleanup payload) l).

(** The values pushed onto the self stack, in order. *)
Fixpoint self_pushes (l : list Event) : list (Z * Z) :=
  match l with
  | [] => []
  | EvSelfPush value index :: t => (value, index) :: self_pushes t
  | _ :: t => self_pushes t
  end.

(** Does a traversal step fail with the size-change error? *)
Definition is_size_conflict {A} (r : LoopExn + A) : bool :=
  match r with
  | inl (LoopSizeConflict _ _ _) => true
  | _ => false
  end.

(** Does it fail because the leaf does not fit the size of the loop? *)
Definition is_size_incompatible {A} (r : LoopExn + A) : bool :=
  match r with
  | inl (LoopSizeIncompatible _ _ _) => true
  | _ => false
  end.


(** ** Concrete inputs *)

(** A table with an index array (handle 1) and a float array (handle 2),
    both of four lanes. *)
Definition ex_world : World :=
  mkWorld [ mkVar OpUser CUDA VT_UInt32 Evaluated 4;
            mkVar OpUser CUDA VT_Float32 Evaluated 4 ]
          2 100 0 0 [].

(** A callable that returns one fresh float array of four lanes. *)
Definition ex_func : ad_call_func :=
  fun payload ptr args rv vs adn =>
    mkUserOut [mkVar OpUser CUDA VT_Float32 Unevaluated 4] 0
              (Ok (rv ++ [Z.of_nat (length vs) + 1])).

(** A callable that returns an empty (zero) handle. *)
Definition ex_func_empty : ad_call_func :=
  fun payload ptr args rv vs adn => mkUserOut [] 0 (Ok (rv ++ [0])).

(** Symbolic calls on; [ad_custom_op] raises. *)
Definition ex_env_raises : Env :=
  mkEnv 0 (fun _ => 0) true false [] (fun i _ => negb (i =? 0))
        (Raises (External "ad_custom_op")).

(** Evaluated calls; every lane selects callable 2, so the only bucket has
    id 2 and two lanes. *)
Definition ex_env_bucket2 : Env :=
  mkEnv 0 (fun _ => 0) false false [(2, 2)] (fun i _ => negb (i =? 0)) Attached.

(** A condition array and the pass-through pieces of an if-statement. *)
Definition ex_cast_bool (cond : PyObject) : PyExn + bool :=
  match cond with
  | PyBool b => inr b
  | _ => inl (StdException "std::bad_cast")
  end.

Definition ex_branch (tag : Z) (args : Z) : PyExn + Z := inr (tag + args).

Definition ex_ad_cond (backend : JitBackend) (symbolic cond_index : Z) (args : Z)
  : list IfEvent * (PyExn + Z) := ([IfTrueFn; IfFalseFn], inr args).

(** Loop state: handle 5 has four lanes, every other handle one. *)
Definition ex_var_size (h : Z) : Z := if h =? 5 then 4 else 1.

Definition ex_loop_state : LoopState := mkLoopState [] true 0 0 1.




(** Two results for [check_rv]: what a callable on the LLVM backend returns
    (handle 1) and what one on the CUDA backend returns (handle 2). *)
Definition ex_world_backends : World :=
  mkWorld [ mkVar OpUser LLVM VT_Float32 Evaluated 4;
            mkVar OpUser CUDA VT_Float32 Evaluated 4 ]
          1 100 0 0 [].


(** ** Lane values *)




(** [w'] has the variables of [w] and possibly more. *)
Definition extends (w w' : World) : Prop := exists l, vars w' = vars w ++ l.

(** A computation that, when it returns, has only added variables. *)
Definition mono {A} (c : M A) : Prop :=
  forall w a w', c w = (Ok a, w') -> extends w w'.


(** A computation that leaves the variable table as it is. *)
Definition keeps {A} (c : M A) : Prop := forall w, vars (snd (c w)) = vars w.






(** A getter: callable [ptr] returns the literal [ptr + 10]. *)
Definition ex_getter : ad_call_func :=
  fun payload ptr args rv vs adn =>
    mkUserOut [mkVar (OpLiteral (ptr + 10)) CUDA VT_Float32 Literal 1] 0
              (Ok (rv ++ [Z.of_nat (length vs) + 1])).

Definition ex_env : Env :=
  mkEnv 0 (fun _ => 0) true false [] (fun i _ => negb (i =? 0)) Attached.




(** A handle whose IR part is not zero. *)
Definition nz (h : Z) : Prop := lo32 h <> 0.

(** What a computation that returns has returned. *)
Definition post {A} (c : M A) (Q : A -> Prop) : Prop :=
  forall w a w', c w = (Ok a, w') -> Q a.


(** Evaluated calls with no bucket at all (no lane selects a callable). *)
Definition ex_env_no_bucket : Env :=
  mkEnv 0 (fun _ => 0) false false [] (fun i _ => negb (i =? 0)) Attached.

(** A dispatch through the getter. *)
Definition ex_call_run : Res (bool * list Z) * World :=
  ad_call ex_env CUDA None 2 "f" true 1 0 [] [] 77 ex_getter true true ex_world.

(** ** Vocabulary of the further properties *)

(** An operand size that fits the unified size: equal to it, or 1 (the
    operand broadcasts). *)
Definition fits (size s : Z) : Prop := s = size \/ s = 1.

(** Is an argument tracked by the AD engine? *)
Definition is_tracked (arg : Z) : bool := negb (hi32 arg =? 0).

(** [domain != nullptr] *)
Definition has_domain (domain : option string) : bool :=
  match domain with Some _ => true | None => false end.

(** The depth of the mask stack and of the recording scopes, as the log
    shows them: every push or begin counts +1, every pop or end -1. *)
Definition mask_delta (e : Event) : Z :=
  match e with
  | EvMaskPush _ => 1
  | EvMaskPop => -1
  | _ => 0
  end.

Definition record_delta (e : Event) : Z :=
  match e with
  | EvRecordBegin => 1
  | EvRecordEnd _ => -1
  | _ => 0
  end.

Fixpoint mask_depth (l : list Event) : Z :=
  match l with
  | [] => 0
  | e :: t => mask_delta e + mask_depth t
  end.

Fixpoint record_depth (l : list Event) : Z :=
  match l with
  | [] => 0
  | e :: t => record_delta e + record_depth t
  end.

(** The scoped state of the backend: the current self and the two depths. *)
Definition scopes (w : World) : Z * Z * Z * Z :=
  (self_value w, self_index w, mask_depth (log w), record_depth (log w)).

(** A computation that leaves the scoped state as it found it, whether it
    returns or throws. *)
Definition restores {A} (c : M A) : Prop :=
  forall w, fst (c w) <> Undefined -> scopes (snd (c w)) = scopes w.

(** An event that belongs to no scope. *)
Definition scopeless (e : Event) : Prop :=
  mask_delta e = 0 /\ record_delta e = 0.

(** How many CallOps were constructed. *)
Definition is_CallOp_new (e : Event) : bool :=
  match e with
  | EvCallOpNew _ => true
  | _ => false
  end.

Definition count_CallOp_new (l : list Event) : nat :=
  length (filter is_CallOp_new l).

(** An event that is neither a cleanup nor the construction of a CallOp. *)
Definition calm (e : Event) : Prop :=
  match e with
  | EvCleanup _ | EvCallOpNew _ => False
  | _ => True
  end.

Definition not_cleanup (e : Event) : Prop :=
  match e with
  | EvCleanup _ => False
  | _ => True
  end.

(** The cleanup account of a computation that owns [payload]: on return no
    cleanup has run; on a throw, one cleanup has run per CallOp that was
    constructed, of which there is at most one. *)
Definition cleanup_account (payload : Z) {A} (c : M A) : Prop :=
  forall w, exists l,
    log (snd (c w)) = log w ++ l /\
    match fst (c w) with
    | Ok _ => count_cleanup payload l = 0%nat
    | Throw _ => count_cleanup payload l = count_CallOp_new l /\
                 (count_CallOp_new l <= 1)%nat
    | Undefined => True
    end.

(** A computation that writes nothing to the log and leaves the current
    self alone. *)
Definition quiet {A} (c : M A) : Prop :=
  forall w, log (snd (c w)) = log w /\
            self_value (snd (c w)) = self_value w /\
            self_index (snd (c w)) = self_index w.

(** Is callable [i] (0-based) visited by the recording strategy and by the
    getter?  With a domain, ids that the registry does not know are
    skipped. *)
Definition active (env : Env) (domain : option string) (i : nat) : bool :=
  match domain with
  | Some _ => negb (jit_registry_ptr env (Z.of_nat i + 1) =? 0)
  | None => true
  end.

(** The instance pointer of callable [i]. *)
Definition instance_ptr (env : Env) (domain : option string) (i : nat) : Z :=
  match domain with
  | Some _ => jit_registry_ptr env (Z.of_nat i + 1)
  | None => Z.of_nat i
  end.

(** What the recording strategy logs for callable [i]: self is set to the
    id [i + 1], the callable runs on [args2], self is put back to
    [(sv, si)]. *)
Definition record_events (env : Env) (domain : option string) (args2 : list Z)
    (sv si : Z) (i : nat) : list Event :=
  if active env domain i then
    [EvSelfPush (Z.of_nat i + 1) 0;
     EvFunc (instance_ptr env domain i) args2;
     EvSelfPop sv si]
  else [].

(** The entry of callable [i] in [inst_id]. *)
Definition record_inst_id (env : Env) (domain : option string) (i : nat) : Z :=
  if active env domain i then Z.of_nat i + 1 else 0.


(** No callable is invoked on a null instance pointer. *)
Definition no_null_instance (e : Event) : Prop :=
  match e with
  | EvFunc ptr _ => ptr <> 0
  | _ => True
  end.

(** An event other than the begin or the end of a recording. *)
Definition not_record (e : Event) : Prop :=
  match e with
  | EvRecordBegin | EvRecordEnd _ => False
  | _ => True
  end.

(** A callable that throws. *)
Definition ex_func_throws : ad_call_func :=
  fun payload ptr args rv vs adn => mkUserOut [] 0 (Throw (External "user")).

(** What the degenerate case makes of the handle [x] that the callable left
    in a return slot: zero stays zero; anything else becomes [h], a fresh
    zero literal of the unified size on the backend of the dispatch, of the
    type of [x] when [x] was a variable of the table [vs_f] that the
    callable left. *)
Definition degenerate_slot (backend : JitBackend) (size : Z) (vs_f vs' : list Var)
    (x h : Z) : Prop :=
  if x =? 0 then h = 0
  else
    nz h /\ h <= Z.of_nat (length vs') /\
    v_op (lookup vs' h) = OpLiteral 0 /\
    v_size (lookup vs' h) = size /\
    v_backend (lookup vs' h) = backend /\
    (lo32 x <= Z.of_nat (length vs_f) ->
     v_type (lookup vs' h) = v_type (lookup vs_f (lo32 x))).

(** Evaluated calls while a symbolic region is active. *)
Definition ex_env_symbolic : Env :=
  mkEnv 0 (fun _ => 0) false true [(1, 4)] (fun i _ => negb (i =? 0)) Attached.

(** The condition types that a non-scalar [if_stmt] accepts (lines 143-144):
    a Jit-compiled one-dimensional boolean array. *)
Definition jit_bool_1d (s : ArraySupplement) : bool :=
  type_eqb (s_type s) VT_Bool && (s_ndim s =? 1)%nat
  && negb (backend_eqb (s_backend s) Backend_None).

(** [known_mode mode]: one of the four spellings that [if_stmt] compares
    [mode] with. *)
Definition known_mode (mode : string) : Prop :=
  mode = "auto"%string \/ mode = "scalar"%string \/
  mode = "symbolic"%string \/ mode = "evaluated"%string.

(** An [ad_cond] that fails in Python after it ran the first branch. *)
Definition ex_ad_cond_fails (backend : JitBackend) (symbolic cond_index : Z)
    (args : Z) : list IfEvent * (PyExn + Z) :=
  ([IfTrueFn], inl (PythonError "TypeError")).

(** The indices of the Jit arrays among the visited objects, in the order
    of the walk. *)
Definition leaf_indices (vs : list Visit) : list Z :=
  flat_map (fun v => match vis_index v with Some i => [i] | None => [] end) vs.

(** The entry that a first reading pass leaves for a visited object. *)
Definition first_entry (var_size : Z -> Z) (v : Visit) : Entry :=
  mkEntry (vis_name v) (vis_type v) 0
          (match vis_index v with Some i => var_size (lo32 i) | None => 0 end).

(** A pair of arrays of four lanes inside a tuple, as the walk visits it. *)
Definition ex_visits : list Visit :=
  [mkVisit "arg0" 9 None; mkVisit "arg0[0]" 0 (Some 5);
   mkVisit "arg0[1]" 0 (Some (combine 1 5))].

(** The tracker after a first reading pass over [ex_visits], and after a
    later one. *)
Definition ex_loop_state_1 : LoopState :=
  mkLoopState [mkEntry "arg0" 9 0 0; mkEntry "arg0[0]" 0 0 4;
               mkEntry "arg0[1]" 0 0 4] false 0 0 4.

Definition ex_loop_state_2 : LoopState :=
  mkLoopState (entries ex_loop_state_1) false 3 0 4.

(** The tracker after a writing pass that stores the arrays 7 and 8. *)
Definition ex_loop_state_w : LoopState :=
  mkLoopState [mkEntry "arg0" 9 0 0; mkEntry "arg0[0]" 0 0 1;
               mkEntry "arg0[1]" 0 0 1] false 3 2 4.

(** The events of a scalar loop that ran its body [k] times. *)
Definition scalar_events (k : nat) : list LoopEvent :=
  WlCond :: concat (repeat [WlBody; WlCond] k).

(** [known_method method]: one of the four spellings that [while_loop]
    compares [method] with. *)
Definition known_method (method : string) : Prop :=
  method = "auto"%string \/ method = "scalar"%string \/
  method = "symbolic"%string \/ method = "evaluate"%string.

(** A countdown: the state is a counter, the loop runs while it is
    positive and the body decrements it. *)
Definition ex_loop_cond (n : nat) : PyExn + PyObject :=
  inr (PyBool (negb (n =? 0)%nat)).

Definition ex_loop_body (n : nat) : PyExn + option nat := inr (Some (pred n)).

Definition ex_ad_loop (backend : JitBackend) (symbolic : Z) (state : nat)
  : list LoopEvent * (PyExn + nat) := ([WlCond; WlBody; WlCond], inr state).

(** A loop whose condition is an array. *)
Definition ex_array_cond (s : ArraySupplement) (n : nat) : PyExn + PyObject :=
  inr (PyDrJit s 0).

(** [self_in_range n e]: if [e] sets the self value, that value is a
    position between 1 and [n]. *)
Definition self_in_range (n : nat) (e : Event) : Prop :=
  match e with
  | EvSelfPush value _ => 1 <= value <= Z.of_nat n
  | _ => True
  end.

(** A domain of two instances of which the second (resp. the first) has left
    the registry: the id bound is still 2, and [jit_registry_ptr] is null
    for the instance that is gone. *)
Definition ex_env_last_gone : Env :=
  mkEnv 2 (fun id => if id =? 1 then 7 else 0) true false []
        (fun i _ => negb (i =? 0)) Attached.

Definition ex_env_first_gone : Env :=
  mkEnv 2 (fun id => if id =? 2 then 8 else 0) true false []
        (fun i _ => negb (i =? 0)) Attached.

(** Two sizes that one leaf may have on successive passes: equal, or one of
    them 1. *)
Definition size_compatible (s1 s2 : Z) : Prop := s1 = s2 \/ s1 = 1 \/ s2 = 1.

(** Sizes for a state whose array 6 has two lanes. *)
Definition ex_var_size_2 (h : Z) : Z := if h =? 6 then 2 else 4.

(** A callable that returns the LLVM array (handle 1) of
    [ex_world_backends], whatever the instance. *)
Definition ex_func_llvm : ad_call_func :=
  fun payload ptr args rv vs adn => mkUserOut [] 0 (Ok (rv ++ [1])).

(** A dispatch on a domain without instances: the degenerate case. *)
Definition ex_degenerate_run : Res (bool * list Z) * World :=
  ad_call ex_env CUDA (Some "Base"%string) 0 "f" false 1 0 [2] [] 77 ex_func
          true true ex_world.

(** * Properties *)

(** ** What a computation appends to the log *)

Lemma emits_silent {A} P (c : M A) :
  (forall w, log (snd (c w)) = log w) -> emits P c.
Proof.
  intros H w. exists []. rewrite H, app_nil_r. auto.
Qed.

Lemma emits_ret {A} P (a : A) : emits P (ret a).
Proof. now apply emits_silent. Qed.

Lemma emits_raise {A} P e : emits P (@raise A e).
Proof. now apply emits_silent. Qed.

Lemma emits_undefined {A} P : emits P (@undefined A).
Proof. now apply emits_silent. Qed.

Lemma emits_get_vars P : emits P get_vars.
Proof. now apply emits_silent. Qed.

Lemma emits_new_var P v : emits P (new_var v).
Proof.
  apply emits_silent. intros w. unfold new_var.
  now destruct (_ <? _).
Qed.

Lemma emits_jit_malloc P : emits P jit_malloc.
Proof. now apply emits_silent. Qed.

Lemma emits_ad_var_new P j : emits P (ad_var_new j).
Proof. now apply emits_silent. Qed.

Lemma emits_set_self P v i : emits P (jit_var_set_self v i).
Proof. now apply emits_silent. Qed.

Lemma emits_vget P v i : emits P (vget v i).
Proof. unfold vget. destruct (nth_error v i); now apply emits_silent. Qed.

Lemma emits_vput {A} P (v : list A) i x : emits P (vput v i x).
Proof. unfold vput. destruct (vset v i x); now apply emits_silent. Qed.

Lemma emits_emit P e : P e -> emits P (emit e).
Proof.
  intros H w. exists [e]. split; [reflexivity | auto].
Qed.

Lemma emits_bind_post {A B} P (c : M A) (k : A -> M B) :
  emits P c ->
  (forall w a w', c w = (Ok a, w') -> emits P (k a)) ->
  emits P (bind c k).
Proof.
  intros Hc Hk w. unfold bind.
  destruct (Hc w) as [l1 [E1 F1]].
  destruct (c w) as [[a | e |] w'] eqn:Ec; simpl in E1.
  - destruct (Hk w a w' Ec w') as [l2 [E2 F2]].
    exists (l1 ++ l2). rewrite E2, E1, app_assoc. split; [reflexivity|].
    apply Forall_app; auto.
  - exists l1. auto.
  - exists l1. auto.
Qed.

Lemma emits_bind {A B} P (c : M A) (k : A -> M B) :
  emits P c -> (forall a, emits P (k a)) -> emits P (bind c k).
Proof.
  intros Hc Hk. apply emits_bind_post; auto.
Qed.

Lemma emits_scoped {A} P (leave : M unit) (body : M A) :
  emits P leave -> emits P body -> emits P (scoped leave body).
Proof.
  intros Hl Hb w. unfold scoped.
  destruct (Hb w) as [l1 [E1 F1]].
  destruct (body w) as [[a | e |] w'] eqn:Eb; simpl in E1.
  - destruct (Hl w') as [l2 [E2 F2]].
    exists (l1 ++ l2). split; [|apply Forall_app; auto].
    destruct (leave w') as [[u | e |] w'']; simpl in *;
      now rewrite E2, E1, app_assoc.
  - destruct (Hl w') as [l2 [E2 F2]].
    exists (l1 ++ l2). split; [|apply Forall_app; auto].
    simpl. now rewrite E2, E1, app_assoc.
  - exists l1. auto.
Qed.

Lemma emits_try_rethrow {A} P (body : M A) (handler : M unit) :
  emits P body -> emits P handler -> emits P (try_rethrow body handler).
Proof.
  intros Hb Hh w. unfold try_rethrow.
  destruct (Hb w) as [l1 [E1 F1]].
  destruct (body w) as [[a | e |] w'] eqn:Eb; simpl in E1.
  - exists l1. auto.
  - destruct (Hh w') as [l2 [E2 F2]].
    exists (l1 ++ l2). split; [|apply Forall_app; auto].
    simpl. now rewrite E2, E1, app_assoc.
  - exists l1. auto.
Qed.

Lemma emits_for_each {S A} P (body : A -> S -> M S) (l : list A) :
  (forall a s, emits P (body a s)) -> forall s, emits P (for_each l body s).
Proof.
  intros H. induction l as [|a t IH]; intros s; simpl.
  - apply emits_ret.
  - apply emits_bind; auto.
Qed.

Lemma emits_call_func P func payload ptr args rv :
  P (EvFunc ptr args) -> emits P (call_func func payload ptr args rv).
Proof.
  intros H. unfold call_func. apply emits_bind.
  - now apply emits_emit.
  - intros _. now apply emits_silent.
Qed.

Lemma emits_scoped_set_mask {A} P index (body : M A) :
  (forall e, structural e -> P e) -> emits P body ->
  emits P (scoped_set_mask index body).
Proof.
  intros HS Hb. unfold scoped_set_mask. apply emits_bind.
  - apply emits_emit, HS; exact I.
  - intros _. apply emits_scoped; auto. apply emits_emit, HS; exact I.
Qed.

Lemma emits_scoped_record {A} P disarms (body : M A) :
  (forall e, structural e -> P e) -> emits P body ->
  emits P (scoped_record disarms body).
Proof.
  intros HS Hb. unfold scoped_record. apply emits_bind.
  - apply emits_emit, HS; exact I.
  - intros _ w. destruct (Hb w) as [l1 [E1 F1]].
    destruct (body w) as [[a | e |] w'] eqn:Eb; simpl in E1; simpl.
    + exists (l1 ++ [EvRecordEnd (negb disarms)]).
      rewrite E1, app_assoc. split; [reflexivity|].
      apply Forall_app; split; auto. constructor; auto. apply HS; exact I.
    + exists (l1 ++ [EvRecordEnd true]).
      rewrite E1, app_assoc. split; [reflexivity|].
      apply Forall_app; split; auto. constructor; auto. apply HS; exact I.
    + exists l1. auto.
Qed.

Lemma emits_scoped_set_self {A} P value index (body : M A) :
  (forall e, structural e -> P e) -> emits P body ->
  emits P (scoped_set_self value index body).
Proof.
  intros HS Hb w. unfold scoped_set_self.
  set (c := jit_var_set_self value index ;;; _).
  assert (Hc : emits P c).
  { apply emits_bind; [apply emits_set_self | intros _].
    apply emits_bind; [apply emits_emit, HS; exact I | intros _].
    apply emits_scoped; auto.
    apply emits_bind; [apply emits_set_self | intros _].
    apply emits_emit, HS; exact I. }
  apply Hc.
Qed.

Create HintDb jit discriminated.
#[local] Hint Unfold jit_var_size jit_var_type jit_var_state jit_set_backend
  jit_var_literal jit_var_u32 jit_var_bool jit_var_is_zero_literal jit_var_neq
  jit_var_and jit_var_mem_map jit_var_gather jit_var_call_input
  jit_var_call_mask jit_var_mask_default ad_tag ad_var_gather ad_var_scatter
  ad_grad ad_var_copy unify_size jit_var_read jit_var_data : jit.

Ltac emits_prim :=
  first [ apply emits_ret | apply emits_raise | apply emits_undefined
        | apply emits_get_vars | apply emits_new_var | apply emits_jit_malloc
        | apply emits_ad_var_new | apply emits_vget | apply emits_vput ].

Ltac emits_go HS :=
  repeat (intros; first
    [ emits_prim
    | match goal with
      | |- emits _ (call_func _ _ _ _ _) => apply emits_call_func; solve [auto]
      | |- emits _ (scoped_set_mask _ _) => apply emits_scoped_set_mask; [exact HS|]
      | |- emits _ (scoped_record _ _) => apply emits_scoped_record; [exact HS|]
      | |- emits _ (scoped_set_self _ _ _) => apply emits_scoped_set_self; [exact HS|]
      | |- emits _ (emit _) => apply emits_emit; apply HS; exact I
      | |- emits _ (for_each _ _ _) => apply emits_for_each
      | |- emits _ (bind _ _) => apply emits_bind
      | |- emits _ (if ?b then _ else _) => destruct b
      | |- emits _ (match ?x with _ => _ end) => destruct x
      end
    | progress autounfold with jit ]).

Section Emits.
Variable P : Event -> Prop.
Hypothesis HS : forall e, structural e -> P e.

Lemma emits_check_rv backend size i rv rv2 :
  emits P (ad_call_check_rv backend size i rv rv2).
Proof. unfold ad_call_check_rv. emits_go HS. Qed.

Lemma emits_getter_callable env backend domain size cc func payload i st :
  (forall ptr, P (EvFunc ptr [])) ->
  emits P (getter_callable env backend domain size cc func payload i st).
Proof.
  intros Hf. unfold getter_callable. emits_go HS; apply emits_check_rv.
Qed.

Lemma emits_getter_slot backend index mask cc rv2 rv3 i rv :
  emits P (getter_slot backend index mask cc rv2 rv3 i rv).
Proof. unfold getter_slot, getter_is_literal, getter_entry. emits_go HS. Qed.

Lemma emits_getter env backend domain name size index mask_ cc args rv rv_ad
      func payload :
  (forall ptr, P (EvFunc ptr [])) ->
  emits P (ad_call_getter env backend domain name size index mask_ cc args rv
                          rv_ad func payload).
Proof.
  intros Hf. unfold ad_call_getter, getter_mask, getter_collect.
  emits_go HS; intros;
    first [ now apply emits_getter_callable | apply emits_getter_slot ].
Qed.

Hypothesis HF : forall ptr args, P (EvFunc ptr args).

Lemma emits_record_callable env backend domain size func payload args2 i st :
  emits P (record_callable env backend domain size func payload args2 i st).
Proof.
  unfold record_callable, record_collect. emits_go HS; apply emits_check_rv.
Qed.

Lemma emits_record env backend domain name size index mask_ cc args rv rv_ad
      func payload :
  emits P (ad_call_record env backend domain name size index mask_ cc args rv
                          rv_ad func payload).
Proof.
  unfold ad_call_record, record_wrap_arg, jit_var_call.
  emits_go HS; intros; apply emits_record_callable.
Qed.

Lemma emits_reduce_bucket env backend domain size index memop_mask args func
      payload p st :
  emits P (reduce_bucket env backend domain size index memop_mask args func
                         payload p st).
Proof.
  unfold reduce_bucket, reduce_merge. emits_go HS; apply emits_check_rv.
Qed.

Lemma emits_reduce env backend domain name size index_ mask cc args rv func
      payload :
  emits P (ad_call_reduce env backend domain name size index_ mask cc args rv
                          func payload).
Proof.
  unfold ad_call_reduce, jit_var_call_reduce.
  emits_go HS; intros; apply emits_reduce_bucket.
Qed.

Lemma emits_degenerate backend size args rv func payload :
  emits P (ad_call_degenerate backend size args rv func payload).
Proof.
  unfold ad_call_degenerate. emits_go HS.
Qed.

Lemma emits_prologue env domain cc index mask args :
  emits P (ad_call_prologue env domain cc index mask args).
Proof. unfold ad_call_prologue. emits_go HS. Qed.

Lemma emits_strategy env backend domain cc name is_getter size index mask
      args rv payload func ad :
  emits P (ad_call_strategy env backend domain cc name is_getter size index
                            mask args rv payload func ad).
Proof.
  unfold ad_call_strategy. emits_go HS; intros;
    first [ apply emits_getter; intros; apply HF
          | apply emits_record | apply emits_reduce ].
Qed.
End Emits.

(** With [ad = false] a strategy never asks for a CustomOp. *)
Lemma strategy_ad_false env backend domain cc name is_getter size index mask
      args rv payload func w r w' :
  ad_call_strategy env backend domain cc name is_getter size index mask args rv
                   payload func false w = (Ok r, w') ->
  snd r = false.
Proof.
  unfold ad_call_strategy, bind, ret, raise.
  destruct is_getter.
  - destruct (ad_call_getter _ _ _ _ _ _ _ _ _ _ _ _ _ w) as [[x | e |] w1];
      intros H; inversion H; reflexivity.
  - destruct (flag_vcall_record env).
    + destruct (ad_call_record _ _ _ _ _ _ _ _ _ _ _ _ _ w) as [[x | e |] w1];
        intros H; inversion H; reflexivity.
    + destruct (flag_symbolic env); [discriminate|].
      destruct (ad_call_reduce _ _ _ _ _ _ _ _ _ _ _ _ w) as [[x | e |] w1];
        intros H; inversion H; reflexivity.
Qed.

(** Without AD wrapping the dispatcher emits the events of its strategy and,
    on failure, the cleanup of its handler. *)
Lemma emits_ad_call_no_ad (P : Event -> Prop) env backend domain cc name
      is_getter index mask args rv payload func cleanup :
  (forall e, structural e -> P e) ->
  (forall ptr a, P (EvFunc ptr a)) ->
  P (EvCleanup payload) ->
  emits P (ad_call env backend domain cc name is_getter index mask args rv
                   payload func cleanup false).
Proof.
  intros HS HF HC. unfold ad_call. apply emits_try_rethrow.
  - unfold ad_call_body. apply emits_bind; [now apply emits_prologue|].
    intros [[[cc' size] needs_ad] degenerate]. destruct degenerate.
    + now apply emits_degenerate.
    + apply emits_bind_post; [now apply emits_strategy|].
      intros w [[rv' rv_ad] ad'] w' Hr.
      apply strategy_ad_false in Hr. simpl in Hr. subst ad'. simpl.
      apply emits_ret.
  - destruct cleanup; [now apply emits_emit | apply emits_ret].
Qed.

(** C8: in the getter strategy every invocation of [user_fn] receives an
    empty argument vector; the [args] of the dispatcher are not forwarded.
    Whatever the outcome of [ad_call_getter], each [EvFunc] event it appends
    to the log carries [args = []]. *)
Theorem getter_never_forwards_args :
  forall env backend domain name size index mask_ callable_count args rv rv_ad
         func payload w,
  exists l,
    log (snd (ad_call_getter env backend domain name size index mask_
                             callable_count args rv rv_ad func payload w))
    = log w ++ l
    /\ Forall no_args_forwarded l.
Proof.
  intros. apply emits_getter.
  - intros [] H; simpl in *; auto; contradiction.
  - intros ptr. reflexivity.
Qed.

(** The getter of two callables is handed one argument and calls each
    callable with none. *)
Example getter_example_calls :
  filter (fun e => match e with EvFunc _ _ => true | _ => false end)
         (log (snd (ad_call_getter ex_env CUDA None "f" 4 1 0 2 [2] [] []
                                   ex_getter 77 ex_world)))
  = [EvFunc 0 []; EvFunc 1 []].
Proof. vm_compute. reflexivity. Qed.

(** C10: [CallOp::forward] and [CallOp::backward] re-enter [ad_call] with
    [ad = false]; whatever the outcome, such a re-entrant dispatch never
    constructs a CallOp, so AD wrapping does not nest. *)
Theorem CallOp_reentry_never_wraps :
  forall env this op w,
    (exists l, log (snd (CallOp_forward env this op w)) = log w ++ l
               /\ Forall not_CallOp_new l) /\
    (exists l, log (snd (CallOp_backward env this op w)) = log w ++ l
               /\ Forall not_CallOp_new l).
Proof.
  intros env this op w.
  assert (HS : forall e, structural e -> not_CallOp_new e)
    by (intros [] H; simpl in *; auto).
  assert (HA : forall n ind, emits not_CallOp_new (CallOp_args op n ind))
    by (intros; unfold CallOp_args; emits_go HS).
  assert (HU : forall n ind rv, emits not_CallOp_new (CallOp_accum n ind rv))
    by (intros; unfold CallOp_accum; emits_go HS).
  split.
  - revert w. change (emits not_CallOp_new (CallOp_forward env this op)).
    unfold CallOp_forward. apply emits_bind; [apply HA | intros a].
    apply emits_bind; [| intros; apply HU].
    apply emits_ad_call_no_ad; simpl; auto.
  - revert w. change (emits not_CallOp_new (CallOp_backward env this op)).
    unfold CallOp_backward. apply emits_bind; [apply HA | intros a].
    apply emits_bind; [| intros; apply HU].
    apply emits_ad_call_no_ad; simpl; auto.
Qed.

(** ** The dispatcher's cleanup *)

(** C1: a dispatch that fails after its CallOp was constructed runs
    [cleanup(payload)] twice: once from [CallOp::~CallOp] while the
    exception unwinds and once from the catch-all of [ad_call].  Here the
    recording strategy succeeds on one callable with an AD-tracked argument
    and [ad_custom_op] raises. *)
Theorem ad_call_cleanup_twice_after_CallOp :
  let r := ad_call ex_env_raises CUDA None 1 "f" false 1 0 [combine 1 2] []
                   77 ex_func true true ex_world in
  fst r = Throw (External "ad_custom_op") /\
  count_cleanup 77 (log (snd r)) = 2%nat /\
  log (snd r) =
    [EvRecordBegin; EvMaskPush 5; EvSelfPush 1 0; EvFunc 0 [combine 2 4];
     EvSelfPop 0 0; EvMaskPop; EvCall 1 [1] [4] [6]; EvRecordEnd false;
     EvCallOpNew 77; EvCallOpDelete 77; EvCleanup 77; EvCleanup 77].
Proof. vm_compute. repeat split. Qed.

(** ** The self stack of the evaluated strategy *)

(** C5: the evaluated strategy pushes the position of the bucket plus one,
    not the id of the bucket: with a single bucket of id 2 the value pushed
    onto the self stack is 1, and the callable receives the instance pointer
    of callable 2. *)
Theorem ad_call_reduce_pushes_position :
  let r := ad_call_reduce ex_env_bucket2 CUDA None "f" 4 1 0 2 [2] [] ex_func 77
                          ex_world in
  call_buckets ex_env_bucket2 = [(2, 2)] /\
  fst r = Ok [10] /\
  self_pushes (log (snd r)) = [(1, 7)] /\
  In (EvFunc 1 [6]) (log (snd r)).
Proof. vm_compute. repeat split. auto 10. Qed.

(** ** if_stmt *)

Section IfStmtProperties.
Context {Args Rv : Type}.
Variable cast_bool : PyObject -> PyExn + bool.
Variable true_fn false_fn : Args -> PyExn + Rv.
Variable ad_cond : JitBackend -> Z -> Z -> Args -> list IfEvent * (PyExn + Rv).


(** C9: a statement that is not scalar and whose condition is a Jit 1D
    boolean array with index zero raises before any branch is called. *)
Theorem if_stmt_empty_cond_raises :
  forall args s index mode,
    s_type s = VT_Bool -> s_ndim s = 1%nat ->
    lo32 index = 0 ->
    mode <> "scalar"%string ->
    exists what,
      if_stmt true_fn false_fn ad_cond cast_bool args (PyDrJit s index) mode
      = ([], inl (PythonError what)).
Proof.
  intros args s index mode Ht Hn Hi Hm.
  unfold if_stmt, if_stmt_body.
  assert (Hs : (if String.eqb mode "auto" then false
                else String.eqb mode "scalar") = false).
  { destruct (String.eqb mode "auto"); [reflexivity|].
    now apply String.eqb_neq. }
  rewrite Hs. simpl. unfold if_stmt_cond. rewrite Ht, Hn, Hi. simpl.
  destruct (backend_eqb (s_backend s) Backend_None); simpl; eauto.
Qed.
End IfStmtProperties.


Lemma if_stmt_empty_cond_raises_witness :
  exists what,
    if_stmt (ex_branch 1) (ex_branch 2) ex_ad_cond ex_cast_bool 10
            (PyDrJit (mkSupp VT_Bool 1 CUDA) 0) "symbolic"
    = ([], inl (PythonError what)).
Proof.
  apply (if_stmt_empty_cond_raises ex_cast_bool (ex_branch 1) (ex_branch 2)
           ex_ad_cond 10 (mkSupp VT_Bool 1 CUDA) 0 "symbolic").
  - reflexivity.
  - reflexivity.
  - reflexivity.
  - discriminate.
Defined.

(** ** The while-loop state *)

(** The two size checks of a leaf on a pass after the first: the
    size-change error is raised exactly when the recorded size [s1] and the
    current size [s2] differ and neither of them is 1; the loop-size error
    needs, besides, a current size other than that of the loop, an index
    other than the recorded id, a variable that is not dirty, and both the
    loop size and [s2] other than 1. *)
Lemma traverse_leaf_size_check :
  forall var_size var_is_dirty Write indices name e i2 ipos lsize,
    let r := traverse_leaf var_size var_is_dirty Write indices false name e i2
                           ipos lsize in
    let s1 := e_size e in
    let s2 := var_size (lo32 i2) in
    is_size_conflict r = negb (s1 =? s2) && negb (s1 =? 1) && negb (s2 =? 1) /\
    is_size_incompatible r
    = negb (is_size_conflict r)
      && (negb (lsize =? s2) && negb (e_id e =? i2) && negb (var_is_dirty (lo32 i2)))
      && (negb (lsize =? 1) && negb (s2 =? 1)).
Proof.
  intros. subst r s1 s2. unfold traverse_leaf. simpl.
  destruct (negb (e_size e =? var_size (lo32 i2)) && negb (e_size e =? 1)
            && negb (var_size (lo32 i2) =? 1)) eqn:E; [split; reflexivity|].
  destruct (negb (lsize =? _) && _ && _).
  - destruct (negb (lsize =? 1) && _); [split; reflexivity|].
    destruct Write; [destruct (nth_error indices ipos)|]; split; reflexivity.
  - destruct Write; [destruct (nth_error indices ipos)|]; split; reflexivity.
Qed.

(** C6 fails as stated: a leaf of four lanes (handle 5) that the next pass
    finds with one lane (handle 6) passes the traversal, which records the
    new size 1. *)
Lemma traverse_shrink_to_one_accepted :
  exists ls1 out1 ls2 out2,
    traverse ex_var_size (fun _ => false) false []
             [mkVisit "arg0" 0 (Some 5)] ex_loop_state = inr (ls1, out1) /\
    map e_size (entries ls1) = [4] /\
    traverse ex_var_size (fun _ => false) false []
             [mkVisit "arg0" 0 (Some 6)] ls1 = inr (ls2, out2) /\
    map e_size (entries ls2) = [1].
Proof.
  do 4 eexists. vm_compute. repeat split.
Qed.

(** ** The variable table *)

Lemma lookup_app vs l h : h <= Z.of_nat (length vs) -> lookup (vs ++ l) h = lookup vs h.
Proof.
  intros H. unfold lookup. destruct (h <=? 0) eqn:E; [reflexivity|].
  apply Z.leb_gt in E. apply app_nth1. lia.
Qed.

Lemma lookup_new vs v l : lookup (vs ++ v :: l) (Z.of_nat (length vs) + 1) = v.
Proof.
  unfold lookup. destruct (_ <=? 0) eqn:E; [apply Z.leb_le in E; lia|].
  replace (Z.to_nat (Z.of_nat (length vs) + 1 - 1)) with (length vs) by lia.
  now rewrite nth_middle.
Qed.

Lemma new_var_ok v w h w' :
  new_var v w = (Ok h, w') ->
  h = Z.of_nat (length (vars w)) + 1 /\ h < 4294967296 /\
  vars w' = vars w ++ [v] /\ log w' = log w.
Proof.
  unfold new_var. destruct (_ <? _) eqn:E; intros H; inversion H; subst; simpl.
  apply Z.ltb_lt in E. auto.
Qed.

(** ** ad_call_check_rv *)






(** C3: the branch of [ad_call_check_rv] that records the first result does
    not look at its backend, while the branch for the later results compares
    each with the backend of the dispatch.  On a CUDA dispatch a first
    callable that returns an LLVM array (handle 1) is accepted and fixes
    nothing: a second callable that returns a CUDA array (handle 2), which
    disagrees with the first in backend, raises nothing, and one that
    returns the same LLVM array as the first raises
    [ReturnBackendMismatch].  Through the dispatcher: a recorded call on
    one callable that returns the LLVM array succeeds, and the same call on
    two callables that both return it fails at the second. *)
Theorem check_rv_backend_not_fixed_by_first_callable :
  (exists rv1 w1,
     ad_call_check_rv CUDA 4 0 [] [1] ex_world_backends = (Ok rv1, w1) /\
     v_backend (lookup (vars w1) 1) = LLVM /\
     v_backend (lookup (vars w1) 2) = CUDA /\
     ad_call_check_rv CUDA 4 1 rv1 [2] w1 = (Ok rv1, w1) /\
     ad_call_check_rv CUDA 4 1 rv1 [1] w1
     = (Throw (ReturnBackendMismatch 1), w1)) /\
  fst (ad_call ex_env CUDA None 1 "f" false 2 0 [] [] 77 ex_func_llvm true true
               ex_world_backends) = Ok (true, [6]) /\
  fst (ad_call ex_env CUDA None 2 "f" false 2 0 [] [] 77 ex_func_llvm true true
               ex_world_backends) = Throw (ReturnBackendMismatch 1).
Proof.
  split; [|split; vm_compute; reflexivity].
  exists [3],
         (mkWorld (vars ex_world_backends
                   ++ [mkVar (OpLiteral 0) CUDA VT_Float32 Literal 4])
                  1 100 0 0 []).
  vm_compute. repeat split.
Qed.

(** ** Lane values and growth of the table *)






Lemma extends_trans w1 w2 w3 : extends w1 w2 -> extends w2 w3 -> extends w1 w3.
Proof.
  intros [l1 E1] [l2 E2]. exists (l1 ++ l2). now rewrite E2, E1, app_assoc.
Qed.

Lemma extends_length w w' :
  extends w w' -> Z.of_nat (length (vars w)) <= Z.of_nat (length (vars w')).
Proof. intros [l E]. rewrite E, length_app. lia. Qed.

Lemma mono_same {A} (c : M A) :
  (forall w, vars (snd (c w)) = vars w) -> mono c.
Proof.
  intros H w a w' E. exists []. specialize (H w). rewrite E in H. simpl in H.
  now rewrite app_nil_r.
Qed.

Lemma mono_ret {A} (a : A) : mono (ret a).
Proof. now apply mono_same. Qed.

Lemma mono_raise {A} e : mono (@raise A e).
Proof. now apply mono_same. Qed.

Lemma mono_undefined {A} : mono (@undefined A).
Proof. now apply mono_same. Qed.

Lemma mono_get_vars : mono get_vars.
Proof. now apply mono_same. Qed.

Lemma mono_emit e : mono (emit e).
Proof. now apply mono_same. Qed.

Lemma mono_jit_malloc : mono jit_malloc.
Proof. now apply mono_same. Qed.

Lemma mono_ad_var_new j : mono (ad_var_new j).
Proof. now apply mono_same. Qed.

Lemma mono_set_self v i : mono (jit_var_set_self v i).
Proof. now apply mono_same. Qed.

Lemma mono_vget v i : mono (vget v i).
Proof. unfold vget. destruct (nth_error v i); now apply mono_same. Qed.

Lemma mono_vput {A} (v : list A) i x : mono (vput v i x).
Proof. unfold vput. destruct (vset v i x); now apply mono_same. Qed.

Lemma mono_new_var v : mono (new_var v).
Proof.
  intros w h w' H. apply new_var_ok in H. destruct H as (_ & _ & E & _).
  now exists [v].
Qed.

Lemma mono_bind {A B} (c : M A) (k : A -> M B) :
  mono c -> (forall a, mono (k a)) -> mono (bind c k).
Proof.
  intros Hc Hk w b w' H. unfold bind in H.
  destruct (c w) as [[a | e |] w1] eqn:E; try discriminate.
  eapply extends_trans; [eapply Hc; eauto | eapply Hk; eauto].
Qed.

Lemma mono_for_each {S A} (body : A -> S -> M S) (l : list A) :
  (forall a s, mono (body a s)) -> forall s, mono (for_each l body s).
Proof.
  intros H. induction l as [|a t IH]; intros s; simpl.
  - apply mono_ret.
  - apply mono_bind; auto.
Qed.

Lemma mono_scoped {A} (leave : M unit) (body : M A) :
  mono leave -> mono body -> mono (scoped leave body).
Proof.
  intros Hl Hb w a w' H. unfold scoped in H.
  destruct (body w) as [[x | e |] w1] eqn:E; try discriminate.
  destruct (leave w1) as [[u | e |] w2] eqn:El; try discriminate.
  inversion H; subst. eapply extends_trans; [eapply Hb | eapply Hl]; eauto.
Qed.

Lemma mono_call_func func payload ptr args rv :
  mono (call_func func payload ptr args rv).
Proof.
  unfold call_func. apply mono_bind; [apply mono_emit | intros _].
  intros w a w' H. inversion H; subst. simpl. eexists; reflexivity.
Qed.

Lemma mono_scoped_set_mask {A} index (body : M A) :
  mono body -> mono (scoped_set_mask index body).
Proof.
  intros H. unfold scoped_set_mask. apply mono_bind; [apply mono_emit | intros _].
  apply mono_scoped; [apply mono_emit | exact H].
Qed.

Lemma mono_scoped_record {A} disarms (body : M A) :
  mono body -> mono (scoped_record disarms body).
Proof.
  intros Hb. unfold scoped_record. apply mono_bind; [apply mono_emit | intros _].
  intros w a w' H. destruct (body w) as [[x | e |] w1] eqn:E; try discriminate.
  inversion H; subst. apply Hb in E. destruct E as [l E]. exists l. exact E.
Qed.

Lemma mono_scoped_set_self {A} value index (body : M A) :
  mono body -> mono (scoped_set_self value index body).
Proof.
  intros Hb w. unfold scoped_set_self.
  set (c := jit_var_set_self value index ;;; _).
  assert (Hc : mono c).
  { apply mono_bind; [apply mono_set_self | intros _].
    apply mono_bind; [apply mono_emit | intros _].
    apply mono_scoped; auto.
    apply mono_bind; [apply mono_set_self | intros _]. apply mono_emit. }
  apply Hc.
Qed.

Ltac mono_go :=
  repeat (intros; first
    [ apply mono_ret | apply mono_raise | apply mono_undefined
    | apply mono_get_vars | apply mono_new_var | apply mono_jit_malloc
    | apply mono_ad_var_new | apply mono_vget | apply mono_vput
    | match goal with
      | |- mono (call_func _ _ _ _ _) => apply mono_call_func
      | |- mono (scoped_set_mask _ _) => apply mono_scoped_set_mask
      | |- mono (scoped_record _ _) => apply mono_scoped_record
      | |- mono (scoped_set_self _ _ _) => apply mono_scoped_set_self
      | |- mono (emit _) => apply mono_emit
      | |- mono (for_each _ _ _) => apply mono_for_each
      | |- mono (bind _ _) => apply mono_bind
      | |- mono (if ?b then _ else _) => destruct b
      | |- mono (match ?x with _ => _ end) => destruct x
      end
    | progress autounfold with jit ]).




Lemma mono_getter_slot backend index mask cc rv2 rv3 i rv :
  mono (getter_slot backend index mask cc rv2 rv3 i rv).
Proof. unfold getter_slot, getter_is_literal, getter_entry. mono_go. Qed.

Lemma keeps_ret {A} (a : A) : keeps (ret a).
Proof. now intros w. Qed.


Lemma keeps_vget v i : keeps (vget v i).
Proof. unfold vget. now destruct (nth_error v i). Qed.

Lemma keeps_vput {A} (v : list A) i x : keeps (vput v i x).
Proof. unfold vput. now destruct (vset v i x). Qed.

Lemma keeps_bind {A B} (c : M A) (k : A -> M B) :
  keeps c -> (forall a, keeps (k a)) -> keeps (bind c k).
Proof.
  intros Hc Hk w. unfold bind. specialize (Hc w).
  destruct (c w) as [[a | e |] w1]; simpl in *; auto.
  now rewrite Hk.
Qed.

Lemma keeps_for_each {S A} (body : A -> S -> M S) (l : list A) :
  (forall a s, keeps (body a s)) -> forall s, keeps (for_each l body s).
Proof.
  intros H. induction l as [|a t IH]; intros s; simpl.
  - apply keeps_ret.
  - apply keeps_bind; auto.
Qed.


Lemma keeps_is_literal cc rv2 rv3 i : keeps (getter_is_literal cc rv2 rv3 i).
Proof.
  unfold getter_is_literal. apply keeps_for_each. intros j b.
  apply keeps_bind; [apply keeps_vget | intros x].
  apply keeps_bind; [apply keeps_vget | intros y]. apply keeps_ret.
Qed.







Lemma vput_ok {A} (v : list A) i x v' w w' :
  vput v i x w = (Ok v', w') -> w' = w /\ vset v i x = Some v'.
Proof.
  unfold vput. destruct (vset v i x); intros H; inversion H; auto.
Qed.

Lemma vget_ok v i x w w' :
  vget v i w = (Ok x, w') -> w' = w /\ nth_error v i = Some x.
Proof.
  unfold vget. destruct (nth_error v i); intros H; inversion H; auto.
Qed.


(** Invert one [bind] of a computation that returned. *)
Tactic Notation "step" hyp(H) "as" ident(a) ident(w1) ident(E) :=
  match type of H with
  | bind ?c ?k ?w = (Ok _, _) =>
      unfold bind at 1 in H;
      destruct (c w) as [[a | ? |] w1] eqn:E; try discriminate H
  end.






(** ** Handles with a non-zero IR part *)

Lemma lo32_mod x : lo32 x = x mod 4294967296.
Proof.
  unfold lo32. change 4294967295 with (Z.ones 32).
  now rewrite (Z.land_ones x 32) by lia.
Qed.

Lemma lo32_small h : 0 <= h < 4294967296 -> lo32 h = h.
Proof. intros H. rewrite lo32_mod. now apply Z.mod_small. Qed.

Lemma lo32_lo32 h : lo32 (lo32 h) = lo32 h.
Proof. rewrite !lo32_mod. apply Z.mod_mod. lia. Qed.

Lemma lo32_combine a j : lo32 (combine a j) = lo32 j.
Proof.
  unfold combine. rewrite !lo32_mod, Z.shiftl_mul_pow2 by lia.
  change (2 ^ 32) with 4294967296. rewrite Z.add_comm. apply Z_mod_plus_full.
Qed.

Lemma lo32_detach index : lo32 (ad_call_detach index) = lo32 index.
Proof.
  unfold ad_call_detach.
  destruct (index =? _) eqn:E; [reflexivity|].
  change 18446744073709551615 with (Z.ones 64).
  rewrite (Z.land_ones _ 64), Z.shiftl_mul_pow2, Z.shiftr_div_pow2 by lia.
  change (2 ^ 64) with (4294967296 * 4294967296).
  change (2 ^ 32) with 4294967296.
  rewrite Zmult_mod_distr_r, Z.div_mul by lia.
  rewrite !lo32_mod. apply Z.mod_mod. lia.
Qed.

Lemma nz_fresh v w h w' : new_var v w = (Ok h, w') -> nz h.
Proof.
  intros H. apply new_var_ok in H. destruct H as (Hh & Hb & _).
  unfold nz. rewrite lo32_small; lia.
Qed.

Lemma nz_valid vs h : v_size (lookup vs (lo32 h)) = 1 -> nz h.
Proof.
  unfold nz, lookup. intros H C. rewrite C in H. simpl in H. discriminate.
Qed.

Lemma post_ret {A} (a : A) (Q : A -> Prop) : Q a -> post (ret a) Q.
Proof. intros H w x w' E. inversion E; subst. exact H. Qed.

Lemma post_raise {A} e (Q : A -> Prop) : post (raise e) Q.
Proof. intros w x w' E. discriminate. Qed.

Lemma post_undefined {A} (Q : A -> Prop) : post undefined Q.
Proof. intros w x w' E. discriminate. Qed.

Lemma post_bind {A B} (c : M A) (k : A -> M B) (P : A -> Prop) (Q : B -> Prop) :
  post c P -> (forall a, P a -> post (k a) Q) -> post (bind c k) Q.
Proof.
  intros Hc Hk w b w' H. step H as a w1 E.
  eapply Hk; eauto.
Qed.

Lemma post_any {A} (c : M A) : post c (fun _ => True).
Proof. now intros w a w' _. Qed.

Lemma post_for_each {S A} (body : A -> S -> M S) (I : S -> Prop) (l : list A) :
  (forall a s, I s -> post (body a s) I) ->
  forall s, I s -> post (for_each l body s) I.
Proof.
  intros H. induction l as [|a t IH]; intros s Hs; simpl.
  - now apply post_ret.
  - eapply post_bind; [apply H, Hs | auto].
Qed.

Lemma post_scoped {A} (leave : M unit) (body : M A) (Q : A -> Prop) :
  post body Q -> post (scoped leave body) Q.
Proof.
  intros Hb w a w' H. unfold scoped in H.
  destruct (body w) as [[x | e |] w1] eqn:E; try discriminate.
  destruct (leave w1) as [[u | e |] w2]; try discriminate.
  inversion H; subst. eapply Hb; eauto.
Qed.

Lemma post_scoped_set_mask {A} index (body : M A) (Q : A -> Prop) :
  post body Q -> post (scoped_set_mask index body) Q.
Proof.
  intros H. unfold scoped_set_mask.
  eapply post_bind; [apply post_any | intros _ _]. now apply post_scoped.
Qed.

Lemma post_scoped_record {A} disarms (body : M A) (Q : A -> Prop) :
  post body Q -> post (scoped_record disarms body) Q.
Proof.
  intros Hb. unfold scoped_record.
  eapply post_bind; [apply post_any | intros _ _].
  intros w a w' H. destruct (body w) as [[x | e |] w1] eqn:E; try discriminate.
  inversion H; subst. eapply Hb; eauto.
Qed.

Lemma post_scoped_set_self {A} value index (body : M A) (Q : A -> Prop) :
  post body Q -> post (scoped_set_self value index body) Q.
Proof.
  intros Hb w. unfold scoped_set_self.
  set (c := jit_var_set_self value index ;;; _).
  assert (Hc : post c Q).
  { eapply post_bind; [apply post_any | intros _ _].
    eapply post_bind; [apply post_any | intros _ _].
    now apply post_scoped. }
  apply Hc.
Qed.

Lemma post_new_var v : post (new_var v) nz.
Proof. intros w h w' H. eapply nz_fresh; eauto. Qed.

Lemma Forall_snoc {A} (P : A -> Prop) l x :
  Forall P l -> P x -> Forall P (l ++ [x]).
Proof. intros. apply Forall_app. auto. Qed.

Lemma Forall_vset {A} (P : A -> Prop) v i x v' :
  vset v i x = Some v' -> Forall P v -> P x -> Forall P v'.
Proof.
  revert i v'. induction v as [|a t IH]; intros i v' H HF Hx; simpl in H;
    [discriminate|].
  inversion HF; subst. destruct i as [|i].
  - inversion H; subst. constructor; auto.
  - destruct (vset t i x) eqn:E; [|discriminate]. inversion H; subst.
    constructor; eauto.
Qed.

Lemma post_vput {A} (P : A -> Prop) v i x :
  Forall P v -> P x -> post (vput v i x) (Forall P).
Proof.
  intros HF Hx w v' w' H. apply vput_ok in H. destruct H as [_ H].
  eapply Forall_vset; eauto.
Qed.

Lemma post_check_rv backend size i rv rv2 :
  Forall nz rv -> post (ad_call_check_rv backend size i rv rv2) (Forall nz).
Proof.
  intros Hrv. unfold ad_call_check_rv.
  destruct (negb (length rv =? length rv2)%nat).
  - destruct (negb (length rv =? 0)%nat); [apply post_raise|].
    apply post_for_each; [|constructor].
    intros x acc Hacc. destruct (x =? 0); [apply post_raise|].
    eapply post_bind; [apply post_any | intros t _].
    eapply post_bind; [apply post_new_var | intros h Hh].
    apply post_ret. now apply Forall_snoc.
  - eapply post_bind; [apply post_any | intros _ _]. now apply post_ret.
Qed.

Lemma vset_vset {A} (v : list A) i a b v1 v2 :
  vset v i a = Some v1 -> vset v1 i b = Some v2 -> vset v i b = Some v2.
Proof.
  revert i v1 v2. induction v as [|x t IH]; intros i v1 v2 H1 H2; simpl in H1;
    [discriminate|].
  destruct i as [|i].
  - inversion H1; subst. simpl in H2. exact H2.
  - destruct (vset t i a) as [t1|] eqn:E; [|discriminate].
    inversion H1; subst. simpl in H2.
    destruct (vset t1 i b) as [t2|] eqn:E2; [|discriminate].
    inversion H2; subst. simpl. now rewrite (IH _ _ _ E E2).
Qed.

Lemma post_vput_eq {A} (v : list A) i x :
  post (vput v i x) (fun v' => vset v i x = Some v').
Proof. intros w v' w' H. now apply vput_ok in H. Qed.

Lemma post_vget (P : Z -> Prop) v i : Forall P v -> post (vget v i) P.
Proof.
  intros HF w x w' H. apply vget_ok in H. destruct H as [_ H].
  rewrite Forall_forall in HF. eapply HF, nth_error_In; eauto.
Qed.

Lemma post_vput_again rv i rv0 x :
  vset rv i 0 = Some rv0 -> Forall nz rv -> nz x ->
  post (vput rv0 i x) (Forall nz).
Proof.
  intros E0 HF Hx w rv' w' H. apply vput_ok in H. destruct H as [_ H].
  pose proof (vset_vset _ _ _ _ _ _ E0 H) as H2.
  eapply Forall_vset; [exact H2 | exact HF | exact Hx].
Qed.

Lemma post_ad_tag b j : nz j -> post (ad_tag b j) nz.
Proof.
  intros Hj. unfold ad_tag. destruct b; [|now apply post_ret].
  intros w h w' H. inversion H; subst. unfold nz. now rewrite lo32_combine.
Qed.

Lemma post_jit_var_gather src idx mask : post (jit_var_gather src idx mask) nz.
Proof.
  unfold jit_var_gather. eapply post_bind; [apply post_any | intros vs _].
  apply post_new_var.
Qed.

Lemma post_jit_var_size h :
  post (jit_var_size h) (fun sz => exists vs, sz = v_size (lookup vs h)).
Proof.
  intros w sz w' H. unfold jit_var_size, bind, get_vars, ret in H.
  inversion H; subst. eauto.
Qed.

(** *** The getter strategy *)

Lemma post_getter_callable env backend domain size cc func payload i st :
  Forall nz (g_rv st) -> Forall nz (g_rv3 st) ->
  post (getter_callable env backend domain size cc func payload i st)
       (fun st' => Forall nz (g_rv st') /\ Forall nz (g_rv3 st')).
Proof.
  intros Hrv Hrv3. unfold getter_callable.
  assert (Hrun : forall ptr,
    post (rv2 <- scoped_record false (call_func func payload ptr [] []) ;;
          rv <- ad_call_check_rv backend size i (g_rv st) rv2 ;;
          acc <- for_each (List.combine (seq 0 (length rv2)) rv2)
                   (fun p (acc : list Z * list bool) =>
                      let '(j, index) := p in
                      let '(rv3, rv_ad) := acc in
                      match nth_error rv_ad j with
                      | None => undefined
                      | Some old =>
                          rv_ad' <- vput rv_ad j (old || negb (hi32 index =? 0)) ;;
                          if index =? 0 then raise (EmptyReturn i)
                          else sz <- jit_var_size (lo32 index) ;;
                               if negb (sz =? 1) then raise (ReturnNotScalar i)
                               else ret (rv3 ++ [lo32 index], rv_ad')
                      end)
                   (g_rv3 st,
                    if (length (g_rv_ad st) =? 0)%nat
                    then repeat false (length rv2) else g_rv_ad st) ;;
          ret (mkGetterSt rv rv2 (fst acc) (snd acc)))
         (fun st' => Forall nz (g_rv st') /\ Forall nz (g_rv3 st'))).
  { intros ptr.
    eapply post_bind; [apply post_any | intros rv2 _].
    eapply post_bind; [apply post_check_rv, Hrv | intros rv Hrv'].
    eapply post_bind with (P := fun acc => Forall nz (fst acc)).
    - apply post_for_each; [|exact Hrv3].
      intros [j index] [rv3 rv_ad] Hacc. simpl in Hacc.
      destruct (nth_error rv_ad j); [|apply post_undefined].
      eapply post_bind; [apply post_any | intros rv_ad' _].
      destruct (index =? 0); [apply post_raise|].
      eapply post_bind; [apply post_jit_var_size | intros sz [vs Hsz]].
      destruct (sz =? 1) eqn:E; [|apply post_raise].
      apply post_ret. simpl. apply Forall_snoc; [exact Hacc|].
      apply Z.eqb_eq in E. rewrite Hsz in E.
      apply nz_valid in E. unfold nz in *. now rewrite lo32_lo32.
    - intros acc Hacc. apply post_ret. auto. }
  destruct domain.
  - destruct (_ =? 0); [apply post_ret; auto | apply Hrun].
  - apply Hrun.
Qed.

Lemma post_getter_slot backend index mask cc rv2 rv3 i rv :
  Forall nz rv3 -> Forall nz rv ->
  post (getter_slot backend index mask cc rv2 rv3 i rv) (Forall nz).
Proof.
  intros Hrv3 Hrv. unfold getter_slot.
  eapply post_bind; [apply post_vput_eq | intros rv0 E0].
  eapply post_bind; [apply post_any | intros shared _].
  destruct shared.
  - eapply post_bind; [apply post_vget, Hrv3 | intros x Hx].
    exact (post_vput_again rv i rv0 x E0 Hrv Hx).
  - eapply post_bind; [apply post_any | intros rv2_i _].
    eapply post_bind; [apply post_any | intros type _].
    eapply post_bind; [apply post_any | intros ptr _].
    eapply post_bind; [apply post_any | intros buf _].
    eapply post_bind; [apply post_any | intros agg _].
    eapply post_bind; [apply post_any | intros u _].
    eapply post_bind; [apply post_any | intros u2 _].
    eapply post_bind; [apply post_jit_var_gather | intros g Hg].
    exact (post_vput_again rv i rv0 g E0 Hrv Hg).
Qed.

Lemma post_getter env backend domain name size index mask_ cc args rv rv_ad
      func payload :
  Forall nz rv ->
  post (ad_call_getter env backend domain name size index mask_ cc args rv rv_ad
                       func payload)
       (fun r => Forall nz (fst r)).
Proof.
  intros Hrv. unfold ad_call_getter, getter_collect.
  eapply post_bind; [apply post_any | intros mask _].
  eapply post_bind
    with (P := fun st => Forall nz (g_rv st) /\ Forall nz (g_rv3 st)).
  - apply post_for_each with
      (I := fun st => Forall nz (g_rv st) /\ Forall nz (g_rv3 st)).
    + intros i st [H1 H2]. now apply post_getter_callable.
    + simpl. auto.
  - intros st [H1 H2].
    eapply post_bind with (P := Forall nz).
    + apply post_for_each; [|exact H1].
      intros i rv0 H0. now apply post_getter_slot.
    + intros rv' H'. now apply post_ret.
Qed.

(** *** The recording strategy *)

Lemma post_jit_var_call backend n_inst inst_id args3 rv3 n_rv4 :
  post (jit_var_call backend n_inst inst_id args3 rv3 n_rv4) (Forall nz).
Proof.
  unfold jit_var_call. eapply post_bind; [apply post_any | intros _ _].
  apply post_for_each; [|constructor].
  intros i rv4 H4.
  eapply post_bind; [apply post_any | intros vs _].
  eapply post_bind; [apply post_new_var | intros h Hh].
  apply post_ret. now apply Forall_snoc.
Qed.

Lemma post_record env backend domain name size index mask_ cc args rv rv_ad
      func payload :
  post (ad_call_record env backend domain name size index mask_ cc args rv rv_ad
                       func payload)
       (fun r => Forall nz (fst r)).
Proof.
  unfold ad_call_record.
  eapply post_bind; [apply post_any | intros mask _].
  apply post_scoped_record.
  eapply post_bind; [apply post_any | intros [args2 args3] _].
  eapply post_bind; [apply post_any | intros call_mask _].
  eapply post_bind; [apply post_any | intros st _].
  eapply post_bind; [apply post_jit_var_call | intros rv4 H4].
  now apply post_ret.
Qed.

(** *** The evaluated strategy *)

Lemma post_ad_var_scatter target value idx mask :
  post (ad_var_scatter target value idx mask) nz.
Proof.
  unfold ad_var_scatter. eapply post_bind; [apply post_any | intros vs _].
  eapply post_bind; [apply post_new_var | intros h Hh].
  now apply post_ad_tag.
Qed.

Lemma post_reduce_bucket env backend domain size index memop_mask args func
      payload p st :
  Forall nz (fst st) ->
  post (reduce_bucket env backend domain size index memop_mask args func
                      payload p st)
       (fun st' => Forall nz (fst st')).
Proof.
  intros Hst. unfold reduce_bucket. destruct p as [i bucket], st as [rv last].
  simpl in Hst.
  destruct (bucket_id bucket =? 0); [now apply post_ret|].
  eapply post_bind; [apply post_any | intros wavefront_size _].
  eapply post_bind; [apply post_any | intros u _].
  eapply post_bind; [apply post_any | intros default_mask _].
  apply post_scoped_set_mask.
  eapply post_bind; [apply post_any | intros args2 _].
  eapply post_bind; [apply post_any | intros ptr _].
  eapply post_bind; [apply post_any | intros instance_id _].
  apply post_scoped_set_self.
  eapply post_bind; [apply post_any | intros rv2 _].
  eapply post_bind; [apply post_check_rv, Hst | intros rv1 H1].
  eapply post_bind with (P := Forall nz).
  - apply post_for_each; [|exact H1].
    intros [j rv2_j] rv0 H0. unfold reduce_merge.
    eapply post_bind; [apply post_any | intros rv_j _].
    eapply post_bind; [apply post_ad_var_scatter | intros idx Hidx].
    now apply post_vput.
  - intros rv' H'. now apply post_ret.
Qed.

Lemma post_reduce env backend domain name size index_ mask cc args rv func
      payload :
  Forall nz rv ->
  post (ad_call_reduce env backend domain name size index_ mask cc args rv func
                       payload)
       (Forall nz).
Proof.
  intros Hrv. unfold ad_call_reduce.
  eapply post_bind; [apply post_any | intros index _].
  eapply post_bind; [apply post_any | intros u _].
  eapply post_bind; [apply post_any | intros u2 _].
  eapply post_bind; [apply post_any | intros buckets _].
  eapply post_bind; [apply post_any | intros memop_mask _].
  eapply post_bind with (P := fun st => Forall nz (fst st)).
  - apply post_for_each with (I := fun st : list Z * Z => Forall nz (fst st));
      [|exact Hrv].
    intros p st Hst. now apply post_reduce_bucket.
  - intros st Hst.
    eapply post_bind; [apply post_any | intros u3 _]. now apply post_ret.
Qed.

Lemma post_strategy env backend domain cc name is_getter size index mask args
      rv payload func ad :
  Forall nz rv ->
  post (ad_call_strategy env backend domain cc name is_getter size index mask
                         args rv payload func ad)
       (fun r => Forall nz (fst (fst r))).
Proof.
  intros Hrv. unfold ad_call_strategy. destruct is_getter.
  - eapply post_bind; [now apply post_getter | intros x Hx]. now apply post_ret.
  - destruct (flag_vcall_record env).
    + eapply post_bind; [apply post_record | intros x Hx]. now apply post_ret.
    + destruct (flag_symbolic env); [apply post_raise|].
      eapply post_bind; [now apply post_reduce | intros x Hx]. now apply post_ret.
Qed.

(** *** The AD wrapping *)

Lemma post_promote env rv_ad i st :
  Forall nz (fst st) ->
  post (ad_call_promote env rv_ad i st) (fun st' => Forall nz (fst st')).
Proof.
  intros Hst. unfold ad_call_promote. destruct st as [rv op]. simpl in Hst.
  destruct (nth_error rv_ad i) as [[|]|];
    [| now apply post_ret | apply post_undefined].
  eapply post_bind; [apply post_vget, Hst | intros rv_i Hi].
  eapply post_bind with (P := nz).
  - intros w h w' H. inversion H; subst. unfold nz in *.
    now rewrite lo32_combine, lo32_lo32.
  - intros index Hidx.
    eapply post_bind with (P := Forall nz);
      [apply post_vput; assumption | intros rv' H'].
    now apply post_ret.
Qed.

Lemma post_wrap env backend domain cc name index mask args rv rv_ad payload
      func cleanup :
  Forall nz rv ->
  post (ad_call_wrap env backend domain cc name index mask args rv rv_ad
                     payload func cleanup)
       (fun r => Forall nz (snd r)).
Proof.
  intros Hrv. unfold ad_call_wrap.
  eapply post_bind; [apply post_any | intros op _].
  intros w r w' H.
  match type of H with
  | match ?body w with _ => _ end = _ =>
      assert (Hb : post body (fun r => Forall nz (snd r)))
  end.
  { eapply post_bind with (P := fun st => Forall nz (fst st)).
    - apply post_for_each
        with (I := fun st : list Z * CallOp => Forall nz (fst st));
        [|exact Hrv].
      intros i st Hst. now apply post_promote.
    - intros st Hst. destruct (custom_op env).
      + now apply post_ret.
      + apply post_ret. simpl. apply Forall_forall. intros x Hx.
        apply in_map_iff in Hx. destruct Hx as [y [<- Hy]].
        rewrite Forall_forall in Hst. unfold nz. rewrite lo32_detach.
        now apply Hst.
      + apply post_raise. }
  match type of H with
  | match ?body w with _ => _ end = _ =>
      destruct (body w) as [[[[|] rv1] | e |] w1] eqn:E; try discriminate H
  end; inversion H; subst; apply Hb in E; exact E.
Qed.

(** * Further properties of the dispatcher *)

(** ** Handles *)

(** [CallOp::combine] packs an AD index and an IR index so that they can be
    read back: the upper half is the AD index, the lower half the IR
    index. *)
Theorem combine_round_trip :
  forall ad_index jit_index,
    0 <= jit_index < 4294967296 ->
    hi32 (combine ad_index jit_index) = ad_index /\
    lo32 (combine ad_index jit_index) = jit_index.
Proof.
  intros a j Hj. split.
  - unfold hi32, combine.
    rewrite Z.shiftr_div_pow2, Z.shiftl_mul_pow2 by lia.
    change (2 ^ 32) with 4294967296.
    rewrite Z.add_comm, Z.div_add by lia.
    rewrite Z.div_small by lia. reflexivity.
  - rewrite lo32_combine. now apply lo32_small.
Qed.

Lemma combine_round_trip_witness :
  hi32 (combine 7 5) = 7 /\ lo32 (combine 7 5) = 5.
Proof. apply (combine_round_trip 7 5). lia. Defined.

(** Detaching an output ([(index << 32) >> 32] on 64 bits) keeps the IR
    index and clears the AD index, whatever the handle. *)
Theorem ad_call_detach_is_ir_part :
  forall index,
    ad_call_detach index = lo32 index /\ hi32 (ad_call_detach index) = 0.
Proof.
  intros index.
  assert (E : ad_call_detach index = lo32 index).
  { unfold ad_call_detach.
    assert (D : Z.shiftr (Z.land (Z.shiftl index 32) 18446744073709551615) 32
                = lo32 index).
    { change 18446744073709551615 with (Z.ones 64).
      rewrite (Z.land_ones _ 64), Z.shiftl_mul_pow2, Z.shiftr_div_pow2 by lia.
      change (2 ^ 64) with (4294967296 * 4294967296).
      change (2 ^ 32) with 4294967296.
      rewrite Zmult_mod_distr_r, Z.div_mul by lia.
      now rewrite lo32_mod. }
    rewrite D. destruct (index =? lo32 index) eqn:Q; [|reflexivity].
    now apply Z.eqb_eq in Q. }
  split; [exact E|]. rewrite E. unfold hi32.
  rewrite Z.shiftr_div_pow2 by lia. rewrite lo32_mod.
  change (2 ^ 32) with 4294967296.
  apply Z.div_small. apply Z.mod_pos_bound. lia.
Qed.

(** ** The prologue of ad_call *)

(* [x >> 32] is kept folded: unfolding the shift by a literal 32 makes
   [injection] and [simpl] explode. *)
Opaque hi32.

Lemma unify_size_ok size size_2 s w w' :
  unify_size size size_2 w = (Ok s, w') ->
  w' = w /\ fits s size_2 /\ (size = 1 -> s = size_2) /\ (size <> 1 -> s = size).
Proof.
  unfold unify_size, fits. destruct (size =? 1) eqn:E1.
  - apply Z.eqb_eq in E1. intros H. inversion H; subst. repeat split; auto.
    intros C; contradiction.
  - apply Z.eqb_neq in E1.
    destruct (negb (size =? size_2) && negb (size_2 =? 1)) eqn:E2;
      intros H; inversion H; subst.
    repeat split; auto; try (intros; contradiction).
    apply andb_false_iff in E2. destruct E2 as [E2 | E2];
      apply negb_false_iff, Z.eqb_eq in E2; auto.
Qed.

Lemma prologue_args (vs : list Var) :
  forall args size b w s b' w',
    vars w = vs ->
    for_each args
      (fun arg_i (acc : Z * bool) =>
         size_2 <- jit_var_size (lo32 arg_i) ;;
         size <- unify_size (fst acc) size_2 ;;
         ret (size, snd acc || negb (hi32 arg_i =? 0)))
      (size, b) w = (Ok (s, b'), w') ->
    w' = w /\
    (forall x, fits size x -> fits s x) /\
    Forall (fun a => fits s (v_size (lookup vs (lo32 a)))) args /\
    b' = b || existsb is_tracked args.
Proof.
  induction args as [|a t IH]; intros size b w s b' w' Hv H; cbn [for_each] in H.
  - inversion H; subst. rewrite orb_false_r. repeat split; auto.
  - step H as acc wa E.
    step E as size_2 wb E1.
    unfold jit_var_size, bind, get_vars, ret in E1. inversion E1; subst size_2 wb.
    clear E1. step E as s1 wc E2. inversion E; subst acc wc. clear E.
    cbn [fst snd] in E2. apply unify_size_ok in E2.
    destruct E2 as (-> & F2 & U1 & U2).
    destruct (IH _ _ _ _ _ _ Hv H) as (-> & Hx & HF & ->).
    rewrite Hv in *.
    assert (K : forall x, fits size x -> fits s1 x).
    { intros x [-> | ->]; unfold fits in *.
      - destruct (Z.eq_dec size 1) as [-> | Hn]; [now right|].
        left. symmetry. now apply U2.
      - now right. }
    split; [reflexivity|]. split; [intros x Hf; apply Hx, K, Hf|].
    split; [constructor; [apply Hx, F2 | exact HF]|].
    cbn [existsb snd]. unfold is_tracked at 1. now rewrite orb_assoc.
Qed.

(** Size unification: when the prologue of [ad_call] succeeds, the world is
    as before, the instance index, the mask (when there is one) and every
    argument have the unified size or size 1, [needs_ad] says whether an
    argument is AD-tracked, and the callable count is that of the registry
    when a domain is given. *)
Theorem ad_call_prologue_unifies :
  forall env domain cc index mask args w cc' size needs_ad degenerate w',
    ad_call_prologue env domain cc index mask args w
    = (Ok (cc', size, needs_ad, degenerate), w') ->
    w' = w /\
    fits size (v_size (lookup (vars w) index)) /\
    (mask <> 0 -> fits size (v_size (lookup (vars w) mask))) /\
    Forall (fun a => fits size (v_size (lookup (vars w) (lo32 a)))) args /\
    needs_ad = existsb is_tracked args /\
    cc' = (match domain with
           | Some _ => jit_registry_id_bound env
           | None => cc
           end).
Proof.
  intros env domain cc index mask args w cc' size needs_ad degenerate w' H.
  unfold ad_call_prologue in H.
  step H as u wa E0.
  assert (wa = w) by (destruct (Bool.eqb _ _); inversion E0; reflexivity).
  subst wa. clear E0.
  step H as s0 wb E1.
  unfold jit_var_size, bind, get_vars, ret in E1. inversion E1; subst s0 wb.
  clear E1.
  step H as s1 wc E2.
  assert (M1 : wc = w /\ fits s1 (v_size (lookup (vars w) index)) /\
               (mask <> 0 -> fits s1 (v_size (lookup (vars w) mask)))).
  { destruct (negb (mask =? 0)) eqn:Em.
    - step E2 as s2 wd E3.
      unfold jit_var_size, bind, get_vars, ret in E3. inversion E3; subst s2 wd.
      clear E3. apply unify_size_ok in E2. destruct E2 as (-> & F & U1 & U2).
      split; [reflexivity|]. split; [|intros _; exact F].
      unfold fits in *.
      destruct (Z.eq_dec (v_size (lookup (vars w) index)) 1) as [Q | Q];
        [now right | left; symmetry; now apply U2].
    - inversion E2; subst s1 wc. split; [reflexivity|].
      split; [now left|]. intros Hm. apply negb_false_iff, Z.eqb_eq in Em.
      contradiction. }
  destruct M1 as (-> & Fi & Fm). clear E2.
  step H as sn wd E4. destruct sn as [s b].
  apply (prologue_args (vars w)) in E4; [|reflexivity].
  destruct E4 as (-> & Hx & HF & ->).
  step H as z we E5.
  unfold jit_var_is_zero_literal, bind, get_vars, ret in E5.
  inversion E5; subst z we. clear E5.
  inversion H; subst. simpl.
  repeat split; auto.
Qed.

Lemma ad_call_prologue_unifies_witness :
  fits 4 (v_size (lookup (vars ex_world) 1)).
Proof.
  apply (ad_call_prologue_unifies ex_env None 2 1 0 [2] ex_world 2%nat 4 false
           false ex_world).
  vm_compute. reflexivity.
Defined.

(** [ModeConflict]: when both a domain and a callable count are given, or
    neither, [ad_call] raises before it looks at anything else: no callable
    is invoked, no variable is created, and the only event is the cleanup
    of the handler (when a cleanup function was given). *)
Theorem ad_call_mode_conflict :
  forall env backend domain cc name is_getter index mask args rv payload func
         cleanup ad w,
    Bool.eqb (negb (cc =? 0)%nat) (has_domain domain) = true ->
    let r := ad_call env backend domain cc name is_getter index mask args rv
                     payload func cleanup ad w in
    fst r = Throw ModeConflict /\
    vars (snd r) = vars w /\
    log (snd r) = log w ++ (if cleanup then [EvCleanup payload] else []).
Proof.
  intros env backend domain cc name is_getter index mask args rv payload func
         cleanup ad w H r. subst r.
  unfold ad_call, try_rethrow, ad_call_body, ad_call_prologue.
  unfold bind at 1. unfold bind at 1. unfold has_domain in H. rewrite H.
  simpl. destruct cleanup; simpl; [auto|]. now rewrite app_nil_r.
Qed.

Lemma ad_call_mode_conflict_witness :
  fst (ad_call ex_env CUDA (Some "Base"%string) 2 "f" false 1 0 [] [] 77 ex_func
               true true ex_world) = Throw ModeConflict.
Proof.
  apply (ad_call_mode_conflict ex_env CUDA (Some "Base"%string) 2 "f" false 1 0
           [] [] 77 ex_func true true ex_world).
  reflexivity.
Defined.

(** ** Scoped stacks *)

Lemma mask_depth_snoc l e : mask_depth (l ++ [e]) = mask_depth l + mask_delta e.
Proof. induction l as [|x t IH]; simpl; [lia | rewrite IH; lia]. Qed.

Lemma record_depth_snoc l e :
  record_depth (l ++ [e]) = record_depth l + record_delta e.
Proof. induction l as [|x t IH]; simpl; [lia | rewrite IH; lia]. Qed.

Lemma scopes_emit e w :
  scopes (snd (emit e w))
  = (self_value w, self_index w, mask_depth (log w) + mask_delta e,
     record_depth (log w) + record_delta e).
Proof.
  unfold scopes, emit. simpl. now rewrite mask_depth_snoc, record_depth_snoc.
Qed.

Lemma restores_same {A} (c : M A) :
  (forall w, log (snd (c w)) = log w /\ self_value (snd (c w)) = self_value w
             /\ self_index (snd (c w)) = self_index w) ->
  restores c.
Proof.
  intros H w _. destruct (H w) as (E1 & E2 & E3). unfold scopes.
  now rewrite E1, E2, E3.
Qed.

Lemma restores_ret {A} (a : A) : restores (ret a).
Proof. apply restores_same. now intros w. Qed.

Lemma restores_raise {A} e : restores (@raise A e).
Proof. apply restores_same. now intros w. Qed.

Lemma restores_undefined {A} : restores (@undefined A).
Proof. apply restores_same. now intros w. Qed.

Lemma restores_get_vars : restores get_vars.
Proof. apply restores_same. now intros w. Qed.

Lemma restores_jit_malloc : restores jit_malloc.
Proof. apply restores_same. now intros w. Qed.

Lemma restores_ad_var_new j : restores (ad_var_new j).
Proof. apply restores_same. now intros w. Qed.

Lemma restores_new_var v : restores (new_var v).
Proof.
  apply restores_same. intros w. unfold new_var. now destruct (_ <? _).
Qed.

Lemma restores_vget v i : restores (vget v i).
Proof.
  unfold vget. destruct (nth_error v i); [apply restores_ret | apply restores_undefined].
Qed.

Lemma restores_vput {A} (v : list A) i x : restores (vput v i x).
Proof.
  unfold vput. destruct (vset v i x); [apply restores_ret | apply restores_undefined].
Qed.

Lemma restores_emit e : scopeless e -> restores (emit e).
Proof.
  intros [H1 H2] w _. rewrite scopes_emit, H1, H2. unfold scopes.
  now rewrite !Z.add_0_r.
Qed.

Lemma restores_bind {A B} (c : M A) (k : A -> M B) :
  restores c -> (forall a, restores (k a)) -> restores (bind c k).
Proof.
  intros Hc Hk w. unfold bind. specialize (Hc w).
  destruct (c w) as [[a | e |] w1]; simpl in *.
  - intros H. rewrite (Hk a w1 H). apply Hc. discriminate.
  - intros _. apply Hc. discriminate.
  - intros H. now contradiction H.
Qed.

Lemma restores_for_each {S A} (body : A -> S -> M S) (l : list A) :
  (forall a s, restores (body a s)) -> forall s, restores (for_each l body s).
Proof.
  intros H. induction l as [|a t IH]; intros s; simpl.
  - apply restores_ret.
  - apply restores_bind; auto.
Qed.

Lemma restores_call_func func payload ptr args rv :
  restores (call_func func payload ptr args rv).
Proof.
  unfold call_func. apply restores_bind.
  - apply restores_emit. now split.
  - intros _. apply restores_same. now intros w.
Qed.

Lemma scopes_after_emit w w2 e0 e1 :
  scopes w2 = scopes (snd (emit e0 w)) ->
  mask_delta e0 + mask_delta e1 = 0 ->
  record_delta e0 + record_delta e1 = 0 ->
  scopes (snd (emit e1 w2)) = scopes w.
Proof.
  intros H H1 H2. rewrite scopes_emit in H. rewrite scopes_emit.
  unfold scopes in *. inversion H as [[E1 E2 E3 E4]].
  f_equal; [f_equal|]; lia.
Qed.

Lemma restores_scoped_set_mask {A} index (body : M A) :
  restores body -> restores (scoped_set_mask index body).
Proof.
  intros Hb w. unfold scoped_set_mask, bind, scoped.
  change (emit (EvMaskPush index) w)
    with (@Ok unit tt, snd (emit (EvMaskPush index) w)).
  cbv iota beta. specialize (Hb (snd (emit (EvMaskPush index) w))).
  destruct (body _) as [[a | e |] w2]; cbn [fst snd] in *.
  - intros _.
    change (emit EvMaskPop w2) with (@Ok unit tt, snd (emit EvMaskPop w2)).
    cbv iota beta. cbn [snd].
    apply scopes_after_emit with (e0 := EvMaskPush index);
      [apply Hb; discriminate | reflexivity | reflexivity].
  - intros _.
    apply scopes_after_emit with (e0 := EvMaskPush index);
      [apply Hb; discriminate | reflexivity | reflexivity].
  - intros H. now contradiction H.
Qed.

Lemma restores_scoped_record {A} disarms (body : M A) :
  restores body -> restores (scoped_record disarms body).
Proof.
  intros Hb w. unfold scoped_record, bind.
  change (emit EvRecordBegin w) with (@Ok unit tt, snd (emit EvRecordBegin w)).
  cbv iota beta. specialize (Hb (snd (emit EvRecordBegin w))).
  destruct (body _) as [[a | e |] w2]; cbn [fst snd] in *.
  - intros _.
    apply scopes_after_emit with (e0 := EvRecordBegin);
      [apply Hb; discriminate | reflexivity | reflexivity].
  - intros _.
    apply scopes_after_emit with (e0 := EvRecordBegin);
      [apply Hb; discriminate | reflexivity | reflexivity].
  - intros H. now contradiction H.
Qed.

Lemma restores_scoped_set_self {A} value index (body : M A) :
  restores body -> restores (scoped_set_self value index body).
Proof.
  intros Hb w. unfold scoped_set_self, bind, scoped, jit_var_set_self.
  cbv iota beta.
  set (w0 := mkWorld (vars w) (ad_next w) (mem_next w) value index (log w)).
  change (emit (EvSelfPush value index) w0)
    with (@Ok unit tt, snd (emit (EvSelfPush value index) w0)).
  cbv iota beta. specialize (Hb (snd (emit (EvSelfPush value index) w0))).
  rewrite scopes_emit in Hb. cbn [mask_delta record_delta] in Hb.
  subst w0. cbn [self_value self_index log] in Hb.
  destruct (body _) as [[a | e |] w2]; cbn [fst snd] in *.
  - intros _. unfold emit. cbn [fst snd].
    assert (Hb' := Hb ltac:(discriminate)).
    unfold scopes in Hb' |- *. inversion Hb' as [[E1 E2 E3 E4]].
    cbn [self_value self_index log].
    rewrite mask_depth_snoc, record_depth_snoc, E3, E4. cbn.
    f_equal; [f_equal|]; lia.
  - intros _. unfold emit. cbn [fst snd].
    assert (Hb' := Hb ltac:(discriminate)).
    unfold scopes in Hb' |- *. inversion Hb' as [[E1 E2 E3 E4]].
    cbn [self_value self_index log].
    rewrite mask_depth_snoc, record_depth_snoc, E3, E4. cbn.
    f_equal; [f_equal|]; lia.
  - intros H. now contradiction H.
Qed.

Ltac restores_go :=
  repeat (intros; first
    [ apply restores_ret | apply restores_raise | apply restores_undefined
    | apply restores_get_vars | apply restores_new_var | apply restores_jit_malloc
    | apply restores_ad_var_new | apply restores_vget | apply restores_vput
    | match goal with
      | |- restores (call_func _ _ _ _ _) => apply restores_call_func
      | |- restores (scoped_set_mask _ _) => apply restores_scoped_set_mask
      | |- restores (scoped_record _ _) => apply restores_scoped_record
      | |- restores (scoped_set_self _ _ _) => apply restores_scoped_set_self
      | |- restores (emit _) => apply restores_emit; split; reflexivity
      | |- restores (for_each _ _ _) => apply restores_for_each
      | |- restores (bind _ _) => apply restores_bind
      | |- restores (if ?b then _ else _) => destruct b
      | |- restores (match ?x with _ => _ end) => destruct x
      end
    | progress autounfold with jit ]).

Lemma restores_check_rv backend size i rv rv2 :
  restores (ad_call_check_rv backend size i rv rv2).
Proof. unfold ad_call_check_rv. restores_go. Qed.

Lemma restores_getter env backend domain name size index mask_ cc args rv rv_ad
      func payload :
  restores (ad_call_getter env backend domain name size index mask_ cc args rv
                           rv_ad func payload).
Proof.
  unfold ad_call_getter, getter_mask, getter_collect. restores_go.
  - unfold getter_callable. restores_go; apply restores_check_rv.
  - unfold getter_slot, getter_is_literal, getter_entry. restores_go.
Qed.

Lemma restores_record env backend domain name size index mask_ cc args rv rv_ad
      func payload :
  restores (ad_call_record env backend domain name size index mask_ cc args rv
                           rv_ad func payload).
Proof.
  unfold ad_call_record, record_wrap_arg, jit_var_call. restores_go.
  unfold record_callable, record_collect. restores_go; apply restores_check_rv.
Qed.

Lemma restores_reduce env backend domain name size index_ mask cc args rv func
      payload :
  restores (ad_call_reduce env backend domain name size index_ mask cc args rv
                           func payload).
Proof.
  unfold ad_call_reduce, jit_var_call_reduce. restores_go.
  unfold reduce_bucket, reduce_merge. restores_go; apply restores_check_rv.
Qed.

Lemma restores_degenerate backend size args rv func payload :
  restores (ad_call_degenerate backend size args rv func payload).
Proof. unfold ad_call_degenerate. restores_go. Qed.

Lemma restores_prologue env domain cc index mask args :
  restores (ad_call_prologue env domain cc index mask args).
Proof. unfold ad_call_prologue. restores_go. Qed.

Lemma restores_strategy env backend domain cc name is_getter size index mask
      args rv payload func ad :
  restores (ad_call_strategy env backend domain cc name is_getter size index
                             mask args rv payload func ad).
Proof.
  unfold ad_call_strategy. destruct is_getter.
  - apply restores_bind; [apply restores_getter | intros; apply restores_ret].
  - destruct (flag_vcall_record env).
    + apply restores_bind; [apply restores_record | intros; apply restores_ret].
    + destruct (flag_symbolic env); [apply restores_raise|].
      apply restores_bind; [apply restores_reduce | intros; apply restores_ret].
Qed.

Lemma CallOp_delete_returns op w : fst (CallOp_delete op w) = Ok tt.
Proof. unfold CallOp_delete, bind, emit, ret. now destruct (m_cleanup op). Qed.

Lemma restores_CallOp_delete op : restores (CallOp_delete op).
Proof. unfold CallOp_delete. restores_go. Qed.

Lemma restores_wrap env backend domain cc name index mask args rv rv_ad payload
      func cleanup :
  restores (ad_call_wrap env backend domain cc name index mask args rv rv_ad
                         payload func cleanup).
Proof.
  unfold ad_call_wrap. apply restores_bind.
  - unfold CallOp_new. restores_go.
  - intros op w.
    match goal with
    | |- fst (match ?body w with _ => _ end) <> _ -> _ =>
        assert (Hb : restores body)
    end.
    { apply restores_bind.
      - apply restores_for_each. intros i st. unfold ad_call_promote.
        restores_go.
      - intros st. destruct (custom_op env); restores_go. }
    specialize (Hb w).
    match goal with
    | |- fst (match ?body w with _ => _ end) <> _ -> _ =>
        destruct (body w) as [[[[|] rv1] | e |] w1]
    end; cbn [fst snd] in *.
    + intros _. apply Hb. discriminate.
    + intros _. rewrite restores_CallOp_delete;
        [apply Hb; discriminate | rewrite CallOp_delete_returns; discriminate].
    + intros _. rewrite restores_CallOp_delete;
        [apply Hb; discriminate | rewrite CallOp_delete_returns; discriminate].
    + intros H. now contradiction H.
Qed.

Lemma restores_try_rethrow {A} (body : M A) (handler : M unit) :
  restores body -> (forall w, fst (handler w) = Ok tt) -> restores handler ->
  restores (try_rethrow body handler).
Proof.
  intros Hb Hr Hh w. unfold try_rethrow. specialize (Hb w).
  destruct (body w) as [[a | e |] w1]; cbn [fst snd] in *.
  - intros _. apply Hb. discriminate.
  - intros _. rewrite Hh; [apply Hb; discriminate | rewrite Hr; discriminate].
  - intros H. now contradiction H.
Qed.

(** Scoped acquisition: whether [ad_call] returns or throws, the current
    self (value and per-lane variable) is what it was on entry, every mask
    that was pushed has been popped and every recording that was begun has
    been ended. *)
Theorem ad_call_restores_scopes :
  forall env backend domain cc name is_getter index mask args rv payload func
         cleanup ad w,
    let r := ad_call env backend domain cc name is_getter index mask args rv
                     payload func cleanup ad w in
    fst r <> Undefined ->
    self_value (snd r) = self_value w /\
    self_index (snd r) = self_index w /\
    mask_depth (log (snd r)) = mask_depth (log w) /\
    record_depth (log (snd r)) = record_depth (log w).
Proof.
  intros env backend domain cc name is_getter index mask args rv payload func
         cleanup ad w r Hr. subst r.
  assert (R : restores (ad_call env backend domain cc name is_getter index mask
                                args rv payload func cleanup ad)).
  { unfold ad_call. apply restores_try_rethrow.
    - unfold ad_call_body. apply restores_bind; [apply restores_prologue|].
      intros [[[cc' size] needs_ad] degenerate].
      destruct degenerate; [apply restores_degenerate|].
      apply restores_bind; [apply restores_strategy|].
      intros [[rv1 rv_ad] ad'].
      destruct (ad' && _); [apply restores_wrap | apply restores_ret].
    - intros w0. now destruct cleanup.
    - destruct cleanup; restores_go. }
  specialize (R w Hr). unfold scopes in R. inversion R as [[E1 E2 E3 E4]].
  auto.
Qed.

Lemma ad_call_restores_scopes_witness :
  self_value (snd ex_call_run) = self_value ex_world /\
  self_index (snd ex_call_run) = self_index ex_world /\
  mask_depth (log (snd ex_call_run)) = mask_depth (log ex_world) /\
  record_depth (log (snd ex_call_run)) = record_depth (log ex_world).
Proof.
  apply (ad_call_restores_scopes ex_env CUDA None 2 "f" true 1 0 [] [] 77
           ex_getter true true ex_world).
  vm_compute. discriminate.
Defined.

(** ** Ownership of the payload *)

Lemma count_cleanup_app payload l1 l2 :
  count_cleanup payload (l1 ++ l2)
  = (count_cleanup payload l1 + count_cleanup payload l2)%nat.
Proof. unfold count_cleanup. now rewrite filter_app, length_app. Qed.

Lemma count_CallOp_new_app l1 l2 :
  count_CallOp_new (l1 ++ l2) = (count_CallOp_new l1 + count_CallOp_new l2)%nat.
Proof. unfold count_CallOp_new. now rewrite filter_app, length_app. Qed.

Lemma calm_counts payload l :
  Forall calm l -> count_cleanup payload l = 0%nat /\ count_CallOp_new l = 0%nat.
Proof.
  unfold count_cleanup, count_CallOp_new.
  induction 1 as [|e t He Ht [IH1 IH2]]; [auto|].
  destruct e; simpl in *; auto; contradiction.
Qed.

Lemma calm_structural e : structural e -> calm e.
Proof. destruct e; simpl; auto. Qed.

Lemma cleanup_account_calm payload {A} (c : M A) :
  emits calm c -> cleanup_account payload c.
Proof.
  intros H w. destruct (H w) as [l [E F]].
  destruct (calm_counts payload l F) as [C1 C2].
  exists l. split; [exact E|].
  destruct (fst (c w)); auto. rewrite C1, C2. auto.
Qed.

Lemma cleanup_account_bind payload {A B} (c : M A) (k : A -> M B) :
  emits calm c -> (forall a, cleanup_account payload (k a)) ->
  cleanup_account payload (bind c k).
Proof.
  intros Hc Hk w. unfold bind. destruct (Hc w) as [l1 [E1 F1]].
  destruct (calm_counts payload l1 F1) as [C1 C2].
  destruct (c w) as [[a | e |] w1]; cbn [fst snd] in *.
  - destruct (Hk a w1) as [l2 [E2 G2]]. exists (l1 ++ l2).
    split; [now rewrite E2, E1, app_assoc|].
    rewrite count_cleanup_app, count_CallOp_new_app, C1, C2. exact G2.
  - exists l1. split; [exact E1|]. rewrite C1, C2. auto.
  - exists l1. auto.
Qed.

Lemma cleanup_account_after_new payload {A} backend name domain index mask
      cc args func cleanup (k : CallOp -> M A) :
  (forall w0, exists l,
      let r := k (mkCallOp backend name domain index mask cc (map lo32 args)
                           payload func cleanup [] [] [] [] []) w0 in
      log (snd r) = log w0 ++ l /\
      match fst r with
      | Ok _ => count_cleanup payload l = 0%nat
      | Throw _ => count_cleanup payload l = 1%nat /\ count_CallOp_new l = 0%nat
      | Undefined => True
      end) ->
  cleanup_account payload
    (bind (CallOp_new backend name domain index mask cc args payload func cleanup)
          k).
Proof.
  intros Hk w. unfold bind.
  change (CallOp_new backend name domain index mask cc args payload func
                     cleanup w)
    with (Ok (mkCallOp backend name domain index mask cc (map lo32 args)
                       payload func cleanup [] [] [] [] []),
          snd (emit (EvCallOpNew payload) w)).
  cbv iota beta.
  destruct (Hk (snd (emit (EvCallOpNew payload) w))) as [l [E G]].
  cbv zeta in E, G.
  exists (EvCallOpNew payload :: l).
  split; [rewrite E; simpl; rewrite <- app_assoc; reflexivity|].
  change (EvCallOpNew payload :: l) with ([EvCallOpNew payload] ++ l).
  rewrite ?count_cleanup_app, ?count_CallOp_new_app.
  destruct (fst _).
  - now rewrite G.
  - destruct G as [G1 G2]. rewrite G1, G2. auto.
  - exact I.
Qed.

Lemma cleanup_account_wrap env backend domain cc name index mask args rv rv_ad
      payload func :
  cleanup_account payload
    (ad_call_wrap env backend domain cc name index mask args rv rv_ad payload
                  func true).
Proof.
  unfold ad_call_wrap. apply cleanup_account_after_new. intros w0. cbv zeta.
  match goal with
  | |- context [match ?body w0 with _ => _ end] =>
      assert (Hb : emits calm body)
  end.
  { apply emits_bind.
    - apply emits_for_each. intros i st. unfold ad_call_promote.
      emits_go calm_structural.
    - intros st. destruct (custom_op env); emits_go calm_structural. }
  destruct (Hb w0) as [l1 [E1 F1]].
  destruct (calm_counts payload l1 F1) as [C1 C2].
  match goal with
  | |- context [match ?body w0 with _ => _ end] =>
      destruct (body w0) as [[[[|] rv1] | e |] w1]
  end; cbn [fst snd] in *.
  - exists l1. auto.
  - exists (l1 ++ [EvCallOpDelete payload]).
    split; [simpl; rewrite E1, <- !app_assoc; reflexivity|].
    rewrite !count_cleanup_app, C1. reflexivity.
  - exists (l1 ++ [EvCallOpDelete payload; EvCleanup payload]).
    split; [simpl; rewrite E1, <- !app_assoc; reflexivity|].
    rewrite !count_cleanup_app, !count_CallOp_new_app, C1, C2.
    unfold count_cleanup, count_CallOp_new. simpl. rewrite Z.eqb_refl. simpl.
    auto.
  - exists l1. auto.
Qed.

Lemma cleanup_account_body env backend domain cc name is_getter index mask args
      rv payload func ad :
  cleanup_account payload
    (ad_call_body env backend domain cc name is_getter index mask args rv
                  payload func true ad).
Proof.
  assert (HF : forall ptr a, calm (EvFunc ptr a)) by (intros; exact I).
  unfold ad_call_body.
  apply cleanup_account_bind; [apply emits_prologue|].
  intros [[[cc' size] needs_ad] degenerate]. destruct degenerate.
  - apply cleanup_account_calm, emits_degenerate; [apply calm_structural | exact HF].
  - apply cleanup_account_bind;
      [apply emits_strategy; [apply calm_structural | exact HF]|].
    intros [[rv1 rv_ad] ad'].
    destruct (ad' && _); [apply cleanup_account_wrap|].
    apply cleanup_account_calm, emits_ret.
Qed.

(** Ownership of the payload when a cleanup function is given: a dispatch
    that returns has not run the cleanup (the caller or the CallOp will); a
    dispatch that throws has run it once, plus once more for the CallOp it
    had constructed, if any (there is at most one). *)
Theorem ad_call_cleanup_account :
  forall env backend domain cc name is_getter index mask args rv payload func
         ad w,
    let r := ad_call env backend domain cc name is_getter index mask args rv
                     payload func true ad w in
    exists l,
      log (snd r) = log w ++ l /\
      match fst r with
      | Ok _ => count_cleanup payload l = 0%nat
      | Throw _ => count_cleanup payload l = (1 + count_CallOp_new l)%nat /\
                   (count_CallOp_new l <= 1)%nat
      | Undefined => True
      end.
Proof.
  intros env backend domain cc name is_getter index mask args rv payload func
         ad w r. subst r. unfold ad_call, try_rethrow.
  destruct (cleanup_account_body env backend domain cc name is_getter index mask
              args rv payload func ad w) as [l [E G]].
  destruct (ad_call_body _ _ _ _ _ _ _ _ _ _ _ _ _ _ w) as [[a | e |] w1];
    cbn [fst snd] in *.
  - exists l. auto.
  - exists (l ++ [EvCleanup payload]). destruct G as [G1 G2].
    split; [simpl; rewrite E, app_assoc; reflexivity|].
    assert (K1 : count_cleanup payload [EvCleanup payload] = 1%nat)
      by (unfold count_cleanup; simpl; now rewrite Z.eqb_refl).
    assert (K2 : count_CallOp_new [EvCleanup payload] = 0%nat) by reflexivity.
    rewrite count_cleanup_app, count_CallOp_new_app, G1, K1, K2. split; lia.
  - exists l. auto.
Qed.

Lemma emits_after_new P {A} backend name domain index mask cc args payload
      func cleanup (k : CallOp -> M A) :
  P (EvCallOpNew payload) ->
  emits P (k (mkCallOp backend name domain index mask cc (map lo32 args)
                       payload func cleanup [] [] [] [] [])) ->
  emits P (bind (CallOp_new backend name domain index mask cc args payload func
                            cleanup) k).
Proof.
  intros HP Hk w. unfold bind.
  change (CallOp_new backend name domain index mask cc args payload func
                     cleanup w)
    with (Ok (mkCallOp backend name domain index mask cc (map lo32 args)
                       payload func cleanup [] [] [] [] []),
          snd (emit (EvCallOpNew payload) w)).
  cbv iota beta.
  destruct (Hk (snd (emit (EvCallOpNew payload) w))) as [l [E F]].
  exists (EvCallOpNew payload :: l).
  split; [rewrite E; simpl; rewrite <- app_assoc; reflexivity|].
  constructor; assumption.
Qed.

(** Without a cleanup function ([cleanup == nullptr], as in the re-entrant
    calls of the CallOp) no cleanup ever runs, on any outcome. *)
Theorem ad_call_null_cleanup_never_runs :
  forall env backend domain cc name is_getter index mask args rv payload func
         ad w,
  exists l,
    log (snd (ad_call env backend domain cc name is_getter index mask args rv
                      payload func false ad w)) = log w ++ l /\
    Forall not_cleanup l.
Proof.
  intros env backend domain cc name is_getter index mask args rv payload func
         ad.
  assert (HS : forall e, structural e -> not_cleanup e)
    by (intros [] H; simpl in *; auto).
  assert (HF : forall ptr a, not_cleanup (EvFunc ptr a)) by (intros; exact I).
  change (emits not_cleanup
            (ad_call env backend domain cc name is_getter index mask args rv
                     payload func false ad)).
  unfold ad_call. apply emits_try_rethrow; [|apply emits_ret].
  unfold ad_call_body. apply emits_bind; [apply emits_prologue|].
  intros [[[cc' size] needs_ad] degenerate]. destruct degenerate.
  - now apply emits_degenerate.
  - apply emits_bind; [now apply emits_strategy|].
    intros [[rv1 rv_ad] ad']. destruct (ad' && _); [|apply emits_ret].
    unfold ad_call_wrap. apply emits_after_new; [exact I|].
    intros w.
    match goal with
    | |- context [match ?body w with _ => _ end] =>
        assert (Hb : emits not_cleanup body)
    end.
    { apply emits_bind.
      - apply emits_for_each. intros i st. unfold ad_call_promote.
        emits_go HS.
      - intros st. destruct (custom_op env); emits_go HS. }
    destruct (Hb w) as [l1 [E1 F1]].
    match goal with
    | |- context [match ?body w with _ => _ end] =>
        destruct (body w) as [[[[|] rv2] | e |] w1]
    end; cbn [fst snd] in *.
    + exists l1. auto.
    + exists (l1 ++ [EvCallOpDelete payload]).
      split; [simpl; rewrite E1, app_assoc; reflexivity|].
      apply Forall_app. split; [exact F1|]. constructor; [exact I | constructor].
    + exists (l1 ++ [EvCallOpDelete payload]).
      split; [simpl; rewrite E1, app_assoc; reflexivity|].
      apply Forall_app. split; [exact F1|]. constructor; [exact I | constructor].
    + exists l1. auto.
Qed.

(** ** Computations that leave the log alone *)

Lemma quiet_ret {A} (a : A) : quiet (ret a).
Proof. now intros w. Qed.

Lemma quiet_raise {A} e : quiet (@raise A e).
Proof. now intros w. Qed.

Lemma quiet_undefined {A} : quiet (@undefined A).
Proof. now intros w. Qed.

Lemma quiet_get_vars : quiet get_vars.
Proof. now intros w. Qed.

Lemma quiet_jit_malloc : quiet jit_malloc.
Proof. now intros w. Qed.

Lemma quiet_ad_var_new j : quiet (ad_var_new j).
Proof. now intros w. Qed.

Lemma quiet_new_var v : quiet (new_var v).
Proof. intros w. unfold new_var. now destruct (_ <? _). Qed.

Lemma quiet_vget v i : quiet (vget v i).
Proof. unfold vget. destruct (nth_error v i); [apply quiet_ret | apply quiet_undefined]. Qed.

Lemma quiet_vput {A} (v : list A) i x : quiet (vput v i x).
Proof. unfold vput. destruct (vset v i x); [apply quiet_ret | apply quiet_undefined]. Qed.

Lemma quiet_bind {A B} (c : M A) (k : A -> M B) :
  quiet c -> (forall a, quiet (k a)) -> quiet (bind c k).
Proof.
  intros Hc Hk w. unfold bind. destruct (Hc w) as (E1 & E2 & E3).
  destruct (c w) as [[a | e |] w1]; cbn [fst snd] in *; auto.
  destruct (Hk a w1) as (F1 & F2 & F3). rewrite F1, F2, F3. auto.
Qed.

Lemma quiet_for_each {S A} (body : A -> S -> M S) (l : list A) :
  (forall a s, quiet (body a s)) -> forall s, quiet (for_each l body s).
Proof.
  intros H. induction l as [|a t IH]; intros s; simpl.
  - apply quiet_ret.
  - apply quiet_bind; auto.
Qed.

Ltac quiet_go :=
  repeat (intros; first
    [ apply quiet_ret | apply quiet_raise | apply quiet_undefined
    | apply quiet_get_vars | apply quiet_new_var | apply quiet_jit_malloc
    | apply quiet_ad_var_new | apply quiet_vget | apply quiet_vput
    | match goal with
      | |- quiet (for_each _ _ _) => apply quiet_for_each
      | |- quiet (bind _ _) => apply quiet_bind
      | |- quiet (if ?b then _ else _) => destruct b
      | |- quiet (match ?x with _ => _ end) => destruct x
      end
    | progress autounfold with jit ]).

Lemma quiet_check_rv backend size i rv rv2 :
  quiet (ad_call_check_rv backend size i rv rv2).
Proof. unfold ad_call_check_rv. quiet_go. Qed.

Lemma quiet_ok {A} (c : M A) w a w' :
  quiet c -> c w = (Ok a, w') ->
  log w' = log w /\ self_value w' = self_value w /\ self_index w' = self_index w.
Proof. intros H E. specialize (H w). now rewrite E in H. Qed.

Lemma call_func_ok func payload ptr args rv w r w' :
  call_func func payload ptr args rv w = (Ok r, w') ->
  log w' = log w ++ [EvFunc ptr args] /\
  self_value w' = self_value w /\ self_index w' = self_index w.
Proof.
  unfold call_func, bind, emit. cbn [fst snd]. intros H.
  inversion H; subst. auto.
Qed.

(** ** The recording strategy, event by event *)

Lemma scoped_set_self_ok {A} value index (body : M A) w a w' :
  scoped_set_self value index body w = (Ok a, w') ->
  exists wb,
    body (mkWorld (vars w) (ad_next w) (mem_next w) value index
                  (log w ++ [EvSelfPush value index])) = (Ok a, wb) /\
    log w' = log wb ++ [EvSelfPop (self_value w) (self_index w)] /\
    self_value w' = self_value w /\ self_index w' = self_index w.
Proof.
  unfold scoped_set_self, bind, scoped, jit_var_set_self, emit.
  cbn [fst snd self_value self_index log vars ad_next mem_next].
  destruct (body _) as [[x | e |] wb]; intros H; inversion H; subst.
  exists wb. auto.
Qed.

Lemma scoped_set_mask_ok {A} index (body : M A) w a w' :
  scoped_set_mask index body w = (Ok a, w') ->
  exists wb,
    body (snd (emit (EvMaskPush index) w)) = (Ok a, wb) /\
    log w' = log wb ++ [EvMaskPop] /\
    self_value w' = self_value wb /\ self_index w' = self_index wb.
Proof.
  unfold scoped_set_mask, bind, scoped.
  change (emit (EvMaskPush index) w)
    with (@Ok unit tt, snd (emit (EvMaskPush index) w)).
  cbv iota beta.
  destruct (body _) as [[x | e |] wb]; intros H; try discriminate H.
  unfold emit in H. inversion H; subst. exists wb. auto.
Qed.

Lemma scoped_record_ok {A} disarms (body : M A) w a w' :
  scoped_record disarms body w = (Ok a, w') ->
  exists wb,
    body (snd (emit EvRecordBegin w)) = (Ok a, wb) /\
    log w' = log wb ++ [EvRecordEnd (negb disarms)] /\
    self_value w' = self_value wb /\ self_index w' = self_index wb.
Proof.
  unfold scoped_record, bind.
  change (emit EvRecordBegin w) with (@Ok unit tt, snd (emit EvRecordBegin w)).
  cbv iota beta.
  destruct (body _) as [[x | e |] wb]; intros H; try discriminate H.
  unfold emit in H. inversion H; subst. exists wb. auto.
Qed.

Lemma vset_middle {A} (pre post : list A) x y :
  vset (pre ++ x :: post) (length pre) y = Some (pre ++ y :: post).
Proof.
  induction pre as [|p t IH]; simpl; [reflexivity|]. now rewrite IH.
Qed.

Lemma quiet_record_collect l acc : quiet (for_each l record_collect acc).
Proof.
  apply quiet_for_each. intros [j index] [rv3 rv_ad]. unfold record_collect.
  quiet_go.
Qed.

(** One callable of the recording strategy that returned. *)
Lemma record_callable_ok env backend domain size func payload args2 i st w st' w' :
  record_callable env backend domain size func payload args2 i st w = (Ok st', w') ->
  log w' = log w ++ record_events env domain args2 (self_value w) (self_index w) i /\
  self_value w' = self_value w /\ self_index w' = self_index w /\
  (if active env domain i
   then vset (r_inst_id st) i (Z.of_nat i + 1) = Some (r_inst_id st') /\
        r_callable_count_final st' = S (r_callable_count_final st)
   else st' = st).
Proof.
  unfold record_callable, record_events, active, instance_ptr.
  assert (Hrun : forall ptr,
    scoped_set_self (Z.of_nat i + 1) 0
      (rv2 <- call_func func payload ptr args2 [] ;;
       inst_id <- vput (r_inst_id st) i (Z.of_nat i + 1) ;;
       rv <- ad_call_check_rv backend size i (r_rv st) rv2 ;;
       acc <- for_each (List.combine (seq 0 (length rv2)) rv2) record_collect
                (r_rv3 st,
                 if (length (r_rv_ad st) =? 0)%nat
                 then repeat false (length rv2) else r_rv_ad st) ;;
       ret (mkRecordSt rv (fst acc) (snd acc) inst_id
                       (S (r_callable_count_final st)))) w = (Ok st', w') ->
    log w' = log w ++ [EvSelfPush (Z.of_nat i + 1) 0; EvFunc ptr args2;
                       EvSelfPop (self_value w) (self_index w)] /\
    self_value w' = self_value w /\ self_index w' = self_index w /\
    vset (r_inst_id st) i (Z.of_nat i + 1) = Some (r_inst_id st') /\
    r_callable_count_final st' = S (r_callable_count_final st)).
  { intros ptr H. apply scoped_set_self_ok in H.
    destruct H as (wb & H & L & S1 & S2).
    step H as rv2 w1 E1. apply call_func_ok in E1. destruct E1 as (L1 & _ & _).
    step H as inst_id w2 E2.
    pose proof (quiet_ok _ _ _ _ (quiet_vput _ _ _) E2) as (L2 & _ & _).
    apply vput_ok in E2. destruct E2 as [_ E2].
    step H as rv1 w3 E3.
    pose proof (quiet_ok _ _ _ _ (quiet_check_rv _ _ _ _ _) E3) as (L3 & _ & _).
    step H as acc w4 E4.
    pose proof (quiet_ok _ _ _ _ (quiet_record_collect _ _) E4) as (L4 & _ & _).
    inversion H; subst st' wb. clear H. cbn [r_inst_id r_callable_count_final].
    rewrite L, L4, L3, L2, L1. cbn [log]. rewrite <- !app_assoc. auto. }
  destruct domain as [d|].
  - destruct (jit_registry_ptr env (Z.of_nat i + 1) =? 0); cbn [negb].
    + intros H. inversion H; subst. rewrite app_nil_r. auto.
    + intros H. apply Hrun in H. destruct H as (L & S1 & S2 & V & C). auto.
  - intros H. apply Hrun in H. destruct H as (L & S1 & S2 & V & C). auto.
Qed.

(** The loop over the callables, from callable [a] on. *)
Lemma record_loop_ok env backend domain size func payload args2 :
  forall n a pre st w st' w',
    for_each (seq a n)
      (record_callable env backend domain size func payload args2) st w
    = (Ok st', w') ->
    r_inst_id st = pre ++ repeat 0 n -> length pre = a ->
    log w' = log w ++ flat_map (record_events env domain args2 (self_value w)
                                              (self_index w)) (seq a n) /\
    self_value w' = self_value w /\ self_index w' = self_index w /\
    r_inst_id st' = pre ++ map (record_inst_id env domain) (seq a n) /\
    r_callable_count_final st'
    = (r_callable_count_final st + length (filter (active env domain) (seq a n)))%nat.
Proof.
  induction n as [|n IH]; intros a pre st w st' w' H Hi Hp; cbn [seq for_each] in H.
  - inversion H; subst. cbn. rewrite !app_nil_r in *. repeat split; auto.
  - subst a. step H as st1 w1 E.
    apply record_callable_ok in E. destruct E as (L1 & S1 & S2 & Hact).
    set (a := length pre) in *.
    assert (Hi1 : r_inst_id st1 = (pre ++ [record_inst_id env domain a])
                                  ++ repeat 0 n).
    { unfold record_inst_id. destruct (active env domain a).
      - destruct Hact as [V _]. rewrite Hi in V. cbn [repeat] in V.
        subst a. rewrite vset_middle in V. inversion V as [V'].
        now rewrite <- app_assoc.
      - subst st1. rewrite Hi. cbn [repeat]. now rewrite <- app_assoc. }
    assert (Hp1 : length (pre ++ [record_inst_id env domain a]) = S a)
      by (rewrite length_app; simpl; lia).
    destruct (IH _ _ _ _ _ _ H Hi1 Hp1) as (L2 & T1 & T2 & I2 & C2).
    rewrite S1, S2 in L2.
    cbn [flat_map map filter seq].
    split; [rewrite L2, L1, <- app_assoc; reflexivity|].
    split; [congruence|]. split; [congruence|].
    split; [rewrite I2, <- app_assoc; reflexivity|].
    rewrite C2. unfold record_events in L1.
    destruct (active env domain a).
    + destruct Hact as [_ C]. rewrite C. cbn [length]. lia.
    + subst st1. lia.
Qed.

Lemma record_wrap_args_ok :
  forall args acc w acc' w',
    for_each args record_wrap_arg acc w = (Ok acc', w') ->
    (length (fst acc') = length (fst acc) + length args)%nat /\
    (length (snd acc') = length (snd acc) + length args)%nat.
Proof.
  induction args as [|a t IH]; intros acc w acc' w' H; cbn [for_each] in H.
  - inversion H; subst. cbn. lia.
  - step H as acc1 w1 E. apply IH in H. destruct H as [H1 H2].
    assert (L : (length (fst acc1) = S (length (fst acc)))%nat /\
                (length (snd acc1) = S (length (snd acc)))%nat).
    { unfold record_wrap_arg in E. destruct acc as [args2 args3].
      step E as wrapped w2 E1. destruct (negb (hi32 a =? 0)).
      - step E as x w3 E2. inversion E; subst. cbn [fst snd].
        rewrite !length_app. cbn. lia.
      - inversion E; subst. cbn [fst snd]. rewrite !length_app. cbn. lia. }
    destruct L as [L1 L2]. cbn [length]. lia.
Qed.

Lemma quiet_record_wrap_args args acc : quiet (for_each args record_wrap_arg acc).
Proof.
  apply quiet_for_each. intros a [args2 args3]. unfold record_wrap_arg.
  quiet_go.
Qed.

(** The recording strategy, when it returns, has done exactly this: begun a
    recording and pushed the call mask; visited the callables in id order,
    skipping the ids that the registry of the domain does not know, each
    under self = its id, each on the same wrapped arguments, and put self
    back after each; popped the mask; emitted one indirect call, to which it
    passes the number of callables it invoked and the vector [inst_id],
    which holds the id of each invoked callable at its own position and 0 at
    the position of a skipped one; and committed the recording. *)
Theorem ad_call_record_events :
  forall env backend domain name size index mask_ cc args rv rv_ad func payload
         w r w',
    ad_call_record env backend domain name size index mask_ cc args rv rv_ad
                   func payload w = (Ok r, w') ->
    exists call_mask args2 args3 rv3,
      length args2 = length args /\ length args3 = length args /\
      log w' =
        log w
        ++ [EvRecordBegin; EvMaskPush call_mask]
        ++ flat_map (record_events env domain args2 (self_value w) (self_index w))
                    (seq 0 cc)
        ++ [EvMaskPop;
            EvCall (length (filter (active env domain) (seq 0 cc)))
                   (map (record_inst_id env domain) (seq 0 cc)) args3 rv3;
            EvRecordEnd false].
Proof.
  intros env backend domain name size index mask_ cc args rv rv_ad func payload
         w r w' H.
  unfold ad_call_record in H.
  step H as mask w1 E1.
  assert (Q1 : log w1 = log w /\ self_value w1 = self_value w
               /\ self_index w1 = self_index w).
  { eapply quiet_ok; [|exact E1].
    destruct (negb (mask_ =? 0)); [apply quiet_ret|].
    unfold jit_var_bool, jit_var_literal. apply quiet_new_var. }
  destruct Q1 as (L1 & S1 & T1). clear E1.
  apply scoped_record_ok in H. destruct H as (wb & H & Lend & _ & _).
  step H as a w2 E2. destruct a as [args2 args3].
  pose proof (quiet_ok _ _ _ _ (quiet_record_wrap_args _ _) E2) as (L2 & S2 & T2).
  apply record_wrap_args_ok in E2. cbn [fst snd length] in E2.
  destruct E2 as [A2 A3].
  step H as call_mask w3 E3.
  assert (Q3 : log w3 = log w2 /\ self_value w3 = self_value w2
               /\ self_index w3 = self_index w2)
    by (eapply quiet_ok; [|exact E3]; unfold jit_var_call_mask; apply quiet_new_var).
  destruct Q3 as (L3 & S3 & T3). clear E3.
  step H as st w4 E4.
  apply scoped_set_mask_ok in E4. destruct E4 as (wc & E4 & L4 & _ & _).
  apply (record_loop_ok _ _ _ _ _ _ _ cc 0%nat []) in E4; [|reflexivity|reflexivity].
  destruct E4 as (L5 & _ & _ & I5 & C5).
  cbn [r_callable_count_final r_inst_id app plus] in I5, C5.
  step H as rv4 w5 E5. inversion H; subst r wb. clear H.
  unfold jit_var_call in E5. step E5 as u w6 E6.
  unfold emit in E6. inversion E6; subst u w6. clear E6.
  match type of E5 with
  | for_each ?l ?body ?s ?w0 = _ =>
      assert (Q5 : quiet (for_each l body s))
  end.
  { apply quiet_for_each. intros i rv4'. quiet_go. }
  pose proof (quiet_ok _ _ _ _ Q5 E5) as (L6 & _ & _). cbn [log] in L6.
  exists call_mask, args2, args3, (r_rv3 st).
  split; [exact A2|]. split; [exact A3|].
  unfold emit in L5, L2, S2, T2.
  cbn [snd log self_value self_index] in L5, L2, S2, T2.
  rewrite Lend, L6, L4, L5, L3, L2, L1, S3, S2, S1, T3, T2, T1, I5, C5.
  cbn [negb]. rewrite <- !app_assoc. reflexivity.
Qed.

Lemma ad_call_record_events_witness :
  exists call_mask args2 args3 rv3,
    length args2 = 1%nat /\ length args3 = 1%nat /\
    log (snd (ad_call_record ex_env CUDA None "f" 4 1 0 2 [2] [] [] ex_func 77
                             ex_world)) =
      log ex_world
      ++ [EvRecordBegin; EvMaskPush call_mask]
      ++ flat_map (record_events ex_env None args2 0 0) (seq 0 2)
      ++ [EvMaskPop;
          EvCall 2 (map (record_inst_id ex_env None) (seq 0 2)) args3 rv3;
          EvRecordEnd false].
Proof.
  apply (ad_call_record_events ex_env CUDA None "f" 4 1 0 2 [2] [] [] ex_func 77
           ex_world
           (match fst (ad_call_record ex_env CUDA None "f" 4 1 0 2 [2] [] []
                                      ex_func 77 ex_world) with
            | Ok x => x
            | _ => ([], [])
            end)
           (snd (ad_call_record ex_env CUDA None "f" 4 1 0 2 [2] [] [] ex_func
                                77 ex_world))).
  vm_compute. reflexivity.
Defined.

(** ** Finer accounts of the log *)

Lemma emits_scoped_set_mask_f {A} P index (body : M A) :
  P (EvMaskPush index) -> P EvMaskPop -> emits P body ->
  emits P (scoped_set_mask index body).
Proof.
  intros H1 H2 Hb. unfold scoped_set_mask. apply emits_bind.
  - now apply emits_emit.
  - intros _. apply emits_scoped; auto. now apply emits_emit.
Qed.

Lemma emits_scoped_record_f {A} P disarms (body : M A) :
  P EvRecordBegin -> P (EvRecordEnd (negb disarms)) -> P (EvRecordEnd true) ->
  emits P body -> emits P (scoped_record disarms body).
Proof.
  intros H1 H2 H3 Hb. unfold scoped_record. apply emits_bind.
  - now apply emits_emit.
  - intros _ w. destruct (Hb w) as [l1 [E1 F1]].
    destruct (body w) as [[a | e |] w'] eqn:Eb; simpl in E1; simpl.
    + exists (l1 ++ [EvRecordEnd (negb disarms)]).
      rewrite E1, app_assoc. split; [reflexivity|].
      apply Forall_app; split; auto.
    + exists (l1 ++ [EvRecordEnd true]).
      rewrite E1, app_assoc. split; [reflexivity|].
      apply Forall_app; split; auto.
    + exists l1. auto.
Qed.

Lemma emits_scoped_set_self_f {A} P value index (body : M A) :
  P (EvSelfPush value index) -> (forall a b, P (EvSelfPop a b)) ->
  emits P body -> emits P (scoped_set_self value index body).
Proof.
  intros H1 H2 Hb w. unfold scoped_set_self.
  set (c := jit_var_set_self value index ;;; _).
  assert (Hc : emits P c).
  { apply emits_bind; [apply emits_set_self | intros _].
    apply emits_bind; [now apply emits_emit | intros _].
    apply emits_scoped; auto.
    apply emits_bind; [apply emits_set_self | intros _].
    apply emits_emit, H2. }
  apply Hc.
Qed.

(** As [emits_go], for a predicate that not every bookkeeping event
    satisfies: each event is checked on its own. *)
Ltac emits_fine :=
  repeat (intros; first
    [ emits_prim
    | apply emits_check_rv
    | match goal with
      | |- emits _ (call_func _ _ _ _ _) =>
          apply emits_call_func; solve [simpl; auto]
      | |- emits _ (scoped_set_mask _ _) =>
          apply emits_scoped_set_mask_f; [solve [simpl; auto] ..|]
      | |- emits _ (scoped_record _ _) =>
          apply emits_scoped_record_f; [solve [simpl; auto] ..|]
      | |- emits _ (scoped_set_self _ _ _) =>
          apply emits_scoped_set_self_f; [solve [simpl; auto] ..|]
      | |- emits _ (emit _) => apply emits_emit; solve [simpl; auto]
      | |- emits _ (for_each _ _ _) => apply emits_for_each
      | |- emits _ (bind _ _) => apply emits_bind
      | |- emits _ (if ?b then _ else _) => destruct b
      | |- emits _ (match ?x with _ => _ end) => destruct x
      end
    | progress autounfold with jit ]).


Lemma no_null_getter_callable env backend d size cc func payload i st :
  emits no_null_instance
        (getter_callable env backend (Some d) size cc func payload i st).
Proof.
  unfold getter_callable. cbv zeta.
  destruct (jit_registry_ptr env (Z.of_nat i + 1) =? 0) eqn:E; [apply emits_ret|].
  apply Z.eqb_neq in E. emits_fine.
Qed.

Lemma no_null_record_callable env backend d size func payload args2 i st :
  emits no_null_instance
        (record_callable env backend (Some d) size func payload args2 i st).
Proof.
  unfold record_callable. cbv zeta.
  destruct (jit_registry_ptr env (Z.of_nat i + 1) =? 0) eqn:E; [apply emits_ret|].
  apply Z.eqb_neq in E. unfold record_collect. emits_fine.
Qed.

Lemma no_null_reduce_bucket env backend d size index memop_mask args func
      payload p st :
  emits no_null_instance
        (reduce_bucket env backend (Some d) size index memop_mask args func
                       payload p st).
Proof.
  unfold reduce_bucket. destruct p as [i bucket], st as [rv last].
  destruct (bucket_id bucket =? 0); [apply emits_ret|]. cbv zeta.
  apply emits_bind; [emits_fine | intros wavefront_size].
  apply emits_bind; [emits_fine | intros u].
  apply emits_bind; [emits_fine | intros default_mask].
  apply emits_scoped_set_mask_f; [exact I | exact I |].
  apply emits_bind; [emits_fine | intros args2].
  apply emits_bind_post; [emits_fine | intros w ptr w' Hptr].
  assert (Hnz : ptr <> 0).
  { destruct (jit_registry_ptr env (bucket_id bucket) =? 0) eqn:E;
      [discriminate Hptr|].
    apply Z.eqb_neq in E. inversion Hptr; subst. exact E. }
  unfold reduce_merge. emits_fine.
Qed.

(** With a domain, no strategy ever invokes a callable on a null instance
    pointer: the getter and the recording strategy skip an id that the
    registry does not know, and the evaluated strategy raises instead. *)
Theorem ad_call_strategy_no_null_instance :
  forall env backend d cc name is_getter size index mask args rv payload func
         ad w,
  exists l,
    log (snd (ad_call_strategy env backend (Some d) cc name is_getter size index
                               mask args rv payload func ad w)) = log w ++ l /\
    Forall no_null_instance l.
Proof.
  intros env backend d cc name is_getter size index mask args rv payload func
         ad.
  change (emits no_null_instance
            (ad_call_strategy env backend (Some d) cc name is_getter size index
                              mask args rv payload func ad)).
  unfold ad_call_strategy. destruct is_getter.
  - apply emits_bind; [|intros; apply emits_ret].
    unfold ad_call_getter, getter_mask, getter_collect.
    apply emits_bind; [emits_fine | intros m].
    apply emits_bind;
      [apply emits_for_each; intros; apply no_null_getter_callable | intros st].
    unfold getter_slot, getter_is_literal, getter_entry. emits_fine.
  - destruct (flag_vcall_record env).
    + apply emits_bind; [|intros; apply emits_ret].
      unfold ad_call_record, record_wrap_arg, jit_var_call.
      apply emits_bind; [emits_fine | intros m].
      apply emits_scoped_record_f; [exact I | exact I | exact I |].
      apply emits_bind; [emits_fine | intros [args2 args3]].
      apply emits_bind; [emits_fine | intros call_mask].
      apply emits_bind; [|emits_fine].
      apply emits_scoped_set_mask_f; [exact I | exact I |].
      apply emits_for_each. intros. apply no_null_record_callable.
    + destruct (flag_symbolic env); [apply emits_raise|].
      apply emits_bind; [|intros; apply emits_ret].
      unfold ad_call_reduce, jit_var_call_reduce.
      apply emits_bind; [emits_fine | intros idx].
      apply emits_bind; [emits_fine | intros u].
      apply emits_bind; [emits_fine | intros u2].
      apply emits_bind; [emits_fine | intros buckets].
      apply emits_bind; [emits_fine | intros memop_mask].
      apply emits_bind; [|emits_fine].
      apply emits_for_each. intros. apply no_null_reduce_bucket.
Qed.

(** Cancellation: when the recording strategy throws, nothing of the
    recording is kept.  Either nothing was recorded yet, or the recording
    that was begun is ended with [cleanup = true]; it is never committed. *)
Theorem ad_call_record_discards_on_throw :
  forall env backend domain name size index mask_ cc args rv rv_ad func payload
         w e w',
    ad_call_record env backend domain name size index mask_ cc args rv rv_ad
                   func payload w = (Throw e, w') ->
    log w' = log w \/
    exists l, log w' = log w ++ [EvRecordBegin] ++ l ++ [EvRecordEnd true] /\
              Forall not_record l.
Proof.
  intros env backend domain name size index mask_ cc args rv rv_ad func payload
         w e w' H.
  unfold ad_call_record in H. unfold bind at 1 in H.
  match type of H with
  | match ?c w with _ => _ end = _ =>
      assert (Q : quiet c)
        by (destruct (negb (mask_ =? 0));
            [apply quiet_ret
            | unfold jit_var_bool, jit_var_literal; apply quiet_new_var]);
      destruct (Q w) as (L1 & _ & _);
      destruct (c w) as [[m | e1 |] w1]; cbn [fst snd] in L1
  end.
  - right. unfold scoped_record in H. unfold bind at 1 in H.
    change (emit EvRecordBegin w1) with (@Ok unit tt, snd (emit EvRecordBegin w1))
      in H.
    cbv iota beta in H.
    match type of H with
    | match ?body ?w0 with _ => _ end = _ =>
        assert (Hb : emits not_record body)
    end.
    { unfold record_wrap_arg, jit_var_call.
      apply emits_bind; [emits_fine | intros [args2 args3]].
      apply emits_bind; [emits_fine | intros call_mask].
      apply emits_bind; [|emits_fine].
      apply emits_scoped_set_mask_f; [exact I | exact I |].
      apply emits_for_each. intros i st.
      unfold record_callable, record_collect. emits_fine. }
    destruct (Hb (snd (emit EvRecordBegin w1))) as [l [E F]].
    match type of H with
    | match ?body ?w0 with _ => _ end = _ =>
        destruct (body w0) as [[a | e2 |] w2]; try discriminate H
    end.
    inversion H; subst. exists l. split; [|exact F].
    cbn [fst snd] in E. unfold emit in *. cbn [snd log] in *.
    rewrite E, L1, <- !app_assoc. reflexivity.
  - left. inversion H; subst. exact L1.
  - discriminate H.
Qed.

Lemma ad_call_record_discards_on_throw_witness :
  let r := ad_call_record ex_env CUDA None "f" 4 1 0 2 [] [] [] ex_func_throws 77
                          ex_world in
  log (snd r) = log ex_world \/
  exists l, log (snd r) = log ex_world ++ [EvRecordBegin] ++ l ++ [EvRecordEnd true]
            /\ Forall not_record l.
Proof.
  apply (ad_call_record_discards_on_throw ex_env CUDA None "f" 4 1 0 2 [] [] []
           ex_func_throws 77 ex_world (External "user")).
  vm_compute. reflexivity.
Defined.

(** ** The degenerate case, in full *)

Lemma degenerate_slot_extends backend size vs_f vs' l x h :
  degenerate_slot backend size vs_f vs' x h ->
  degenerate_slot backend size vs_f (vs' ++ l) x h.
Proof.
  unfold degenerate_slot. destruct (x =? 0); [auto|].
  intros (Hn & Hh & Ho & Hs & Hb & Ht).
  rewrite !lookup_app by exact Hh. rewrite length_app.
  repeat split; auto. lia.
Qed.

Lemma degenerate_loop backend size vs_f :
  forall rvf acc w rv' w',
    for_each rvf
      (fun i (acc : list Z) =>
         if negb (i =? 0) then
           t <- jit_var_type (lo32 i) ;;
           h <- jit_var_literal backend t 0 size ;;
           ret (acc ++ [h])
         else ret (acc ++ [i])) acc w = (Ok rv', w') ->
    (exists l0, vars w = vs_f ++ l0) ->
    exists added l,
      rv' = acc ++ added /\ vars w' = vars w ++ l /\
      log w' = log w /\
      Forall2 (degenerate_slot backend size vs_f (vars w')) rvf added.
Proof.
  induction rvf as [|x t IH]; intros acc w rv' w' H [l0 Hp]; cbn [for_each] in H.
  - inversion H; subst. exists [], []. rewrite !app_nil_r. auto.
  - step H as acc1 w1 E. destruct (negb (x =? 0)) eqn:Ex.
    + step E as ty wa Et.
      unfold jit_var_type, bind, get_vars, ret in Et. inversion Et; subst ty wa.
      clear Et. step E as h wb Eh. inversion E; subst acc1 wb. clear E.
      unfold jit_var_literal in Eh. pose proof (nz_fresh _ _ _ _ Eh) as Hnz.
      apply new_var_ok in Eh. destruct Eh as (Hh & _ & Ev & El).
      assert (Hp1 : exists l1, vars w1 = vs_f ++ l1)
        by (eexists; rewrite Ev, Hp, <- app_assoc; reflexivity).
      destruct (IH _ _ _ _ H Hp1) as (added & l & -> & Ev' & El' & HF).
      exists (h :: added), ([mkVar (OpLiteral 0) backend
                                   (v_type (lookup (vars w) (lo32 x))) Literal size]
                            ++ l).
      split; [now rewrite <- app_assoc|].
      split; [rewrite Ev', Ev, <- app_assoc; reflexivity|].
      split; [congruence|].
      constructor; [|exact HF].
      rewrite Ev', Ev. apply degenerate_slot_extends.
      unfold degenerate_slot. apply negb_true_iff in Ex. rewrite Ex.
      rewrite Hh, (lookup_new _ _ []). cbn [v_op v_size v_backend v_type].
      rewrite <- Hh. repeat split; auto.
      * rewrite length_app. cbn. lia.
      * intros Hx. rewrite Hp. now rewrite lookup_app.
    + inversion E; subst acc1 w1. clear E.
      destruct (IH _ _ _ _ H (ex_intro _ l0 Hp)) as (added & l & -> & Ev' & El' & HF).
      exists (x :: added), l.
      split; [now rewrite <- app_assoc|]. split; [exact Ev'|].
      split; [exact El'|].
      constructor; [|exact HF].
      unfold degenerate_slot. apply negb_false_iff in Ex. rewrite Ex.
      now apply Z.eqb_eq.
Qed.

Lemma scoped_set_mask_world {A} index (body : M A) w a w' :
  scoped_set_mask index body w = (Ok a, w') ->
  exists wb,
    body (snd (emit (EvMaskPush index) w)) = (Ok a, wb) /\
    w' = snd (emit EvMaskPop wb).
Proof.
  unfold scoped_set_mask, bind, scoped.
  change (emit (EvMaskPush index) w)
    with (@Ok unit tt, snd (emit (EvMaskPush index) w)).
  cbv iota beta.
  destruct (body _) as [[x | e |] wb]; intros H; try discriminate H.
  unfold emit in H. inversion H; subst. exists wb. auto.
Qed.

(** The degenerate case, when it returns: the callable has run exactly once,
    on a null instance pointer and on the arguments of the dispatch
    themselves, between the push and the pop of a mask that is the literal
    false; the dispatch reports that the caller cleans up; and slot by slot
    the handle that the callable left is either zero and kept, or replaced
    by a zero literal of its type and of the unified size. *)
Theorem ad_call_degenerate_events :
  forall backend size args rv func payload w r w',
    ad_call_degenerate backend size args rv func payload w = (Ok r, w') ->
    let false_var := mkVar (OpLiteral 0) backend VT_Bool Literal 1 in
    let out := func payload 0 args rv (vars w ++ [false_var]) (ad_next w) in
    exists m rvf,
      fst r = true /\
      lookup (vars w') m = false_var /\
      log w' = log w ++ [EvMaskPush m; EvFunc 0 args; EvMaskPop] /\
      u_res out = Ok rvf /\
      Forall2 (degenerate_slot backend size (vars w ++ false_var :: u_new out)
                               (vars w'))
              rvf (snd r).
Proof.
  intros backend size args rv func payload w r w' H false_var out.
  unfold ad_call_degenerate in H.
  step H as m w1 E1. unfold jit_var_bool, jit_var_literal, new_var in E1.
  cbn [negb] in E1. fold false_var in E1.
  destruct (Z.of_nat (length (vars w)) + 1 <? 4294967296); [|discriminate E1].
  inversion E1; subst m w1. clear E1.
  apply scoped_set_mask_world in H. destruct H as (wb & H & ->).
  step H as rvf w2 E2.
  unfold call_func, bind, emit in E2. cbn [fst snd] in E2.
  cbn [vars ad_next mem_next self_value self_index log] in E2.
  fold out in E2. inversion E2 as [[R2 W2]]. clear E2.
  step H as rv2 w3 E3. inversion H; subst r wb. clear H.
  apply (degenerate_loop backend size (vars w ++ false_var :: u_new out)) in E3.
  - destruct E3 as (added & l & -> & V3 & L3 & HF).
    exists (Z.of_nat (length (vars w)) + 1), rvf. split; [reflexivity|].
    unfold emit. cbn [snd vars log fst app].
    rewrite V3, L3, <- W2. cbn [vars log].
    split; [rewrite <- !app_assoc; apply lookup_new|].
    split; [rewrite <- !app_assoc; reflexivity|].
    split; [exact R2|].
    rewrite V3, <- W2 in HF. cbn [vars] in HF. exact HF.
  - rewrite <- W2. cbn [vars]. exists []. rewrite app_nil_r, <- app_assoc.
    reflexivity.
Qed.

Lemma ad_call_degenerate_events_witness :
  exists m rvf,
    fst (true, [0]) = true /\
    lookup (vars (snd (ad_call_degenerate CUDA 4 [2] [] ex_func_empty 77 ex_world))) m
    = mkVar (OpLiteral 0) CUDA VT_Bool Literal 1 /\
    log (snd (ad_call_degenerate CUDA 4 [2] [] ex_func_empty 77 ex_world))
    = log ex_world ++ [EvMaskPush m; EvFunc 0 [2]; EvMaskPop] /\
    u_res (ex_func_empty 77 0 [2] []
             (vars ex_world ++ [mkVar (OpLiteral 0) CUDA VT_Bool Literal 1])
             (ad_next ex_world)) = Ok rvf /\
    Forall2 (degenerate_slot CUDA 4
               (vars ex_world ++ mkVar (OpLiteral 0) CUDA VT_Bool Literal 1
                  :: u_new (ex_func_empty 77 0 [2] []
                              (vars ex_world
                               ++ [mkVar (OpLiteral 0) CUDA VT_Bool Literal 1])
                              (ad_next ex_world)))
               (vars (snd (ad_call_degenerate CUDA 4 [2] [] ex_func_empty 77
                                              ex_world))))
            rvf (snd (true, [0])).
Proof.
  apply (ad_call_degenerate_events CUDA 4 [2] [] ex_func_empty 77 ex_world
           (true, [0])
           (snd (ad_call_degenerate CUDA 4 [2] [] ex_func_empty 77 ex_world))).
  vm_compute. reflexivity.
Defined.

(** ** Return values after a dispatch *)

(** C2, as the code has it: after a successful dispatch that was entered
    with no zero handle in [rv], every handle of [rv] has a non-zero IR part
    on the getter, recording and evaluated strategies.  On the degenerate
    path the result follows, slot by slot, what the callable left: a handle
    that it left zero stays zero, and a handle that it left non-zero is
    replaced by a fresh zero literal of the unified size, on the backend of
    the dispatch and of the type of the variable that the callable
    returned. *)
Theorem ad_call_rv_nonzero :
  forall env backend domain cc name is_getter index mask args rv payload func
         cleanup ad w flag rv' w' cc' size needs_ad degenerate w1,
    Forall nz rv ->
    ad_call_prologue env domain cc index mask args w
    = (Ok (cc', size, needs_ad, degenerate), w1) ->
    ad_call env backend domain cc name is_getter index mask args rv payload
            func cleanup ad w = (Ok (flag, rv'), w') ->
    if (degenerate : bool) then
      let false_var := mkVar (OpLiteral 0) backend VT_Bool Literal 1 in
      let out := func payload 0 args rv (vars w1 ++ [false_var]) (ad_next w1) in
      exists rvf,
        u_res out = Ok rvf /\
        Forall2 (degenerate_slot backend size
                                 (vars w1 ++ false_var :: u_new out) (vars w'))
                rvf rv'
    else Forall nz rv'.
Proof.
  intros env backend domain cc name is_getter index mask args rv payload func
         cleanup ad w flag rv' w' cc' size needs_ad degenerate w1 Hrv Hp H.
  unfold ad_call, try_rethrow in H.
  match type of H with
  | match ?body w with _ => _ end = _ =>
      destruct (body w) as [[r | e |] w2] eqn:E; try discriminate H
  end.
  inversion H; subst r w2. clear H.
  unfold ad_call_body in E. unfold bind at 1 in E. rewrite Hp in E.
  destruct degenerate.
  - intros false_var out. unfold ad_call_degenerate in E.
    step E as m wa E1. unfold jit_var_bool, jit_var_literal, new_var in E1.
    cbn [negb] in E1. fold false_var in E1.
    destruct (Z.of_nat (length (vars w1)) + 1 <? 4294967296);
      [|discriminate E1].
    inversion E1; subst m wa. clear E1.
    apply scoped_set_mask_world in E. destruct E as (wb & E & ->).
    step E as rvf wc E2.
    unfold call_func, bind, emit in E2. cbn [fst snd] in E2.
    cbn [vars ad_next mem_next self_value self_index log] in E2.
    fold out in E2. inversion E2 as [[R2 W2]]. clear E2.
    step E as rv2 wd E3. inversion E; subst flag rv2 wd. clear E.
    apply (degenerate_loop backend size (vars w1 ++ false_var :: u_new out))
      in E3.
    + destruct E3 as (added & l & -> & V3 & L3 & HF).
      exists rvf. split; [exact R2|].
      unfold emit. cbn [snd vars].
      rewrite V3, <- W2 in HF. cbn [vars] in HF.
      rewrite V3, <- W2. cbn [vars]. exact HF.
    + rewrite <- W2. cbn [vars]. exists []. rewrite app_nil_r, <- app_assoc.
      reflexivity.
  - step E as r wa Es. destruct r as [[rv1 rv_ad] ad'].
    apply post_strategy in Es; [|exact Hrv]. simpl in Es.
    destruct (ad' && fold_left orb rv_ad needs_ad).
    + apply post_wrap in E; [exact E | exact Es].
    + inversion E; subst. exact Es.
Qed.

Lemma ad_call_rv_nonzero_witness :
  let false_var := mkVar (OpLiteral 0) CUDA VT_Bool Literal 1 in
  let out := ex_func 77 0 [2] [] (vars ex_world ++ [false_var])
                     (ad_next ex_world) in
  exists rvf,
    u_res out = Ok rvf /\
    Forall2 (degenerate_slot CUDA 4 (vars ex_world ++ false_var :: u_new out)
                             (vars (snd ex_degenerate_run)))
            rvf [5].
Proof.
  apply (ad_call_rv_nonzero ex_env CUDA (Some "Base"%string) 0 "f" false 1 0
           [2] [] 77 ex_func true true ex_world true [5]
           (snd ex_degenerate_run) 0%nat 4 false true ex_world).
  - constructor.
  - vm_compute. reflexivity.
  - vm_compute. reflexivity.
Defined.

(** C2 fails as stated: on the degenerate path (here the instance index is
    the empty handle 0) a zero handle that the callable returns is left in
    [rv]; and a strategy that invokes no callable (here the evaluated
    strategy with no bucket) returns the [rv] it was given, zero handles
    included. *)
Lemma ad_call_degenerate_keeps_zero_handle :
  fst (ad_call ex_env CUDA None 2 "f" false 0 0 [] [] 77 ex_func_empty true true
               ex_world) = Ok (true, [0]) /\
  fst (ad_call ex_env_no_bucket CUDA None 2 "f" false 1 0 [] [0] 77 ex_func true
               true ex_world) = Ok (true, [0]) /\
  ~ Forall nz [0].
Proof.
  split; [vm_compute; reflexivity|]. split; [vm_compute; reflexivity|].
  intros H. inversion H; subst. apply H2. reflexivity.
Qed.

(** ** Strategy selection *)

(** [SymbolicModeRequired]: a call whose prologue finds it not degenerate
    (the prologue leaves the world as it is) and that is not a getter,
    made with symbolic calls switched off while a symbolic region is
    active, raises before any callable is invoked; nothing is created, and
    the only event is the cleanup of the handler. *)
Theorem ad_call_symbolic_mode_required :
  forall env backend domain cc name index mask args rv payload func cleanup ad
         w cc' size needs_ad,
    ad_call_prologue env domain cc index mask args w
    = (Ok (cc', size, needs_ad, false), w) ->
    flag_vcall_record env = false ->
    flag_symbolic env = true ->
    let r := ad_call env backend domain cc name false index mask args rv payload
                     func cleanup ad w in
    fst r = Throw SymbolicModeRequired /\
    vars (snd r) = vars w /\
    log (snd r) = log w ++ (if cleanup then [EvCleanup payload] else []).
Proof.
  intros env backend domain cc name index mask args rv payload func cleanup ad
         w cc' size needs_ad Hp Hr Hs r. subst r.
  assert (E : ad_call_body env backend domain cc name false index mask args rv
                 payload func cleanup ad w = (Throw SymbolicModeRequired, w)).
  { unfold ad_call_body. unfold bind at 1. rewrite Hp. cbv iota beta.
    unfold bind at 1. unfold ad_call_strategy. rewrite Hr, Hs. reflexivity. }
  unfold ad_call, try_rethrow. rewrite E.
  destruct cleanup; cbn; repeat split; auto. symmetry. apply app_nil_r.
Qed.

Lemma ad_call_symbolic_mode_required_witness :
  fst (ad_call ex_env_symbolic CUDA None 2 "f" false 1 0 [2] [] 77 ex_func true
               true ex_world) = Throw SymbolicModeRequired.
Proof.
  apply (ad_call_symbolic_mode_required ex_env_symbolic CUDA None 2 "f" 1 0 [2]
           [] 77 ex_func true true ex_world 2%nat 4 false).
  - vm_compute. reflexivity.
  - reflexivity.
  - reflexivity.
Defined.

(** ** The modes of if_stmt *)

Section IfStmtModes.
Context {Args Rv : Type}.
Variable cast_bool : PyObject -> PyExn + bool.
Variable true_fn false_fn : Args -> PyExn + Rv.
Variable ad_cond : JitBackend -> Z -> Z -> Args -> list IfEvent * (PyExn + Rv).

(** The conditions that pass lines 138-155 are exactly the Jit-compiled 1D
    boolean arrays with a non-zero 32-bit index; the check hands on the
    backend of the array type and the index without its AD half. *)
Theorem if_stmt_cond_accepts :
  forall cond backend cond_index,
    if_stmt_cond cond = inr (backend, cond_index) <->
    exists s index,
      cond = PyDrJit s index /\ jit_bool_1d s = true /\
      backend = s_backend s /\ cond_index = lo32 index /\ cond_index <> 0.
Proof.
  intros cond backend cond_index. unfold if_stmt_cond, jit_bool_1d. split.
  - destruct cond as [b | s index |]; cbn; try discriminate.
    destruct (type_eqb (s_type s) VT_Bool && (s_ndim s =? 1)%nat
              && negb (backend_eqb (s_backend s) Backend_None)) eqn:E;
      cbn; [|discriminate].
    destruct (lo32 index =? 0) eqn:Z0; [discriminate|].
    rewrite Z0. intros H. injection H as <- <-.
    exists s, index. repeat split; auto. now apply Z.eqb_neq.
  - intros (s & index & -> & Hs & -> & -> & Hz).
    rewrite Hs. apply Z.eqb_neq in Hz. cbv zeta iota beta.
    rewrite Hz. cbv iota beta. rewrite Hz. reflexivity.
Qed.

(** An accepted array condition goes to [ad_cond] exactly once, with the
    symbolic flag -1, 1 or 0 for the modes "auto", "symbolic" and
    "evaluated", the backend of the array type and the 32-bit index of the
    condition.  [if_stmt] itself calls no branch; what [ad_cond] returns is
    the result, and what it raises leaves as a Python error. *)
Theorem if_stmt_array_dispatch :
  forall args s index mode symbolic,
    jit_bool_1d s = true ->
    lo32 index <> 0 ->
    (mode = "auto"%string /\ symbolic = -1) \/
    (mode = "symbolic"%string /\ symbolic = 1) \/
    (mode = "evaluated"%string /\ symbolic = 0) ->
    let r := ad_cond (s_backend s) symbolic (lo32 index) args in
    let out := if_stmt true_fn false_fn ad_cond cast_bool args
                       (PyDrJit s index) mode in
    fst out = IfAdCond (s_backend s) symbolic (lo32 index) :: fst r /\
    (forall rv, snd r = inr rv -> snd out = inr rv) /\
    (forall e, snd r = inl e -> exists what, snd out = inl (PythonError what)).
Proof.
  intros args s index mode symbolic Hs Hz Hm r out.
  assert (Hc : if_stmt_cond (PyDrJit s index) = inr (s_backend s, lo32 index)).
  { unfold if_stmt_cond. unfold jit_bool_1d in Hs. rewrite Hs.
    apply Z.eqb_neq in Hz. cbv zeta iota beta.
    rewrite Hz. cbv iota beta. rewrite Hz. reflexivity. }
  assert (E : if_stmt_body true_fn false_fn ad_cond cast_bool args
                (PyDrJit s index) mode
              = (IfAdCond (s_backend s) symbolic (lo32 index) :: fst r, snd r)).
  { unfold if_stmt_body.
    destruct Hm as [[-> ->] | [[-> ->] | [-> ->]]]; cbn; rewrite Hc;
      reflexivity. }
  subst out. unfold if_stmt. rewrite E. cbn [fst snd].
  repeat split.
  - intros rv ->. reflexivity.
  - intros e ->. destruct e; eauto.
Qed.

(** A mode that is none of "auto", "scalar", "symbolic" and "evaluated"
    runs no branch and never reaches [ad_cond]; the call fails.  The
    condition is checked before the mode: the error names the mode only
    when the condition is an accepted array. *)
Theorem if_stmt_unknown_mode :
  forall args cond mode,
    ~ known_mode mode ->
    exists what,
      if_stmt true_fn false_fn ad_cond cast_bool args cond mode
      = ([], inl (PythonError ("dr.if_stmt(): " ++ what)%string)) /\
      match if_stmt_cond cond with
      | inl e => e = StdException what
      | inr _ =>
          what = ("invalid 'mode' argument (must equal "
                  ++ dquote ++ "auto" ++ dquote ++ ", "
                  ++ dquote ++ "scalar" ++ dquote ++ ", "
                  ++ dquote ++ "symbolic" ++ dquote ++ ", or "
                  ++ dquote ++ "evaluated" ++ dquote ++ ").")%string
      end.
Proof.
  intros args cond mode Hm. unfold known_mode in Hm.
  assert (Ha : String.eqb mode "auto" = false)
    by (apply String.eqb_neq; intros ->; tauto).
  assert (Hs : String.eqb mode "scalar" = false)
    by (apply String.eqb_neq; intros ->; tauto).
  assert (Hy : String.eqb mode "symbolic" = false)
    by (apply String.eqb_neq; intros ->; tauto).
  assert (He : String.eqb mode "evaluated" = false)
    by (apply String.eqb_neq; intros ->; tauto).
  unfold if_stmt, if_stmt_body. rewrite Ha, Hs, Hy, He. cbn.
  destruct (if_stmt_cond cond) as [e | [backend cond_index]] eqn:E.
  - assert (exists what, e = StdException what) as [what ->].
    { unfold if_stmt_cond in E.
      destruct cond as [b | s index |]; cbn in E;
        try (injection E as <-; eauto).
      destruct (type_eqb (s_type s) VT_Bool && (s_ndim s =? 1)%nat
                && negb (backend_eqb (s_backend s) Backend_None)); cbn in E.
      - destruct (lo32 index =? 0) eqn:Z0; [injection E as <-; eauto|].
        rewrite Z0 in E. discriminate.
      - injection E as <-; eauto. }
    exists what. cbn. auto.
  - eexists. cbn. split; reflexivity.
Qed.

(** Outside the scalar path a condition that is not an accepted array is
    rejected before any branch runs.  This includes a Python [bool] when
    the mode is "symbolic" or "evaluated", although the message offers it
    as an alternative. *)
Theorem if_stmt_rejects_other_conditions :
  forall args cond mode,
    mode <> "scalar"%string ->
    (mode = "auto"%string -> forall b, cond <> PyBool b) ->
    (forall s index, cond = PyDrJit s index -> jit_bool_1d s = false) ->
    if_stmt true_fn false_fn ad_cond cast_bool args cond mode
    = ([], inl (PythonError
         "dr.if_stmt(): 'cond' must either be a Jit-compiled 1D Boolean array or a Python 'bool'.")).
Proof.
  intros args cond mode Hs Ha Hc.
  apply String.eqb_neq in Hs.
  assert (E : if_stmt_cond cond
              = inl (StdException
                  "'cond' must either be a Jit-compiled 1D Boolean array or a Python 'bool'.")).
  { unfold if_stmt_cond. destruct cond as [b | s index |]; try reflexivity.
    specialize (Hc s index eq_refl). unfold jit_bool_1d in Hc.
    rewrite Hc. reflexivity. }
  unfold if_stmt, if_stmt_body. rewrite Hs.
  destruct (String.eqb mode "auto") eqn:A.
  - apply String.eqb_eq in A. specialize (Ha A).
    destruct cond as [b | s index |];
      [now elim (Ha b) | cbv zeta; cbn [negb]; rewrite E; reflexivity
      | cbv zeta; cbn [negb]; rewrite E; reflexivity ].
  - cbv zeta; cbn [negb]. rewrite E. reflexivity.
Qed.
End IfStmtModes.

Lemma if_stmt_array_dispatch_witness :
  fst (if_stmt (ex_branch 1) (ex_branch 2) ex_ad_cond_fails ex_cast_bool 10
               (PyDrJit (mkSupp VT_Bool 1 LLVM) (combine 3 7)) "evaluated")
  = [IfAdCond LLVM 0 7; IfTrueFn].
Proof.
  apply (if_stmt_array_dispatch ex_cast_bool (ex_branch 1) (ex_branch 2)
           ex_ad_cond_fails 10 (mkSupp VT_Bool 1 LLVM) (combine 3 7)
           "evaluated" 0).
  - reflexivity.
  - vm_compute. discriminate.
  - right. right. split; reflexivity.
Defined.

Lemma if_stmt_unknown_mode_witness :
  exists what,
    if_stmt (ex_branch 1) (ex_branch 2) ex_ad_cond ex_cast_bool 10
            (PyDrJit (mkSupp VT_Bool 1 CUDA) 7) "evaluate"
    = ([], inl (PythonError ("dr.if_stmt(): " ++ what)%string)) /\
    match if_stmt_cond (PyDrJit (mkSupp VT_Bool 1 CUDA) 7) with
    | inl e => e = StdException what
    | inr _ =>
        what = ("invalid 'mode' argument (must equal "
                ++ dquote ++ "auto" ++ dquote ++ ", "
                ++ dquote ++ "scalar" ++ dquote ++ ", "
                ++ dquote ++ "symbolic" ++ dquote ++ ", or "
                ++ dquote ++ "evaluated" ++ dquote ++ ").")%string
    end.
Proof.
  apply (if_stmt_unknown_mode ex_cast_bool (ex_branch 1) (ex_branch 2)
           ex_ad_cond 10 (PyDrJit (mkSupp VT_Bool 1 CUDA) 7) "evaluate").
  unfold known_mode. intros [H | [H | [H | H]]]; discriminate H.
Defined.

Lemma if_stmt_rejects_other_conditions_witness :
  if_stmt (ex_branch 1) (ex_branch 2) ex_ad_cond ex_cast_bool 10
          (PyBool true) "symbolic"
  = ([], inl (PythonError
       "dr.if_stmt(): 'cond' must either be a Jit-compiled 1D Boolean array or a Python 'bool'.")).
Proof.
  apply (if_stmt_rejects_other_conditions ex_cast_bool (ex_branch 1)
           (ex_branch 2) ex_ad_cond 10 (PyBool true) "symbolic").
  - discriminate.
  - discriminate.
  - discriminate.
Defined.

(** ** Passes of LoopState::traverse *)

Lemma nth_error_split_at {A} (l : list A) p e :
  nth_error l p = Some e -> l = firstn p l ++ e :: skipn (S p) l.
Proof.
  revert p. induction l as [|x l IH]; intros [|p] H; try discriminate.
  - injection H as ->. reflexivity.
  - cbn in H. cbn [firstn skipn app]. f_equal. now apply IH.
Qed.

Lemma firstn_snoc_all {A} (l : list A) x : firstn (length l) (l ++ [x]) = l.
Proof. induction l; cbn; congruence. Qed.

Lemma skipn_snoc_all {A} (l : list A) x : skipn (S (length l)) (l ++ [x]) = [].
Proof. induction l; cbn in *; auto. Qed.

Lemma nth_snoc_all {A} (l : list A) x d : nth (length l) (l ++ [x]) d = x.
Proof. induction l; cbn; auto. Qed.

Lemma snoc_replace_last {A} (l : list A) x y :
  firstn (length l) (l ++ [x]) ++ y :: skipn (S (length l)) (l ++ [x])
  = l ++ [y].
Proof. now rewrite firstn_snoc_all, skipn_snoc_all. Qed.

Section TraverseInvariants.
Variable var_size : Z -> Z.
Variable var_is_dirty : Z -> bool.
Variable Write : bool.
Variable indices : list Z.

Lemma traverse_leaf_inv first name e i2 ipos lsize e' ipos' lsize' pushed :
  traverse_leaf var_size var_is_dirty Write indices first name e i2 ipos lsize
  = inr (e', ipos', lsize', pushed) ->
  e_name e' = e_name e /\ e_type e' = e_type e /\ e_id e' = e_id e /\
  lsize <= lsize' /\ (lsize' = lsize \/ lsize' = var_size (lo32 i2)) /\
  (if Write
   then exists i2', nth_error indices ipos = Some i2' /\
                    e_size e' = var_size (lo32 i2') /\
                    ipos' = S ipos /\ pushed = None
   else e_size e' = var_size (lo32 i2) /\ ipos' = ipos /\ pushed = Some i2).
Proof.
  unfold traverse_leaf. cbv zeta.
  destruct (negb first && negb (e_size e =? var_size (lo32 i2))
            && negb (e_size e =? 1) && negb (var_size (lo32 i2) =? 1));
    [discriminate|].
  destruct (negb (lsize =? var_size (lo32 i2)) && negb (e_id e =? i2)
            && negb (var_is_dirty (lo32 i2))).
  - destruct (negb (lsize =? 1) && negb (var_size (lo32 i2) =? 1));
      [discriminate|].
    destruct Write.
    + destruct (nth_error indices ipos) as [i2'|]; [|discriminate].
      intros H. injection H as <- <- <- <-. cbn.
      repeat split; try lia. exists i2'. auto.
    + intros H. injection H as <- <- <- <-. cbn. repeat split; lia.
  - destruct Write.
    + destruct (nth_error indices ipos) as [i2'|]; [|discriminate].
      intros H. injection H as <- <- <- <-. cbn.
      repeat split; try lia. exists i2'. auto.
    + intros H. injection H as <- <- <- <-. cbn. repeat split; auto; lia.
Qed.

(** One visited object: what the entry table, the positions, the loop size
    and the output look like afterwards. *)
Lemma traverse_visit_inv v ls out ls' out' :
  traverse_visit var_size var_is_dirty Write indices v (ls, out)
  = inr (ls', out') ->
  first_time ls' = first_time ls /\
  loop_size ls <= loop_size ls' /\
  (loop_size ls' = loop_size ls \/
   exists i, vis_index v = Some i /\ loop_size ls' = var_size (lo32 i)) /\
  exists sz,
    (if first_time ls
     then entries ls'
          = entries ls ++ [mkEntry (vis_name v) (vis_type v) 0 sz] /\
          entry_pos ls' = entry_pos ls
     else exists e,
          nth_error (entries ls) (entry_pos ls) = Some e /\
          e_name e = vis_name v /\ e_type e = vis_type v /\
          entries ls'
          = firstn (entry_pos ls) (entries ls)
            ++ mkEntry (e_name e) (e_type e) (e_id e) sz
               :: skipn (S (entry_pos ls)) (entries ls) /\
          entry_pos ls' = S (entry_pos ls)) /\
    match vis_index v with
    | None => indices_pos ls' = indices_pos ls /\ out' = out /\
              (first_time ls = true -> sz = 0)
    | Some i2 =>
        if Write
        then exists i2', nth_error indices (indices_pos ls) = Some i2' /\
                         sz = var_size (lo32 i2') /\
                         indices_pos ls' = S (indices_pos ls) /\ out' = out
        else sz = var_size (lo32 i2) /\ indices_pos ls' = indices_pos ls /\
             out' = out ++ [i2]
    end.
Proof.
  unfold traverse_visit.
  destruct (first_time ls) eqn:F.
  - destruct (vis_index v) as [i2|] eqn:V.
    + rewrite nth_snoc_all.
      destruct (traverse_leaf _ _ _ _ _ _ _ _ _ _)
        as [x | [[[e' ipos] lsize] pushed]] eqn:L; [discriminate|].
      apply traverse_leaf_inv in L. cbn in L.
      destruct L as (Hn & Ht & Hi & Hle & Hls & HW).
      intros H. injection H as <- <-.
      cbn [first_time loop_size entries entry_pos indices_pos].
      repeat split; auto.
      { destruct Hls; eauto. }
      exists (e_size e'). split.
      { split; [|reflexivity].
        etransitivity; [apply snoc_replace_last|].
        destruct e'; cbn in *; subst; reflexivity. }
      destruct Write.
      * destruct HW as (i2' & N & S1 & -> & ->). exists i2'. auto.
      * destruct HW as (S1 & -> & ->). auto.
    + intros H. injection H as <- <-.
      cbn [first_time loop_size entries entry_pos indices_pos].
      repeat split; auto; try lia. exists 0. auto.
  - destruct (nth_error (entries ls) (entry_pos ls)) as [e|] eqn:N;
      [|discriminate].
    destruct (negb (String.eqb (vis_name v) (e_name e))) eqn:Nm;
      [discriminate|].
    destruct (negb (vis_type v =? e_type e)) eqn:Ty; [discriminate|].
    apply Bool.negb_false_iff in Nm, Ty.
    apply String.eqb_eq in Nm. apply Z.eqb_eq in Ty.
    destruct (vis_index v) as [i2|] eqn:V.
    + rewrite (nth_error_nth _ _ (mkEntry EmptyString 0 0 0) N).
      destruct (traverse_leaf _ _ _ _ _ _ _ _ _ _)
        as [x | [[[e' ipos] lsize] pushed]] eqn:L; [discriminate|].
      apply traverse_leaf_inv in L.
      destruct L as (Hn & Ht & Hi & Hle & Hls & HW).
      intros H. injection H as <- <-.
      cbn [first_time loop_size entries entry_pos indices_pos].
      repeat split; auto.
      { destruct Hls; eauto. }
      exists (e_size e'). split.
      { exists e. repeat split; auto.
        destruct e'; cbn in *; subst; auto. }
      destruct Write.
      * destruct HW as (i2' & N' & S1 & -> & ->). exists i2'. auto.
      * destruct HW as (S1 & -> & ->). auto.
    + intros H. injection H as <- <-.
      cbn [first_time loop_size entries entry_pos indices_pos].
      repeat split; auto; try lia. exists (e_size e). split.
      * exists e. repeat split; auto.
        destruct e; cbn. now apply nth_error_split_at.
      * repeat split; auto. discriminate.
Qed.

Lemma traverse_visits_flags vs ls out ls' out' :
  traverse_visits var_size var_is_dirty Write indices vs (ls, out)
  = inr (ls', out') ->
  first_time ls' = first_time ls /\
  loop_size ls <= loop_size ls' /\
  (loop_size ls' = loop_size ls \/
   exists i, In i (leaf_indices vs) /\ loop_size ls' = var_size (lo32 i)).
Proof.
  revert ls out. induction vs as [|v vs IH]; intros ls out; cbn [traverse_visits].
  - intros H. injection H as <- <-. repeat split; auto; lia.
  - destruct (traverse_visit _ _ _ _ v (ls, out)) as [x | [ls1 out1]] eqn:E;
      [discriminate|].
    intros H. apply traverse_visit_inv in E.
    destruct E as (F1 & L1 & S1 & _).
    apply IH in H. destruct H as (F2 & L2 & S2).
    repeat split; [congruence | lia |].
    unfold leaf_indices in *. cbn [flat_map].
    destruct S2 as [S2 | (i & Hi & S2)].
    + destruct S1 as [S1 | (i & Hi & S1)]; [left; congruence|].
      right. exists i. rewrite Hi. split; [now left | congruence].
    + right. exists i. split; [apply in_or_app; now right | exact S2].
Qed.

Lemma traverse_visits_ids vs ls out ls' out' :
  traverse_visits var_size var_is_dirty Write indices vs (ls, out)
  = inr (ls', out') ->
  Forall (fun e => e_id e = 0) (entries ls) ->
  Forall (fun e => e_id e = 0) (entries ls').
Proof.
  revert ls out. induction vs as [|v vs IH]; intros ls out; cbn [traverse_visits].
  - intros H. injection H as <- <-. auto.
  - destruct (traverse_visit _ _ _ _ v (ls, out)) as [x | [ls1 out1]] eqn:E;
      [discriminate|].
    intros H Hz. apply (IH _ _ H). clear H IH.
    apply traverse_visit_inv in E.
    destruct E as (_ & _ & _ & sz & He & _).
    destruct (first_time ls).
    + destruct He as [-> _]. apply Forall_app. split; auto.
    + destruct He as (e & N & _ & _ & -> & _).
      rewrite (nth_error_split_at _ _ _ N) in Hz.
      apply Forall_app in Hz. destruct Hz as [H1 H2].
      apply Forall_app. split; [exact H1|].
      inversion H2; subst. constructor; auto.
Qed.
End TraverseInvariants.

Lemma traverse_visits_read var_size var_is_dirty indices vs ls out ls' out' :
  traverse_visits var_size var_is_dirty false indices vs (ls, out)
  = inr (ls', out') ->
  out' = out ++ leaf_indices vs /\ indices_pos ls' = indices_pos ls.
Proof.
  revert ls out. induction vs as [|v vs IH]; intros ls out; cbn [traverse_visits].
  - intros H. injection H as <- <-. unfold leaf_indices. cbn.
    now rewrite app_nil_r.
  - destruct (traverse_visit _ _ _ _ v (ls, out)) as [x | [ls1 out1]] eqn:E;
      [discriminate|].
    intros H. apply traverse_visit_inv in E.
    destruct E as (_ & _ & _ & sz & _ & Hv).
    apply IH in H. destruct H as [-> ->].
    unfold leaf_indices in *. cbn [flat_map].
    destruct (vis_index v).
    + destruct Hv as (_ & -> & ->). now rewrite <- app_assoc.
    + destruct Hv as (-> & -> & _). auto.
Qed.

Lemma traverse_visits_write var_size var_is_dirty indices vs ls out ls' out' :
  traverse_visits var_size var_is_dirty true indices vs (ls, out)
  = inr (ls', out') ->
  out' = out /\
  indices_pos ls' = (indices_pos ls + length (leaf_indices vs))%nat.
Proof.
  revert ls out. induction vs as [|v vs IH]; intros ls out; cbn [traverse_visits].
  - intros H. injection H as <- <-. unfold leaf_indices. cbn. auto.
  - destruct (traverse_visit _ _ _ _ v (ls, out)) as [x | [ls1 out1]] eqn:E;
      [discriminate|].
    intros H. apply traverse_visit_inv in E.
    destruct E as (_ & _ & _ & sz & _ & Hv).
    apply IH in H. destruct H as [-> ->].
    unfold leaf_indices in *. cbn [flat_map].
    destruct (vis_index v).
    + destruct Hv as (i2' & _ & _ & -> & ->). rewrite length_app. cbn.
      split; [reflexivity | lia].
    + destruct Hv as (-> & -> & _). auto.
Qed.

Lemma traverse_visits_first var_size var_is_dirty indices vs ls out ls' out' :
  traverse_visits var_size var_is_dirty false indices vs (ls, out)
  = inr (ls', out') ->
  first_time ls = true ->
  entries ls' = entries ls ++ map (first_entry var_size) vs /\
  entry_pos ls' = entry_pos ls.
Proof.
  revert ls out. induction vs as [|v vs IH]; intros ls out; cbn [traverse_visits].
  - intros H _. injection H as <- <-. cbn. now rewrite app_nil_r.
  - destruct (traverse_visit _ _ _ _ v (ls, out)) as [x | [ls1 out1]] eqn:E;
      [discriminate|].
    intros H F. apply traverse_visit_inv in E.
    destruct E as (F1 & _ & _ & sz & He & Hv). rewrite F in He, Hv.
    destruct He as [He Hp].
    apply IH in H; [|congruence]. destruct H as [-> ->].
    rewrite He, Hp, <- app_assoc. cbn [map app]. split; [|reflexivity].
    do 2 f_equal. unfold first_entry.
    destruct (vis_index v).
    + destruct Hv as (-> & _). reflexivity.
    + destruct Hv as (_ & _ & ->); auto.
Qed.

Lemma skipn_cons_nth {A} (l : list A) p x :
  nth_error l p = Some x -> skipn p l = x :: skipn (S p) l.
Proof.
  revert p. induction l as [|y l IH]; intros [|p] H; try discriminate.
  - injection H as ->. reflexivity.
  - cbn in H. apply IH in H. exact H.
Qed.

Lemma skipn_replace {A} (l : list A) p x y :
  nth_error l p = Some x ->
  skipn (S p) (firstn p l ++ y :: skipn (S p) l) = skipn (S p) l.
Proof.
  revert p. induction l as [|a l IH]; intros [|p] H; try discriminate.
  - reflexivity.
  - cbn in H. apply IH in H. exact H.
Qed.

Lemma traverse_visits_later var_size var_is_dirty Write indices vs ls out ls' out' :
  traverse_visits var_size var_is_dirty Write indices vs (ls, out)
  = inr (ls', out') ->
  first_time ls = false ->
  entry_pos ls' = (entry_pos ls + length vs)%nat /\
  map vis_name vs
  = firstn (length vs) (skipn (entry_pos ls) (map e_name (entries ls))) /\
  map vis_type vs
  = firstn (length vs) (skipn (entry_pos ls) (map e_type (entries ls))) /\
  length vs = length (firstn (length vs) (skipn (entry_pos ls) (entries ls))) /\
  map e_name (entries ls') = map e_name (entries ls) /\
  map e_type (entries ls') = map e_type (entries ls).
Proof.
  revert ls out. induction vs as [|v vs IH]; intros ls out; cbn [traverse_visits].
  - intros H _. injection H as <- <-. cbn. repeat split; auto.
  - destruct (traverse_visit _ _ _ _ v (ls, out)) as [x | [ls1 out1]] eqn:E;
      [discriminate|].
    intros H F. apply traverse_visit_inv in E.
    destruct E as (F1 & _ & _ & sz & He & _). rewrite F in He.
    destruct He as (e & N & Hn & Ht & He & Hp).
    apply IH in H; [|congruence].
    destruct H as (P & Ns & Ts & Len & En & Et).
    assert (Kn : map e_name (entries ls1) = map e_name (entries ls)).
    { rewrite He. rewrite (nth_error_split_at _ _ _ N) at 3.
      rewrite !map_app. reflexivity. }
    assert (Kt : map e_type (entries ls1) = map e_type (entries ls)).
    { rewrite He. rewrite (nth_error_split_at _ _ _ N) at 3.
      rewrite !map_app. reflexivity. }
    assert (Kl : skipn (S (entry_pos ls)) (entries ls1)
                 = skipn (S (entry_pos ls)) (entries ls)).
    { rewrite He. now apply skipn_replace with (x := e). }
    rewrite Hp, Kn, Kt, Kl in *.
    repeat split.
    + cbn [length]. lia.
    + cbn [map length]. rewrite Ns.
      rewrite (skipn_cons_nth (map e_name (entries ls)) (entry_pos ls) (e_name e))
        by (rewrite nth_error_map, N; reflexivity).
      cbn [firstn]. now rewrite Hn.
    + cbn [map length]. rewrite Ts.
      rewrite (skipn_cons_nth (map e_type (entries ls)) (entry_pos ls) (e_type e))
        by (rewrite nth_error_map, N; reflexivity).
      cbn [firstn]. now rewrite Ht.
    + cbn [length]. rewrite (skipn_cons_nth _ _ _ N). cbn [firstn length].
      now rewrite <- Len.
    + congruence.
    + congruence.
Qed.

(** A reading pass returns the indices of the Jit arrays of the state in
    the order of the walk, AD half included, and leaves the position in the
    index array alone; afterwards the tracker is no longer in its first
    pass. *)
Theorem traverse_read_collects_leaves :
  forall var_size var_is_dirty indices vs ls ls' out,
    traverse var_size var_is_dirty false indices vs ls = inr (ls', out) ->
    out = leaf_indices vs /\ first_time ls' = false /\
    indices_pos ls' = indices_pos ls.
Proof.
  intros var_size var_is_dirty indices vs ls ls' out. unfold traverse.
  destruct (traverse_visits _ _ _ _ vs _) as [x | [ls1 out1]] eqn:E;
    [discriminate|].
  apply traverse_visits_read in E. destruct E as [-> Hp].
  cbn [andb]. intros H. injection H as <- <-. cbn in *. auto.
Qed.

Lemma traverse_read_collects_leaves_witness :
  [5; combine 1 5] = leaf_indices ex_visits /\
  first_time ex_loop_state_1 = false /\
  indices_pos ex_loop_state_1 = indices_pos ex_loop_state.
Proof.
  apply (traverse_read_collects_leaves ex_var_size (fun _ => false) []
           ex_visits ex_loop_state ex_loop_state_1 [5; combine 1 5]).
  vm_compute. reflexivity.
Defined.

(** A writing pass succeeds only if the index array has exactly one index
    per Jit array of the state: it consumes them in order, ends at the end
    of the array, and returns nothing. *)
Theorem traverse_write_consumes_indices :
  forall var_size var_is_dirty indices vs ls ls' out,
    traverse var_size var_is_dirty true indices vs ls = inr (ls', out) ->
    out = [] /\ length (leaf_indices vs) = length indices /\
    indices_pos ls' = length indices /\ first_time ls' = false.
Proof.
  intros var_size var_is_dirty indices vs ls ls' out. unfold traverse.
  destruct (traverse_visits _ _ _ _ vs _) as [x | [ls1 out1]] eqn:E;
    [discriminate|].
  apply traverse_visits_write in E. destruct E as [-> Hp]. cbn in Hp.
  cbn [andb].
  destruct (indices_pos ls1 =? length indices)%nat eqn:Q; [|discriminate].
  apply Nat.eqb_eq in Q.
  cbn [negb]. intros H. injection H as <- <-. cbn.
  repeat split; congruence.
Qed.

Lemma traverse_write_consumes_indices_witness :
  @nil Z = [] /\ length (leaf_indices ex_visits) = length [7; 8] /\
  indices_pos ex_loop_state_w = length [7; 8] /\
  first_time ex_loop_state_w = false.
Proof.
  apply (traverse_write_consumes_indices ex_var_size (fun _ => false) [7; 8]
           ex_visits ex_loop_state_1 ex_loop_state_w []).
  vm_compute. reflexivity.
Defined.

(** The first reading pass appends one entry per visited object, in the
    order of the walk: its name and type, the id 0 and, for a Jit array,
    the size of its variable (0 for a container). *)
Theorem traverse_first_pass_records :
  forall var_size var_is_dirty indices vs ls ls' out,
    first_time ls = true ->
    traverse var_size var_is_dirty false indices vs ls = inr (ls', out) ->
    entries ls' = entries ls ++ map (first_entry var_size) vs.
Proof.
  intros var_size var_is_dirty indices vs ls ls' out F. unfold traverse.
  destruct (traverse_visits _ _ _ _ vs _) as [x | [ls1 out1]] eqn:E;
    [discriminate|].
  apply traverse_visits_first in E; [|exact F]. destruct E as [He _].
  cbn [andb]. intros H. injection H as <- <-. exact He.
Qed.

Lemma traverse_first_pass_records_witness :
  entries ex_loop_state_1
  = entries ex_loop_state ++ map (first_entry ex_var_size) ex_visits.
Proof.
  apply (traverse_first_pass_records ex_var_size (fun _ => false) []
           ex_visits ex_loop_state ex_loop_state_1 [5; combine 1 5]).
  - reflexivity.
  - vm_compute. reflexivity.
Defined.

(** A later pass, reading or writing, succeeds only on a walk whose objects
    carry, one by one, the names and types of the leading entries; it
    keeps the names and types of all entries and adds none.  Entries beyond
    the end of the walk are not looked at. *)
Theorem traverse_later_pass_matches :
  forall var_size var_is_dirty Write indices vs ls ls' out,
    first_time ls = false ->
    traverse var_size var_is_dirty Write indices vs ls = inr (ls', out) ->
    (length vs <= length (entries ls))%nat /\
    map vis_name vs = firstn (length vs) (map e_name (entries ls)) /\
    map vis_type vs = firstn (length vs) (map e_type (entries ls)) /\
    map e_name (entries ls') = map e_name (entries ls) /\
    map e_type (entries ls') = map e_type (entries ls) /\
    entry_pos ls' = length vs.
Proof.
  intros var_size var_is_dirty Write indices vs ls ls' out F. unfold traverse.
  destruct (traverse_visits _ _ _ _ vs _) as [x | [ls1 out1]] eqn:E;
    [discriminate|].
  apply traverse_visits_later in E; [|exact F].
  cbn [entries entry_pos skipn Nat.add] in E.
  destruct E as (P & Ns & Ts & Len & En & Et).
  destruct (Write && negb (indices_pos ls1 =? length indices)%nat);
    [discriminate|].
  intros H. injection H as <- <-. cbn [entries entry_pos].
  repeat split; auto.
  rewrite length_firstn in Len. lia.
Qed.

Lemma traverse_later_pass_matches_witness :
  (length ex_visits <= length (entries ex_loop_state_1))%nat /\
  map vis_name ex_visits
  = firstn (length ex_visits) (map e_name (entries ex_loop_state_1)) /\
  map vis_type ex_visits
  = firstn (length ex_visits) (map e_type (entries ex_loop_state_1)) /\
  map e_name (entries ex_loop_state_2) = map e_name (entries ex_loop_state_1) /\
  map e_type (entries ex_loop_state_2) = map e_type (entries ex_loop_state_1) /\
  entry_pos ex_loop_state_2 = length ex_visits.
Proof.
  apply (traverse_later_pass_matches ex_var_size (fun _ => false) false []
           ex_visits ex_loop_state_1 ex_loop_state_2 [5; combine 1 5]).
  - reflexivity.
  - vm_compute. reflexivity.
Defined.

(** The id of an entry is never written: the leaf case assigns the new
    index to a local copy.  A tracker whose entries all have the id 0, as
    the fresh one has, keeps that through every pass, so the comparison of
    the recorded id with the current index compares with 0. *)
Theorem traverse_ids_stay_zero :
  forall var_size var_is_dirty Write indices vs ls ls' out,
    Forall (fun e => e_id e = 0) (entries ls) ->
    traverse var_size var_is_dirty Write indices vs ls = inr (ls', out) ->
    Forall (fun e => e_id e = 0) (entries ls').
Proof.
  intros var_size var_is_dirty Write indices vs ls ls' out Hz. unfold traverse.
  destruct (traverse_visits _ _ _ _ vs _) as [x | [ls1 out1]] eqn:E;
    [discriminate|].
  apply traverse_visits_ids in E; [|exact Hz].
  destruct (Write && negb (indices_pos ls1 =? length indices)%nat);
    [discriminate|].
  intros H. injection H as <- <-. exact E.
Qed.

Lemma traverse_ids_stay_zero_witness :
  Forall (fun e => e_id e = 0) (entries ex_loop_state_w).
Proof.
  apply (traverse_ids_stay_zero ex_var_size (fun _ => false) true [7; 8]
           ex_visits ex_loop_state_1 ex_loop_state_w []).
  - repeat constructor.
  - vm_compute. reflexivity.
Defined.

(** A pass never lowers the loop size: it ends with the size it began with
    or with the size of one of the arrays it visited. *)
Theorem traverse_loop_size_grows :
  forall var_size var_is_dirty Write indices vs ls ls' out,
    traverse var_size var_is_dirty Write indices vs ls = inr (ls', out) ->
    loop_size ls <= loop_size ls' /\
    (loop_size ls' = loop_size ls \/
     exists i, In i (leaf_indices vs) /\ loop_size ls' = var_size (lo32 i)).
Proof.
  intros var_size var_is_dirty Write indices vs ls ls' out. unfold traverse.
  destruct (traverse_visits _ _ _ _ vs _) as [x | [ls1 out1]] eqn:E;
    [discriminate|].
  apply traverse_visits_flags in E. cbn [loop_size] in E.
  destruct E as (_ & L & S).
  destruct (Write && negb (indices_pos ls1 =? length indices)%nat);
    [discriminate|].
  intros H. injection H as <- <-. cbn [loop_size]. auto.
Qed.

Lemma traverse_loop_size_grows_witness :
  loop_size ex_loop_state <= loop_size ex_loop_state_1 /\
  (loop_size ex_loop_state_1 = loop_size ex_loop_state \/
   exists i, In i (leaf_indices ex_visits) /\
             loop_size ex_loop_state_1 = ex_var_size (lo32 i)).
Proof.
  apply (traverse_loop_size_grows ex_var_size (fun _ => false) false []
           ex_visits ex_loop_state ex_loop_state_1 [5; combine 1 5]).
  vm_compute. reflexivity.
Defined.

(** ** while_loop *)

Section WhileLoopProperties.
Context {State : Type}.
Variable len : State -> nat.
Variable type_name : PyObject -> string.
Variable cond : State -> PyExn + PyObject.
Variable body : State -> PyExn + option State.
Variable cast_bool : PyObject -> PyExn + bool.
Variable ad_loop : JitBackend -> Z -> State -> list LoopEvent * (PyExn + State).

Lemma while_loop_scalar_runs (test : State -> bool) (step : State -> State)
    (mu : State -> nat) :
  (forall s, cond s = inr (PyBool (test s))) ->
  (forall b, cast_bool (PyBool b) = inr b) ->
  (forall s, test s = true ->
             body s = inr (Some (step s)) /\ len (step s) = len s /\
             (mu (step s) < mu s)%nat) ->
  forall fuel state,
    (mu state <= fuel)%nat ->
    exists k,
      (k <= mu state)%nat /\
      while_loop_scalar len cond body cast_bool fuel state
                        (PyBool (test state))
      = Some (concat (repeat [WlBody; WlCond] k), inr (Nat.iter k step state)) /\
      test (Nat.iter k step state) = false /\
      (forall j, (j < k)%nat -> test (Nat.iter j step state) = true) /\
      len (Nat.iter k step state) = len state.
Proof.
  intros Hc Hb Hs fuel. induction fuel as [|fuel IH]; intros state Hm.
  - destruct (test state) eqn:T.
    + destruct (Hs state T) as (_ & _ & Hlt). lia.
    + exists 0%nat. cbn. rewrite Hb, T.
      split; [lia|]. split; [reflexivity|]. split; [first [exact T | reflexivity]|].
      split; [intros j Hj; lia | reflexivity].
  - destruct (test state) eqn:T.
    + destruct (Hs state T) as (Hbody & Hlen & Hlt).
      destruct (IH (step state)) as (k & Hk & Hrun & Hf & Ht & Hl); [lia|].
      exists (S k). rewrite Nat.iter_succ_r.
      split; [lia|]. split.
      { cbn [while_loop_scalar]. rewrite Hb, Hbody.
        unfold check_state. rewrite Hlen, Nat.eqb_refl. cbn [negb].
        rewrite Hc, Hrun. reflexivity. }
      split; [exact Hf|]. split; [|congruence].
      intros [|j] Hj; [exact T|].
      rewrite Nat.iter_succ_r. apply Ht. lia.
    + exists 0%nat. cbn. rewrite Hb, T.
      split; [lia|]. split; [reflexivity|]. split; [first [exact T | reflexivity]|].
      split; [intros j Hj; lia | reflexivity].
Qed.

(** The scalar loop is the Python loop: when the condition is a Python
    predicate [test], the body a step that keeps the length of the state,
    and a measure [mu] decreases along the steps, a loop with method
    "scalar" or "auto" that may run [mu state] iterations returns the state
    after [k] steps, where [k] is the first count at which [test] fails.
    The condition is called [k + 1] times and the body [k] times, in
    alternation, and [ad_loop] is never entered. *)
Theorem while_loop_scalar_terminates :
  forall (test : State -> bool) (step : State -> State) (mu : State -> nat)
         fuel state method,
    method = "scalar"%string \/ method = "auto"%string ->
    (forall s, cond s = inr (PyBool (test s))) ->
    (forall b, cast_bool (PyBool b) = inr b) ->
    (forall s, test s = true ->
               body s = inr (Some (step s)) /\ len (step s) = len s /\
               (mu (step s) < mu s)%nat) ->
    (mu state <= fuel)%nat ->
    exists k,
      (k <= mu state)%nat /\
      while_loop len type_name cond body cast_bool ad_loop fuel state method
      = Some (scalar_events k, inr (Nat.iter k step state)) /\
      test (Nat.iter k step state) = false /\
      (forall j, (j < k)%nat -> test (Nat.iter j step state) = true) /\
      len (Nat.iter k step state) = len state.
Proof.
  intros test step mu fuel state method Hm Hc Hb Hs Hf.
  destruct (while_loop_scalar_runs test step mu Hc Hb Hs fuel state Hf)
    as (k & Hk & Hrun & Hfalse & Htrue & Hlen).
  exists k. repeat split; auto.
  unfold while_loop, while_loop_body. rewrite Hc.
  destruct Hm as [-> | ->]; cbn [String.eqb Ascii.eqb Bool.eqb];
    rewrite Hrun; reflexivity.
Qed.

Lemma while_loop_scalar_inv fuel :
  forall state cond_val ev s',
    while_loop_scalar len cond body cast_bool fuel state cond_val
    = Some (ev, inr s') ->
    len s' = len state /\
    exists k, ev = concat (repeat [WlBody; WlCond] k) /\ (k <= fuel)%nat.
Proof.
  induction fuel as [|fuel IH]; intros state cond_val ev s';
    cbn [while_loop_scalar].
  - destruct (cast_bool cond_val) as [e | [|]]; try discriminate.
    intros H. injection H as <- <-. split; auto. exists 0%nat. auto.
  - destruct (cast_bool cond_val) as [e | [|]]; try discriminate.
    + destruct (body state) as [e | o]; [discriminate|].
      unfold check_state.
      destruct o as [o_t|]; [|discriminate].
      destruct (negb (len o_t =? len state)%nat) eqn:L; [discriminate|].
      apply Bool.negb_false_iff, Nat.eqb_eq in L.
      destruct (cond o_t) as [e | cv]; [discriminate|].
      destruct (while_loop_scalar _ _ _ _ fuel o_t cv) as [[ev1 r1]|] eqn:R;
        [|discriminate].
      cbn [fst snd]. intros H. injection H as <- ->.
      apply IH in R. destruct R as (Hl & k & -> & Hk).
      split; [congruence|]. exists (S k). split; [reflexivity | lia].
    + intros H. injection H as <- <-. split; auto. exists 0%nat.
      split; [reflexivity | lia].
Qed.

(** Whatever the body does, a scalar loop that returns hands back a state
    tuple of the length it started with, after calling the condition once
    more than the body. *)
Theorem while_loop_scalar_keeps_length :
  forall fuel state method ev s',
    method = "scalar"%string \/
    (method = "auto"%string /\ exists b, cond state = inr (PyBool b)) ->
    while_loop len type_name cond body cast_bool ad_loop fuel state method
    = Some (ev, inr s') ->
    len s' = len state /\ exists k, ev = scalar_events k /\ (k <= fuel)%nat.
Proof.
  intros fuel state method ev s' Hm. unfold while_loop, while_loop_body.
  destruct (cond state) as [e | cv] eqn:C.
  { destruct e; discriminate. }
  assert (Hs : (if String.eqb method "auto"
                then match cv with PyBool _ => true | _ => false end
                else String.eqb method "scalar") = true).
  { destruct Hm as [-> | [-> [b Hb]]]; [reflexivity|].
    injection Hb as ->. reflexivity. }
  cbv zeta. rewrite Hs.
  destruct (while_loop_scalar _ _ _ _ fuel state cv) as [[ev1 r1]|] eqn:R;
    [|discriminate].
  cbn [fst snd]. destruct r1 as [[what | what] | rv]; try discriminate.
  intros H. injection H as <- <-.
  apply while_loop_scalar_inv in R. destruct R as (Hl & k & -> & Hk).
  split; [exact Hl|]. exists k. split; [reflexivity | exact Hk].
Qed.

(** A condition that is a one-dimensional boolean Dr.Jit array goes to
    [ad_loop] after a single call of the condition, with the symbolic flag
    -1, 1 or 0 for the methods "auto", "symbolic" and "evaluate" and the
    backend of the array type, whatever that backend and the index of the
    array are; the body is not called by [while_loop] itself. *)
Theorem while_loop_array_dispatch :
  forall fuel state method symbolic s index,
    cond state = inr (PyDrJit s index) ->
    s_type s = VT_Bool -> s_ndim s = 1%nat ->
    (method = "auto"%string /\ symbolic = -1) \/
    (method = "symbolic"%string /\ symbolic = 1) \/
    (method = "evaluate"%string /\ symbolic = 0) ->
    let r := ad_loop (s_backend s) symbolic state in
    exists out,
      while_loop len type_name cond body cast_bool ad_loop fuel state method
      = Some (WlCond :: WlAdLoop (s_backend s) symbolic :: fst r, out) /\
      (forall rv, snd r = inr rv -> out = inr rv) /\
      (forall e, snd r = inl e -> exists what, out = inl (PythonError what)).
Proof.
  intros fuel state method symbolic s index Hc Ht Hn Hm r.
  assert (E : while_loop_body len type_name cond body cast_bool ad_loop fuel
                state method
              = Some (WlCond :: WlAdLoop (s_backend s) symbolic :: fst r, snd r)).
  { unfold while_loop_body. rewrite Hc. unfold check_cond.
    rewrite Ht, Hn.
    destruct Hm as [[-> ->] | [[-> ->] | [-> ->]]]; reflexivity. }
  unfold while_loop. rewrite E. cbn [fst snd].
  eexists. split; [reflexivity|]. split.
  - intros rv ->. reflexivity.
  - intros e ->. destruct e; eauto.
Qed.

(** A method that is none of "auto", "scalar", "symbolic" and "evaluate"
    still calls the condition once; then the call fails without calling
    the body or [ad_loop].  The value of the condition is checked before
    the method: the error names the method only when the condition is a
    one-dimensional boolean array. *)
Theorem while_loop_unknown_method :
  forall fuel state method cond_val,
    ~ known_method method ->
    cond state = inr cond_val ->
    exists what,
      while_loop len type_name cond body cast_bool ad_loop fuel state method
      = Some ([WlCond], inl (PythonError ("dr.while_loop(): " ++ what)%string)) /\
      match check_cond type_name cond_val with
      | inl e => e = StdException what
      | inr _ =>
          what = ("invalid 'method' argument (must equal "
                  ++ dquote ++ "auto" ++ dquote ++ ", "
                  ++ dquote ++ "scalar" ++ dquote ++ ", "
                  ++ dquote ++ "symbolic" ++ dquote ++ ", or "
                  ++ dquote ++ "evaluate" ++ dquote ++ ").")%string
      end.
Proof.
  intros fuel state method cond_val Hm Hc. unfold known_method in Hm.
  assert (Ha : String.eqb method "auto" = false)
    by (apply String.eqb_neq; intros ->; tauto).
  assert (Hs : String.eqb method "scalar" = false)
    by (apply String.eqb_neq; intros ->; tauto).
  assert (Hy : String.eqb method "symbolic" = false)
    by (apply String.eqb_neq; intros ->; tauto).
  assert (He : String.eqb method "evaluate" = false)
    by (apply String.eqb_neq; intros ->; tauto).
  unfold while_loop, while_loop_body. rewrite Hc, Ha, Hs, Hy, He.
  cbv zeta.
  destruct (check_cond type_name cond_val) as [e | s] eqn:E.
  - assert (exists what, e = StdException what) as [what ->].
    { unfold check_cond in E. destruct cond_val as [b | s index |];
        try (injection E as <-; eauto).
      destruct (type_eqb (s_type s) VT_Bool && (s_ndim s =? 1)%nat);
        [discriminate | injection E as <-; eauto]. }
    exists what. cbn [fst snd]. auto.
  - eexists. cbn [fst snd]. split; reflexivity.
Qed.
End WhileLoopProperties.

Lemma while_loop_scalar_terminates_witness :
  exists k,
    (k <= 3)%nat /\
    while_loop (fun _ : nat => 1%nat) (fun _ => "bool"%string) ex_loop_cond
               ex_loop_body ex_cast_bool ex_ad_loop 3 3%nat "auto"
    = Some (scalar_events k, inr (Nat.iter k pred 3%nat)) /\
    negb (Nat.iter k pred 3 =? 0)%nat = false /\
    (forall j, (j < k)%nat -> negb (Nat.iter j pred 3 =? 0)%nat = true) /\
    1%nat = 1%nat.
Proof.
  apply (while_loop_scalar_terminates (fun _ : nat => 1%nat)
           (fun _ => "bool"%string) ex_loop_cond ex_loop_body ex_cast_bool
           ex_ad_loop (fun n => negb (n =? 0)%nat) pred (fun n => n)
           3%nat 3%nat "auto").
  - right. reflexivity.
  - reflexivity.
  - reflexivity.
  - intros [|n] H; [discriminate|]. cbn. repeat split. lia.
  - lia.
Defined.

Lemma while_loop_scalar_keeps_length_witness :
  1%nat = 1%nat /\
  exists k, scalar_events 2 = scalar_events k /\ (k <= 5)%nat.
Proof.
  apply (while_loop_scalar_keeps_length (fun _ : nat => 1%nat)
           (fun _ => "bool"%string) ex_loop_cond ex_loop_body ex_cast_bool
           ex_ad_loop 5%nat 2%nat "scalar" (scalar_events 2) 0%nat).
  - left. reflexivity.
  - vm_compute. reflexivity.
Defined.

Lemma while_loop_array_dispatch_witness :
  exists out,
    while_loop (fun _ : nat => 1%nat) (fun _ => "Bool"%string)
               (ex_array_cond (mkSupp VT_Bool 1 Backend_None)) ex_loop_body
               ex_cast_bool ex_ad_loop 0 4%nat "evaluate"
    = Some (WlCond :: WlAdLoop Backend_None 0
              :: fst (ex_ad_loop Backend_None 0 4%nat), out) /\
    (forall rv, snd (ex_ad_loop Backend_None 0 4%nat) = inr rv -> out = inr rv) /\
    (forall e, snd (ex_ad_loop Backend_None 0 4%nat) = inl e ->
               exists what, out = inl (PythonError what)).
Proof.
  apply (while_loop_array_dispatch (fun _ : nat => 1%nat)
           (fun _ => "Bool"%string)
           (ex_array_cond (mkSupp VT_Bool 1 Backend_None)) ex_loop_body
           ex_cast_bool ex_ad_loop 0%nat 4%nat "evaluate" 0
           (mkSupp VT_Bool 1 Backend_None) 0).
  - reflexivity.
  - reflexivity.
  - reflexivity.
  - right. right. split; reflexivity.
Defined.

Lemma while_loop_unknown_method_witness :
  exists what,
    while_loop (fun _ : nat => 1%nat) (fun _ => "bool"%string) ex_loop_cond
               ex_loop_body ex_cast_bool ex_ad_loop 0 3%nat "evaluated"
    = Some ([WlCond], inl (PythonError ("dr.while_loop(): " ++ what)%string)) /\
    match check_cond (fun _ => "bool"%string) (PyBool true) with
    | inl e => e = StdException what
    | inr _ =>
        what = ("invalid 'method' argument (must equal "
                ++ dquote ++ "auto" ++ dquote ++ ", "
                ++ dquote ++ "scalar" ++ dquote ++ ", "
                ++ dquote ++ "symbolic" ++ dquote ++ ", or "
                ++ dquote ++ "evaluate" ++ dquote ++ ").")%string
    end.
Proof.
  apply (while_loop_unknown_method (fun _ : nat => 1%nat)
           (fun _ => "bool"%string) ex_loop_cond ex_loop_body ex_cast_bool
           ex_ad_loop 0%nat 3%nat "evaluated" (PyBool true)).
  - unfold known_method. intros [H | [H | [H | H]]]; discriminate H.
  - reflexivity.
Defined.

(** ** The self value of the evaluated strategy *)

Lemma emits_for_each_in {S A} P (body : A -> S -> M S) (l : list A) :
  (forall a s, In a l -> emits P (body a s)) ->
  forall s, emits P (for_each l body s).
Proof.
  induction l as [|a t IH]; intros H s; cbn [for_each].
  - apply emits_ret.
  - apply emits_bind; [apply H; now left | intros s'].
    apply IH. intros b s0 Hb. apply H. now right.
Qed.

Lemma call_reduce_length backend (l : list (Z * Z)) :
  forall acc w bs w',
    for_each l
      (fun p (acc : list CallBucket) =>
         let '(id, lanes) := p in
         perm <- new_var (mkVar OpUser backend VT_UInt32 Evaluated lanes) ;;
         ret (acc ++ [mkBucket id perm])) acc w = (Ok bs, w') ->
    length bs = (length acc + length l)%nat.
Proof.
  induction l as [|[id lanes] t IH]; intros acc w bs w' H; cbn [for_each] in H.
  - inversion H; subst. cbn. lia.
  - step H as acc1 w1 E. step E as perm wa Ep. inversion E; subst acc1 wa.
    apply IH in H. rewrite H, length_app. cbn. lia.
Qed.

Lemma in_combine_seq {A} (l : list A) i x :
  In (i, x) (List.combine (seq 0 (length l)) l) -> (i < length l)%nat.
Proof.
  intros H. apply in_combine_l in H. apply in_seq in H. lia.
Qed.

(** Whatever the ids of the buckets, the self value that the evaluated
    strategy sets for a callable is the position of its bucket plus one: it
    lies between 1 and the number of buckets. *)
Theorem ad_call_reduce_self_is_position :
  forall env backend domain name size index mask cc args rv func payload w,
  exists l,
    log (snd (ad_call_reduce env backend domain name size index mask cc args rv
                             func payload w)) = log w ++ l /\
    Forall (self_in_range (length (call_buckets env))) l.
Proof.
  intros env backend domain name size index mask cc args rv func payload.
  change (emits (self_in_range (length (call_buckets env)))
            (ad_call_reduce env backend domain name size index mask cc args rv
                            func payload)).
  unfold ad_call_reduce.
  apply emits_bind; [emits_fine|intros index2].
  apply emits_bind; [emits_fine|intros _].
  apply emits_bind; [emits_fine|intros _].
  apply emits_bind_post; [unfold jit_var_call_reduce; emits_fine|].
  intros w0 buckets w1 Hb.
  apply call_reduce_length in Hb. cbn [length Nat.add] in Hb.
  apply emits_bind; [emits_fine|intros memop_mask].
  apply emits_bind; [|emits_fine].
  apply emits_for_each_in. intros [i bucket] [rv0 last_size] Hin.
  apply in_combine_seq in Hin.
  unfold reduce_bucket, reduce_merge.
  destruct (bucket_id bucket =? 0); [apply emits_ret|].
  apply emits_bind; [emits_fine|intros wavefront_size].
  apply emits_bind; [emits_fine|intros _].
  apply emits_bind; [emits_fine|intros default_mask].
  apply emits_scoped_set_mask_f; [exact I | exact I |].
  apply emits_bind; [emits_fine|intros args2].
  apply emits_bind; [emits_fine|intros ptr].
  apply emits_bind; [emits_fine|intros instance_id].
  apply emits_scoped_set_self_f; [cbn; lia | intros; exact I |].
  emits_fine.
Qed.

(** ** The slots of the getter *)









(** C4: a callable that the registry no longer knows is skipped after [rv2]
    was cleared, and the loop over the return slots runs over [rv2].  On a
    domain of two instances of which the second is gone, the getter invokes
    the first callable (whose value is the literal 17), builds no buffer and
    no gather, and returns the zero literal that [ad_call_check_rv] had put
    into [rv]: every lane reads zero, also those that select the first
    instance.  When it is the first instance that is gone, the slot loop
    reads [rv3] beyond its end. *)
Theorem getter_skipped_callable_not_gathered :
  let r := ad_call ex_env_last_gone CUDA (Some "Base"%string) 0 "f" true 1 0 []
                   [] 77 ex_getter true true ex_world in
  jit_registry_ptr ex_env_last_gone 1 = 7 /\
  jit_registry_ptr ex_env_last_gone 2 = 0 /\
  fst r = Ok (true, [7]) /\
  lookup (vars (snd r)) 7 = mkVar (OpLiteral 0) CUDA VT_Float32 Literal 4 /\
  lookup (vars (snd r)) 6 = mkVar (OpLiteral 17) CUDA VT_Float32 Literal 1 /\
  log (snd r) = [EvRecordBegin; EvFunc 7 []; EvRecordEnd true] /\
  fst (ad_call ex_env_first_gone CUDA (Some "Base"%string) 0 "f" true 1 0 [] []
               77 ex_getter true true ex_world) = Undefined.
Proof. vm_compute. repeat split. Qed.

(** ** Size transitions of a leaf across passes *)

Lemma skipn_from {A} (l1 l2 : list A) p q :
  (p <= q)%nat -> skipn p l1 = skipn p l2 -> skipn q l1 = skipn q l2.
Proof.
  intros Hpq H. replace q with ((q - p) + p)%nat by lia.
  now rewrite <- !skipn_skipn, H.
Qed.

Lemma nth_error_from_skipn {A} (l1 l2 : list A) p k :
  skipn p l1 = skipn p l2 -> nth_error l1 (p + k) = nth_error l2 (p + k).
Proof.
  intros H. now rewrite <- !nth_error_skipn, H.
Qed.

Section TraverseSizes.
Variable var_size : Z -> Z.
Variable var_is_dirty : Z -> bool.
Variable Write : bool.
Variable indices : list Z.

Lemma traverse_leaf_passes name e i2 ipos lsize r :
  traverse_leaf var_size var_is_dirty Write indices false name e i2 ipos lsize
  = inr r ->
  size_compatible (e_size e) (var_size (lo32 i2)).
Proof.
  unfold traverse_leaf, size_compatible. cbv zeta. cbn [negb andb].
  destruct (e_size e =? var_size (lo32 i2)) eqn:E1;
    [intros _; left; now apply Z.eqb_eq|].
  destruct (e_size e =? 1) eqn:E2;
    [intros _; right; left; now apply Z.eqb_eq|].
  destruct (var_size (lo32 i2) =? 1) eqn:E3;
    [intros _; right; right; now apply Z.eqb_eq|].
  cbn [negb andb]. discriminate.
Qed.

Lemma traverse_leaf_conflict first name e i2 ipos lsize n s1 s2 :
  traverse_leaf var_size var_is_dirty Write indices first name e i2 ipos lsize
  = inl (LoopSizeConflict n s1 s2) ->
  n = name /\ s1 = e_size e /\ s2 = var_size (lo32 i2) /\
  s1 <> s2 /\ s1 <> 1 /\ s2 <> 1.
Proof.
  unfold traverse_leaf. cbv zeta.
  destruct (negb first && negb (e_size e =? var_size (lo32 i2))
            && negb (e_size e =? 1) && negb (var_size (lo32 i2) =? 1)) eqn:G.
  - intros H. injection H as <- <- <-.
    apply andb_prop in G. destruct G as [G G3].
    apply andb_prop in G. destruct G as [G G2].
    apply andb_prop in G. destruct G as [_ G1].
    apply Bool.negb_true_iff, Z.eqb_neq in G1, G2, G3. repeat split; auto.
  - destruct (negb (lsize =? var_size (lo32 i2)) && negb (e_id e =? i2)
              && negb (var_is_dirty (lo32 i2))).
    + destruct (negb (lsize =? 1) && negb (var_size (lo32 i2) =? 1));
        [discriminate|].
      destruct Write; [destruct (nth_error indices ipos)|]; discriminate.
    + destruct Write; [destruct (nth_error indices ipos)|]; discriminate.
Qed.

Lemma traverse_leaf_raises name e i2 ipos lsize :
  e_size e <> var_size (lo32 i2) -> e_size e <> 1 ->
  var_size (lo32 i2) <> 1 ->
  traverse_leaf var_size var_is_dirty Write indices false name e i2 ipos lsize
  = inl (LoopSizeConflict name (e_size e) (var_size (lo32 i2))).
Proof.
  intros H1 H2 H3. unfold traverse_leaf. cbv zeta.
  apply Z.eqb_neq in H1, H2, H3. rewrite H1, H2, H3. reflexivity.
Qed.

(** One object of a later pass that finds its entry. *)
Lemma traverse_visit_later v ls out e :
  first_time ls = false ->
  nth_error (entries ls) (entry_pos ls) = Some e ->
  vis_name v = e_name e -> vis_type v = e_type e ->
  traverse_visit var_size var_is_dirty Write indices v (ls, out)
  = match vis_index v with
    | None =>
        inr (mkLoopState (entries ls) false (S (entry_pos ls)) (indices_pos ls)
                         (loop_size ls), out)
    | Some i2 =>
        match traverse_leaf var_size var_is_dirty Write indices false
                (vis_name v) e i2 (indices_pos ls) (loop_size ls) with
        | inl x => inl x
        | inr (e', ipos, lsize, pushed) =>
            inr (mkLoopState (firstn (entry_pos ls) (entries ls)
                              ++ e' :: skipn (S (entry_pos ls)) (entries ls))
                             false (S (entry_pos ls)) ipos lsize,
                 match pushed with Some i => out ++ [i] | None => out end)
        end
    end.
Proof.
  intros F N Hn Ht. unfold traverse_visit. rewrite F, N.
  rewrite Hn, String.eqb_refl. cbn [negb].
  rewrite Ht, Z.eqb_refl. cbn [negb].
  rewrite (nth_error_nth _ _ (mkEntry EmptyString 0 0 0) N).
  reflexivity.
Qed.

Lemma traverse_visit_entry v ls out r :
  first_time ls = false ->
  traverse_visit var_size var_is_dirty Write indices v (ls, out) = r ->
  (exists name, r = inl (LoopStateChanged name)) \/
  exists e, nth_error (entries ls) (entry_pos ls) = Some e /\
            vis_name v = e_name e /\ vis_type v = e_type e.
Proof.
  intros F <-. unfold traverse_visit. rewrite F.
  destruct (nth_error (entries ls) (entry_pos ls)) as [e|]; [|left; eauto].
  destruct (negb (String.eqb (vis_name v) (e_name e))) eqn:Nm; [left; eauto|].
  destruct (negb (vis_type v =? e_type e)) eqn:Ty; [left; eauto|].
  apply Bool.negb_false_iff in Nm, Ty.
  apply String.eqb_eq in Nm. apply Z.eqb_eq in Ty. right. eauto.
Qed.

(** A later pass leaves the entries that it has not reached yet as they
    are. *)
Lemma traverse_visits_rest vs :
  forall ls out ls' out',
    traverse_visits var_size var_is_dirty Write indices vs (ls, out)
    = inr (ls', out') ->
    first_time ls = false ->
    first_time ls' = false /\
    entry_pos ls' = (entry_pos ls + length vs)%nat /\
    skipn (entry_pos ls') (entries ls') = skipn (entry_pos ls') (entries ls).
Proof.
  induction vs as [|v vs IH]; intros ls out ls' out' H F;
    cbn [traverse_visits] in H.
  - injection H as <- <-. split; [exact F|]. split; [cbn; lia | reflexivity].
  - destruct (traverse_visit _ _ _ _ v (ls, out)) as [x | [ls1 out1]] eqn:E;
      [discriminate|].
    pose proof (traverse_visit_inv _ _ _ _ _ _ _ _ _ E)
      as (F1 & _ & _ & sz & He & _).
    rewrite F in He. destruct He as (e & N & _ & _ & He & Hp).
    apply IH in H; [|congruence]. destruct H as (F2 & P2 & S2).
    split; [exact F2|]. split; [cbn [length]; lia|].
    rewrite S2. apply skipn_from with (p := S (entry_pos ls)); [lia|].
    rewrite He. now apply skipn_replace with (x := e).
Qed.

Lemma traverse_visits_sizes vs :
  forall ls out,
    first_time ls = false ->
    (forall ls' out',
       traverse_visits var_size var_is_dirty Write indices vs (ls, out)
       = inr (ls', out') ->
       forall k v i2 e,
         nth_error vs k = Some v -> vis_index v = Some i2 ->
         nth_error (entries ls) (entry_pos ls + k) = Some e ->
         size_compatible (e_size e) (var_size (lo32 i2))) /\
    (forall name s1 s2,
       traverse_visits var_size var_is_dirty Write indices vs (ls, out)
       = inl (LoopSizeConflict name s1 s2) ->
       s1 <> s2 /\ s1 <> 1 /\ s2 <> 1 /\
       exists k v i2 e,
         nth_error vs k = Some v /\ vis_index v = Some i2 /\
         nth_error (entries ls) (entry_pos ls + k) = Some e /\
         name = vis_name v /\ s1 = e_size e /\ s2 = var_size (lo32 i2)).
Proof.
  induction vs as [|v vs IH]; intros ls out F; cbn [traverse_visits].
  - split; [|discriminate]. intros ls' out' _ [|k] ? ? ? N; discriminate N.
  - destruct (traverse_visit _ _ _ _ v (ls, out)) as [x | [ls1 out1]] eqn:E.
    + split; [discriminate|]. intros name s1 s2 H. injection H as ->.
      destruct (traverse_visit_entry _ _ _ _ F E)
        as [[n D] | (e & N & Hn & Ht)]; [discriminate D|].
      rewrite (traverse_visit_later _ _ _ _ F N Hn Ht) in E.
      destruct (vis_index v) as [i2|] eqn:V; [|discriminate E].
      destruct (traverse_leaf _ _ _ _ _ _ _ _ _ _)
        as [y | [[[e' ipos] lsize] pushed]] eqn:L; [|discriminate E].
      injection E as ->. apply traverse_leaf_conflict in L.
      destruct L as (-> & -> & -> & D1 & D2 & D3).
      split; [exact D1|]. split; [exact D2|]. split; [exact D3|].
      exists 0%nat, v, i2, e. rewrite Nat.add_0_r. cbn [nth_error].
      repeat split; auto.
    + pose proof (traverse_visit_inv _ _ _ _ _ _ _ _ _ E)
        as (F1 & _ & _ & sz & He & _).
      rewrite F in He. destruct He as (e0 & N0 & Hn0 & Ht0 & He & Hp).
      assert (K : skipn (S (entry_pos ls)) (entries ls1)
                  = skipn (S (entry_pos ls)) (entries ls))
        by (rewrite He; now apply skipn_replace with (x := e0)).
      assert (F1' : first_time ls1 = false) by congruence.
      destruct (IH ls1 out1 F1') as [IHa IHb].
      split.
      * intros ls' out' H [|k] v0 i2 e Nv Vi Ne.
        -- cbn [nth_error] in Nv. injection Nv as <-.
           rewrite Nat.add_0_r in Ne. rewrite N0 in Ne. injection Ne as <-.
           symmetry in Hn0, Ht0.
           rewrite (traverse_visit_later _ _ _ _ F N0 Hn0 Ht0), Vi in E.
           destruct (traverse_leaf _ _ _ _ _ _ _ _ _ _) as [y | r] eqn:L;
             [discriminate E|].
           now apply traverse_leaf_passes in L.
        -- cbn [nth_error] in Nv.
           apply (IHa ls' out' H k v0 i2 e Nv Vi).
           rewrite Hp, (nth_error_from_skipn _ _ _ k K), <- Ne.
           f_equal. lia.
      * intros name s1 s2 H.
        destruct (IHb name s1 s2 H)
          as (D1 & D2 & D3 & k & v0 & i2 & e & Nv & Vi & Ne & Q).
        split; [exact D1|]. split; [exact D2|]. split; [exact D3|].
        exists (S k), v0, i2, e. cbn [nth_error].
        split; [exact Nv|]. split; [exact Vi|]. split; [|exact Q].
        rewrite Hp, (nth_error_from_skipn _ _ _ k K) in Ne.
        rewrite <- Ne. f_equal. lia.
Qed.

Lemma traverse_visits_app l1 l2 st :
  traverse_visits var_size var_is_dirty Write indices (l1 ++ l2) st
  = match traverse_visits var_size var_is_dirty Write indices l1 st with
    | inl x => inl x
    | inr st' => traverse_visits var_size var_is_dirty Write indices l2 st'
    end.
Proof.
  revert st. induction l1 as [|v l1 IH]; intros st; cbn [app traverse_visits].
  - reflexivity.
  - destruct (traverse_visit _ _ _ _ v st); [reflexivity | apply IH].
Qed.
End TraverseSizes.

(** C6, as the code has it.  On a pass after the first, the recorded size
    [s1] of a leaf (the size of its entry) and its current size [s2] may be
    equal, or either of them may be 1: a pass that succeeds has found every
    leaf so.  The size-change error is raised only for a leaf whose two
    sizes differ and are both different from 1, and it is raised for the
    first such leaf when the objects before it pass and the leaf still has
    the name and the type of its entry. *)
Theorem traverse_size_transitions :
  forall var_size var_is_dirty (Write : bool) indices vs ls,
    first_time ls = false ->
    let ls0 := mkLoopState (entries ls) false 0
                           (if Write then 0%nat else indices_pos ls)
                           (loop_size ls) in
    (forall ls' out,
       traverse var_size var_is_dirty Write indices vs ls = inr (ls', out) ->
       forall k v i2 e,
         nth_error vs k = Some v -> vis_index v = Some i2 ->
         nth_error (entries ls) k = Some e ->
         size_compatible (e_size e) (var_size (lo32 i2))) /\
    (forall name s1 s2,
       traverse var_size var_is_dirty Write indices vs ls
       = inl (LoopSizeConflict name s1 s2) ->
       s1 <> s2 /\ s1 <> 1 /\ s2 <> 1 /\
       exists k v i2 e,
         nth_error vs k = Some v /\ vis_index v = Some i2 /\
         nth_error (entries ls) k = Some e /\
         name = vis_name v /\ s1 = e_size e /\ s2 = var_size (lo32 i2)) /\
    (forall k v i2 e st,
       nth_error vs k = Some v -> vis_index v = Some i2 ->
       nth_error (entries ls) k = Some e ->
       vis_name v = e_name e -> vis_type v = e_type e ->
       traverse_visits var_size var_is_dirty Write indices (firstn k vs)
                       (ls0, []) = inr st ->
       e_size e <> var_size (lo32 i2) -> e_size e <> 1 ->
       var_size (lo32 i2) <> 1 ->
       traverse var_size var_is_dirty Write indices vs ls
       = inl (LoopSizeConflict (vis_name v) (e_size e) (var_size (lo32 i2)))).
Proof.
  intros var_size var_is_dirty Write indices vs ls F ls0.
  assert (F0 : first_time ls0 = false) by reflexivity.
  destruct (traverse_visits_sizes var_size var_is_dirty Write indices vs ls0 []
              F0) as [A B].
  cbn [entries entry_pos Nat.add] in A, B.
  split; [|split].
  - intros ls' out H k v i2 e Nv Vi Ne. unfold traverse in H. rewrite F in H.
    fold ls0 in H.
    destruct (traverse_visits _ _ _ _ vs (ls0, [])) as [x | [ls1 out1]] eqn:E;
      [discriminate H|].
    exact (A ls1 out1 eq_refl k v i2 e Nv Vi Ne).
  - intros name s1 s2 H. unfold traverse in H. rewrite F in H. fold ls0 in H.
    destruct (traverse_visits _ _ _ _ vs (ls0, [])) as [x | [ls1 out1]] eqn:E.
    + injection H as ->. exact (B name s1 s2 eq_refl).
    + destruct (Write && negb (indices_pos ls1 =? length indices)%nat);
        discriminate H.
  - intros k v i2 e [st out] Nv Vi Ne Hn Ht Hpre D1 D2 D3.
    unfold traverse. rewrite F. fold ls0.
    rewrite (nth_error_split_at _ _ _ Nv) at 1.
    rewrite traverse_visits_app, Hpre. cbn [traverse_visits].
    destruct (traverse_visits_rest _ _ _ _ _ _ _ _ _ Hpre F0)
      as (Fs & Ps & Ss).
    assert (Lk : length (firstn k vs) = k).
    { apply firstn_length_le. apply Nat.lt_le_incl.
      apply nth_error_Some. congruence. }
    rewrite Lk in Ps. change (entry_pos ls0 + k)%nat with k in Ps.
    rewrite Ps in Ss. change (entries ls0) with (entries ls) in Ss.
    assert (Ns : nth_error (entries st) (entry_pos st) = Some e).
    { rewrite Ps.
      pose proof (nth_error_from_skipn _ _ k 0 Ss) as Q.
      rewrite Nat.add_0_r in Q. now rewrite Q. }
    rewrite (traverse_visit_later _ _ _ _ _ _ _ _ Fs Ns Hn Ht), Vi.
    rewrite (traverse_leaf_raises _ _ _ _ _ _ _ _ _ D1 D2 D3).
    reflexivity.
Qed.

Lemma traverse_size_transitions_witness :
  traverse ex_var_size_2 (fun _ => false) false []
           [mkVisit "arg0" 9 None; mkVisit "arg0[0]" 0 (Some 6)]
           ex_loop_state_1
  = inl (LoopSizeConflict "arg0[0]" 4 2).
Proof.
  apply (proj2 (proj2 (traverse_size_transitions ex_var_size_2 (fun _ => false)
                         false []
                         [mkVisit "arg0" 9 None; mkVisit "arg0[0]" 0 (Some 6)]
                         ex_loop_state_1 eq_refl))
           1%nat (mkVisit "arg0[0]" 0 (Some 6)) 6
           (mkEntry "arg0[0]" 0 0 4)
           (mkLoopState (entries ex_loop_state_1) false 1 0 4, [])).
  - reflexivity.
  - reflexivity.
  - reflexivity.
  - reflexivity.
  - reflexivity.
  - vm_compute. reflexivity.
  - vm_compute. discriminate.
  - vm_compute. discriminate.
  - vm_compute. discriminate.
Defined.
